(** * pyannote.audio diarization pipelines (pipeline/simple.py)

    A shallow embedding of [SimpleDiarization] (segment-level) and
    [DiscreteDiarization] (frame-level), with the properties of their
    [__call__] and [get_embedding] methods.

    Conventions.
    - Python floats (times, scores, distances) are exact rationals [Q];
      the tolerance [SEGMENT_PRECISION] with which pyannote.core papers
      over float rounding is therefore 0.  NaN is outside the model.
      [Module Binary64] repeats the arithmetic of [get_embedding] on
      primitive floats.
    - pyannote.core ([Segment], [Timeline], [Annotation]), numpy and scipy
      are dependencies of simple.py; the parts used are modelled in
      [Module Core] and [Module Np].
    - The neural models, the clustering routines and the rasterisation
      helpers are collaborators, gathered in the class [Collaborators].
    - [__call__] mutates [current_file] (the score cache) and calls
      collaborators; it runs in the monad [Exec], whose state carries the
      file and the trace of collaborator calls, and whose result is
      [Ok] or [Raise].
    - An annotation is the set of its tracks; its [uri] is not kept. *)

From Stdlib Require Import QArith Qminmax Qround List String Ascii ZArith.
From Stdlib Require Import Lia Lqa Bool PeanoNat Sorted SetoidList Finite.
From Stdlib Require Import Permutation PrimFloat.
Import ListNotations.
Local Open Scope Q_scope.

(* ================================================================== *)
(** * Part I. Definitions *)
(* ================================================================== *)

(** ** Comparisons on floats *)

Definition Qltb (x y : Q) : bool := negb (Qle_bool y x).

(** ** Exceptions and results *)

Inductive exn : Type :=
| RuntimeError
| ValueError
| IndexError
| StopIteration.

Inductive Res (A : Type) : Type :=
| Ok (a : A)
| Raise (e : exn).
Arguments Ok {A} a.
Arguments Raise {A} e.

Definition res_bind {A B} (r : Res A) (k : A -> Res B) : Res B :=
  match r with
  | Ok a => k a
  | Raise e => Raise e
  end.

(* ------------------------------------------------------------------ *)
(** ** pyannote.core *)
(* ------------------------------------------------------------------ *)

Module Core.

(** [Segment(start, end)]. *)
Record Segment : Type := mkSegment { start : Q; end_ : Q }.

(** [bool(segment)]: [end - start > SEGMENT_PRECISION]. *)
Definition Segment_bool (s : Segment) : bool := Qltb 0 (end_ s - start s).

(** [segment.duration]: [end - start if self else 0.]. *)
Definition duration (s : Segment) : Q :=
  if Segment_bool s then end_ s - start s else 0.

(** [segment.middle]: [.5 * (start + end)]. *)
Definition middle (s : Segment) : Q := (1 # 2) * (start s + end_ s).

(** Equality and order of segments are those of the pair (start, end). *)
Definition seg_eq (s t : Segment) : Prop :=
  start s == start t /\ end_ s == end_ t.

Definition seg_eqb (s t : Segment) : bool :=
  Qeq_bool (start s) (start t) && Qeq_bool (end_ s) (end_ t).

Definition seg_lt (s t : Segment) : Prop :=
  start s < start t \/ (start s == start t /\ end_ s < end_ t).

Definition seg_ltb (s t : Segment) : bool :=
  Qltb (start s) (start t)
  || (Qeq_bool (start s) (start t) && Qltb (end_ s) (end_ t)).

(** [s & t], [s ^ t] (the gap) and [s | t] (the hull). *)
Definition seg_and (s t : Segment) : Segment :=
  mkSegment (Qmax (start s) (start t)) (Qmin (end_ s) (end_ t)).

Definition seg_xor (s t : Segment) : Segment :=
  mkSegment (Qmin (end_ s) (end_ t)) (Qmax (start s) (start t)).

Definition seg_or (s t : Segment) : Segment :=
  if negb (Segment_bool s) then t
  else if negb (Segment_bool t) then s
  else mkSegment (Qmin (start s) (start t)) (Qmax (end_ s) (end_ t)).

(** [s.intersects(t)]. *)
Definition intersects (s t : Segment) : bool :=
  (Qltb (start s) (start t) && Qltb (start t) (end_ s))
  || (Qltb (start t) (start s) && Qltb (start s) (end_ t))
  || Qeq_bool (start s) (start t).

(** A timeline is the sorted list of its segments. *)
Definition Timeline : Type := list Segment.

Fixpoint insert_seg (s : Segment) (tl : Timeline) : Timeline :=
  match tl with
  | [] => [s]
  | t :: r =>
      if seg_eqb s t then tl
      else if seg_ltb s t then s :: tl
      else t :: insert_seg s r
  end.

(** [Timeline(segments=...)]: empty segments are left out, duplicates
    collapse (the segments go through a set) and the rest is sorted. *)
Definition Timeline_mk (segments : list Segment) : Timeline :=
  fold_right insert_seg [] (filter Segment_bool segments).

(** [timeline.support()]: consecutive segments with no gap in between
    are merged (spec, 4.1: the intervals of a binarized timeline are
    "disjoint and time-ordered").  The loop starts from the first
    segment and visits every segment, the first included. *)
Fixpoint support_from (new_segment : Segment) (tl : list Segment)
  : list Segment :=
  match tl with
  | [] => [new_segment]
  | segment :: r =>
      let possible_gap := seg_xor segment new_segment in
      if negb (Segment_bool possible_gap)
      then support_from (seg_or new_segment segment) r
      else new_segment :: support_from segment r
  end.

Definition support (tl : Timeline) : Timeline :=
  match tl with
  | [] => []
  | s0 :: _ => Timeline_mk (support_from s0 tl)
  end.

(** [a.co_iter(b)]: the pairs of intersecting segments. *)
Definition co_iter (a b : Timeline) : list (Segment * Segment) :=
  flat_map (fun s => map (fun t => (s, t)) (filter (intersects s) b)) a.

(** Modelled from the spec: [crop(a, support, mode)] of the segment
    algebra, which is [Timeline.crop] of pyannote.core and not part of
    simple.py: "restrict a to the overlap with support;
    mode="intersection" truncates partially-overlapping intervals to
    their overlapping portion".  Each segment of [a] is cut by each
    segment of the support that it intersects; the support is taken
    merged, as the library does. *)
Definition crop (a support_ : Timeline) : Timeline :=
  Timeline_mk
    (flat_map
       (fun st => let mapped_to := seg_and (fst st) (snd st) in
                  if Segment_bool mapped_to then [mapped_to] else [])
       (co_iter a (support support_))).

(** Modelled from the spec: [gaps(support)] of the segment algebra,
    which is [Timeline.gaps] of pyannote.core and not part of
    simple.py: "complement of a Timeline's intervals within support".
    The timeline is cropped to the support and merged; there is one gap
    before each of its segments and a last one up to the end of the
    support; gaps of no duration are not produced. *)
Fixpoint gaps_iter (end_prev : Q) (tl : list Segment) (support_end : Q)
  : list Segment :=
  match tl with
  | [] =>
      let gap := mkSegment end_prev support_end in
      if Segment_bool gap then [gap] else []
  | segment :: r =>
      let gap := mkSegment end_prev (start segment) in
      (if Segment_bool gap then [gap] else [])
        ++ gaps_iter (end_ segment) r support_end
  end.

Definition gaps (tl : Timeline) (support_ : Segment) : Timeline :=
  Timeline_mk
    (gaps_iter (start support_)
       (support (crop tl (Timeline_mk [support_])))
       (end_ support_)).

(** Labels and track names: strings or integers. *)
Inductive Label : Type :=
| LStr (s : string)
| LInt (n : Z).

Definition Label_eqb (a b : Label) : bool :=
  match a, b with
  | LStr s, LStr t => String.eqb s t
  | LInt n, LInt m => Z.eqb n m
  | _, _ => false
  end.

(** An annotation maps (segment, track) to a label. *)
Definition Annotation : Type := list (Segment * Label * Label).

Definition key_eqb (s : Segment) (trk : Label) (e : Segment * Label * Label)
  : bool :=
  seg_eqb s (fst (fst e)) && Label_eqb trk (snd (fst e)).

(** [annotation[segment, track] = label]; nothing happens for an empty
    segment. *)
Definition Annotation_set (a : Annotation) (s : Segment) (trk lab : Label)
  : Annotation :=
  if negb (Segment_bool s) then a
  else filter (fun e => negb (key_eqb s trk e)) a ++ [(s, trk, lab)].

(** [a.update(b)]: every track of [b] is written into [a]. *)
Definition Annotation_update (a b : Annotation) : Annotation :=
  fold_left (fun acc e => Annotation_set acc (fst (fst e)) (snd (fst e)) (snd e))
            b a.

(** [annotation.crop(support, mode="intersection")]: each track is cut
    to its intersections with the segments of the support.  The cut
    pieces keep the name of their track ([new_track] only renames a
    track whose name is taken). *)
Definition Annotation_crop (a : Annotation) (support_ : Timeline)
  : Annotation :=
  flat_map
    (fun e =>
       flat_map
         (fun t =>
            let intersection := seg_and (fst (fst e)) t in
            if intersects (fst (fst e)) t && Segment_bool intersection
            then [(intersection, snd (fst e), snd e)]
            else [])
         (support support_))
    a.

(** The label generators passed to [to_annotation]. *)

(** [string_generator()]: A, ..., Z, AA, AB, ...  A label is kept as its
    letters, last letter first, each letter a number below 26. *)
Fixpoint next_letters (l : list nat) : list nat :=
  match l with
  | [] => [0%nat]
  | d :: r => if Nat.eqb d 25 then 0%nat :: next_letters r else S d :: r
  end.

Fixpoint nth_letters (n : nat) : list nat :=
  match n with
  | O => [0%nat]
  | S k => next_letters (nth_letters k)
  end.

Definition letter (d : nat) : ascii := ascii_of_nat (65 + d).

Definition string_of_letters (l : list nat) : string :=
  string_of_list_ascii (map letter (rev l)).

(** A generator is the function giving its n-th output, if any. *)
Definition Generator : Type := nat -> option Label.

Definition string_generator : Generator :=
  fun n => Some (LStr (string_of_letters (nth_letters n))).

(** [iter(lambda: "A", None)]. *)
Definition constant_generator (s : string) : Generator :=
  fun _ => Some (LStr s).

(** [iter(array)] for an array of integer labels. *)
Definition iter (labels : list Z) : Generator :=
  fun n => option_map LInt (nth_error labels n).

(** [timeline.to_annotation(generator=g)]: the segments, in order, get
    the successive outputs of [g] on the default track. *)
Fixpoint to_annotation_from (n : nat) (tl : Timeline) (g : Generator)
  (acc : Annotation) : Res Annotation :=
  match tl with
  | [] => Ok acc
  | s :: r =>
      match g n with
      | None => Raise StopIteration
      | Some lab =>
          to_annotation_from (S n) r g (Annotation_set acc s (LStr "_") lab)
      end
  end.

Definition to_annotation (tl : Timeline) (g : Generator) : Res Annotation :=
  to_annotation_from 0 tl g [].

End Core.

(* ------------------------------------------------------------------ *)
(** ** numpy *)
(* ------------------------------------------------------------------ *)

Module Np.

(** A 2-d array is the list of its rows. *)
Definition Matrix (A : Type) : Type := list (list A).

Definition column (j : nat) (m : Matrix Q) : list Q :=
  map (fun row => nth j row 0) m.

Definition columns (ncols : nat) (m : Matrix Q) : list (list Q) :=
  map (fun j => column j m) (seq 0 ncols).

(** The number of entries of an array ([a.size]). *)
Definition size {A} (m : Matrix A) : nat :=
  fold_right (fun row n => (length row + n)%nat) 0%nat m.

Definition total (m : Matrix Q) : Q :=
  fold_right (fun row acc => fold_right Qplus 0 row + acc) 0 m.

(** [np.nanmean(a)] on an array without NaN.  On an empty array numpy
    gives NaN, and every comparison with NaN is false: so is [0 < 0]. *)
Definition nanmean (m : Matrix Q) : Q :=
  total m / inject_Z (Z.of_nat (size m)).

(** [np.where(a)[0]]: the row of each non-zero entry, in row order. *)
Definition where0 (m : Matrix Z) : list nat :=
  flat_map
    (fun ir => map (fun _ => fst ir)
                   (filter (fun x => negb (Z.eqb x 0)) (snd ir)))
    (combine (seq 0 (length m)) m).

(** Elementwise [a * b] and [1 - a] on arrays of one shape. *)
Definition mul (a b : Matrix Z) : Matrix Z :=
  map (fun rr => map (fun xy => (fst xy * snd xy)%Z)
                     (combine (fst rr) (snd rr)))
      (combine a b).

Definition one_minus (a : Matrix Z) : Matrix Z :=
  map (map (fun x => (1 - x)%Z)) a.

(** [a[indices]] with an array of indices. *)
Fixpoint take {A} (a : list A) (indices : list nat) : Res (list A) :=
  match indices with
  | [] => Ok []
  | i :: r =>
      match nth_error a i with
      | None => Raise IndexError
      | Some x => res_bind (take a r) (fun xs => Ok (x :: xs))
      end
  end.

(** [np.max(a)]; no maximum of an empty array. *)
Definition max (a : list nat) : Res nat :=
  match a with
  | [] => Raise ValueError
  | x :: r => Ok (fold_left Nat.max r x)
  end.

(** [np.argmin(a)]: the first position of the least value. *)
Fixpoint argmin_from (best_i : nat) (best : Q) (i : nat) (l : list Q) : nat :=
  match l with
  | [] => best_i
  | x :: r =>
      if Qltb x best then argmin_from i x (S i) r
      else argmin_from best_i best (S i) r
  end.

Definition argmin (l : list Q) : Res nat :=
  match l with
  | [] => Raise ValueError
  | x :: r => Ok (argmin_from 0 x 1 r)
  end.

(** [np.argmin(a, axis=0)] for an array with [ncols] columns. *)
Fixpoint sequence {A} (l : list (Res A)) : Res (list A) :=
  match l with
  | [] => Ok []
  | r :: rest =>
      res_bind r (fun x => res_bind (sequence rest) (fun xs => Ok (x :: xs)))
  end.

Definition argmin_axis0 (ncols : nat) (m : Matrix Q) : Res (list nat) :=
  sequence (map argmin (columns ncols m)).

(** [np.argpartition(a, kth, axis=0)].  numpy checks [kth] against the
    length of the axis unless the array has no entry, and raises
    ValueError when [kth] is not below it.  Otherwise each column holds
    the row numbers rearranged so that the one at position [kth] is
    where a sort would put it, those of smaller values before it; the
    order within the two parts is not specified, a stable sort of the
    row numbers is one such arrangement. *)
Fixpoint insert_by (col : list Q) (i : nat) (sorted : list nat) : list nat :=
  match sorted with
  | [] => [i]
  | j :: r =>
      if Qltb (nth i col 0) (nth j col 0) then i :: sorted
      else j :: insert_by col i r
  end.

Definition argsort (col : list Q) : list nat :=
  fold_right (insert_by col) [] (seq 0 (length col)).

(** The result is given by columns: the j-th list is column j of the
    array numpy returns. *)
Definition argpartition_axis0 (ncols : nat) (m : Matrix Q) (kth : nat)
  : Res (list (list nat)) :=
  if negb (Nat.eqb (size m) 0) && Nat.leb (length m) kth
  then Raise ValueError
  else Ok (map argsort (columns ncols m)).

(** [np.zeros((n, k), dtype=np.int8)] and [y[i, k] = 1]. *)
Definition zeros (n k : nat) : Matrix Z := repeat (repeat 0%Z k) n.

Fixpoint set_nth {A} (l : list A) (i : nat) (x : A) : list A :=
  match l, i with
  | [], _ => []
  | _ :: r, O => x :: r
  | y :: r, S i' => y :: set_nth r i' x
  end.

Definition set1 (y : Matrix Z) (i k : nat) : Matrix Z :=
  match nth_error y i with
  | None => y
  | Some row => set_nth y i (set_nth row k 1%Z)
  end.

End Np.

Import Core.

(* ------------------------------------------------------------------ *)
(** ** Files, collaborators and the execution monad *)
(* ------------------------------------------------------------------ *)

(** A score curve: one row per frame, one column per class. *)
Definition Curve : Type := Np.Matrix Q.

(** [current_file]: the entries of the dictionary that the pipelines
    read or write.  The cached curves are looked up by key. *)
Record ProtocolFile : Type := mkFile {
  f_uri : option string;
  f_duration : Q;
  f_scores : string -> option Curve
}.

Definition store (key : string) (scores : Curve) (f : ProtocolFile)
  : ProtocolFile :=
  mkFile (f_uri f) (f_duration f)
         (fun k => if String.eqb k key then Some scores else f_scores f k).

Record SlidingWindow : Type := mkWindow {
  w_start : Q; w_duration : Q; w_step : Q
}.

(** What simple.py imports and calls without defining it. *)
Class Collaborators : Type := {
  (** an embedding vector *)
  Vec : Type;
  Dendrogram : Type;
  (** [np.exp] on one float *)
  np_exp : Q -> Q;
  (** [np.mean(_, axis=0)] *)
  np_mean : list Vec -> Vec;
  (** the cosine distance used by [cdist(_, _, metric="cosine")] *)
  cosine : Vec -> Vec -> Q;
  (** [pool(X, metric="cosine")] *)
  pool : list Vec -> Res Dendrogram;
  (** [fcluster(Z, t, criterion="distance")]: labels from 1 *)
  fcluster : Dendrogram -> Q -> list positive;
  (** [Binarize(onset, offset, min_duration_on, min_duration_off)
        .apply(scores, dimension)] *)
  Binarize_apply : Q -> Q -> Q -> Q -> Curve -> nat -> list Segment;
  (** [Peak(alpha, min_duration).apply(scores, dimension)] *)
  Peak_apply : Q -> Q -> Curve -> nat -> list Segment;
  (** [one_hot_encoding(annotation, support, window, labels, mode="center")] *)
  one_hot_encoding :
    Annotation -> Timeline -> SlidingWindow -> list Label -> Np.Matrix Z;
  (** [one_hot_decoding(y, window, labels)] *)
  one_hot_decoding : Np.Matrix Z -> SlidingWindow -> list Label -> Annotation
}.

Section Execution.
Context {C : Collaborators}.

(** [cdist(XA, XB, metric="cosine")]: one row per vector of [XA]. *)
Definition cdist (XA XB : list Vec) : Np.Matrix Q :=
  map (fun a => map (fun b => cosine a b) XB) XA.

(** Calls to collaborators that a run leaves in its trace. *)
Inductive Event : Type :=
| EvSad                       (* self.sad(current_file) *)
| EvScd                       (* self.scd(current_file) *)
| EvOvl                       (* self.ovl(current_file) *)
| EvEmb                       (* self.emb(current_file) *)
| EvCrop (segment : Segment)  (* self.emb.crop(current_file, segment) *)
| EvPool (X : list Vec).      (* pool(X, metric="cosine") *)

Record World : Type := mkWorld {
  current_file : ProtocolFile;
  trace : list Event
}.

Definition Exec (A : Type) : Type := World -> Res A * World.

Definition ret {A} (a : A) : Exec A := fun w => (Ok a, w).

Definition bind {A B} (m : Exec A) (k : A -> Exec B) : Exec B :=
  fun w =>
    match m w with
    | (Ok a, w') => k a w'
    | (Raise e, w') => (Raise e, w')
    end.

Definition lift {A} (r : Res A) : Exec A := fun w => (r, w).

Definition get_file : Exec ProtocolFile := fun w => (Ok (current_file w), w).

Definition modify_file (f : ProtocolFile -> ProtocolFile) : Exec unit :=
  fun w => (Ok tt, mkWorld (f (current_file w)) (trace w)).

(** A call to a collaborator: the event is appended to the trace. *)
Definition call {A} (ev : Event) (f : ProtocolFile -> Res A) : Exec A :=
  fun w => (f (current_file w), mkWorld (current_file w) (trace w ++ [ev])).

(** [try: body  except RuntimeError: handler]. *)
Definition try_except_RuntimeError {A} (body handler : Exec A) : Exec A :=
  fun w =>
    match body w with
    | (Raise RuntimeError, w') => handler w'
    | other => other
    end.

(** A list comprehension whose body runs in [Exec]. *)
Fixpoint for_each {A B} (f : A -> Exec B) (l : list A) : Exec (list B) :=
  match l with
  | [] => ret []
  | x :: r =>
      bind (f x) (fun y => bind (for_each f r) (fun ys => ret (y :: ys)))
  end.

End Execution.

Declare Scope exec_scope.
Delimit Scope exec_scope with exec.
Notation "x <- m ;; k" := (bind m (fun x => k))
  (at level 100, m at next level, right associativity) : exec_scope.
Notation "m ;;; k" := (bind m (fun _ => k))
  (at level 100, right associativity) : exec_scope.

Section Scores.
Context {C : Collaborators}.
Local Open Scope exec_scope.

(** The block that both pipelines write for each detector:
<<
    if key in current_file:
        scores = current_file[key]
    else:
        scores = model(current_file)
        if np.nanmean(scores) < 0:
            scores = np.exp(scores)
        current_file[key] = scores
>> *)
Definition cached_scores (key : string) (ev : Event)
  (model : ProtocolFile -> Res Curve) : Exec Curve :=
  f <- get_file ;;
  match f_scores f key with
  | Some scores => ret scores
  | None =>
      scores <- call ev model ;;
      let scores :=
        if Qltb (Np.nanmean scores) 0 then map (map np_exp) scores
        else scores in
      modify_file (store key scores) ;;;
      ret scores
  end.

End Scores.

(* ------------------------------------------------------------------ *)
(** ** class SimpleDiarization *)
(* ------------------------------------------------------------------ *)

Module Simple.
Section Pipeline.
Context {C : Collaborators}.
Local Open Scope exec_scope.

(** The pretrained models and the hyper-parameters of one pipeline. *)
Record SimpleDiarization : Type := {
  sad : ProtocolFile -> Res Curve;
  sad_speech_index_ : nat;
  scd : ProtocolFile -> Res Curve;
  scd_change_index_ : nat;
  (** [self.emb.crop(current_file, segment)] *)
  emb_crop : ProtocolFile -> Segment -> Res (list Vec);
  sad_threshold_on : Q;
  sad_threshold_off : Q;
  scd_threshold : Q;
  seg_min_duration : Q;
  gap_min_duration : Q;
  emb_duration : Q;
  emb_threshold : Q
}.

Variable self : SimpleDiarization.

(** [initialize]. *)
Definition sad_binarize_ (scores : Curve) (dimension : nat) : Timeline :=
  Timeline_mk
    (Binarize_apply (sad_threshold_on self) (sad_threshold_off self)
                    (seg_min_duration self) (gap_min_duration self)
                    scores dimension).

Definition scd_peak_ (scores : Curve) (dimension : nat) : Timeline :=
  Timeline_mk
    (Peak_apply (scd_threshold self) (seg_min_duration self) scores dimension).

Definition MIN_DURATION : Q := 157 # 1000.

(** The segment on which [get_embedding] tries again. *)
Definition extended_segment (file : ProtocolFile) (segment : Segment)
  : Segment :=
  if Qltb (middle segment - (1 # 2) * MIN_DURATION) 0
  then mkSegment 0 MIN_DURATION
  else if Qltb (f_duration file) (middle segment + (1 # 2) * MIN_DURATION)
  then mkSegment (f_duration file - MIN_DURATION) (f_duration file)
  else mkSegment (middle segment - (1 # 2) * MIN_DURATION)
                 (middle segment + (1 # 2) * MIN_DURATION).

Definition crop_call (segment : Segment) : Exec (list Vec) :=
  call (EvCrop segment) (fun file => emb_crop self file segment).

Definition get_embedding (segment : Segment) : Exec Vec :=
  embeddings <-
    try_except_RuntimeError
      (crop_call segment)
      (file <- get_file ;; crop_call (extended_segment file segment)) ;;
  ret (np_mean embeddings).

(** Lines 155-182 of [__call__]: the speech regions split at the
    change points. *)
Definition speech_turns : Exec Timeline :=
  sad_scores <- cached_scores "sad_scores" EvSad (sad self) ;;
  let sad := sad_binarize_ sad_scores (sad_speech_index_ self) in
  scd_scores <- cached_scores "scd_scores" EvScd (scd self) ;;
  let scd := scd_peak_ scd_scores (scd_change_index_ self) in
  ret (crop scd sad).

(** Line 185: the tiny segments are removed. *)
Definition candidates : Exec (list Segment) :=
  seg <- speech_turns ;;
  ret (filter
         (fun s => Qltb (Qmin (1 # 10) (seg_min_duration self)) (duration s))
         seg).

Definition labels_of (cluster : list positive) : list Z := map Zpos cluster.

(** Lines 188 and 217: the long and the short segments. *)
Definition long_segments (seg : list Segment) : list Segment :=
  filter (fun s => Qle_bool (emb_duration self) (duration s)) seg.

Definition short_segments (seg : list Segment) : list Segment :=
  filter (fun s => Qltb (duration s) (emb_duration self)) seg.

(** Lines 187-240 of [__call__]: the clusters of the candidates. *)
Definition diarize (seg : list Segment) : Exec Annotation :=
  let seg_long := long_segments seg in
  match length seg_long with
  | O => lift (to_annotation (Timeline_mk seg) string_generator)
  | S O => lift (to_annotation (Timeline_mk seg) (constant_generator "A"))
  | _ =>
      emb_long <- for_each get_embedding seg_long ;;
      Z <- call (EvPool emb_long) (fun _ => pool emb_long) ;;
      let cluster_long := labels_of (fcluster Z (emb_threshold self)) in
      let seg_shrt := short_segments seg in
      match length seg_shrt with
      | O => lift (to_annotation (Timeline_mk seg) (iter cluster_long))
      | _ =>
          emb_shrt <- for_each get_embedding seg_shrt ;;
          nearest <-
            lift (Np.argmin_axis0 (length emb_shrt) (cdist emb_long emb_shrt)) ;;
          cluster_shrt <- lift (Np.take cluster_long nearest) ;;
          let seg_shrt := Timeline_mk seg_shrt in
          let seg_long := Timeline_mk seg_long in
          long <- lift (to_annotation seg_long (iter cluster_long)) ;;
          shrt <- lift (to_annotation seg_shrt (iter cluster_shrt)) ;;
          ret (Annotation_update long shrt)
      end
  end.

Definition __call__ : Exec Annotation :=
  seg <- candidates ;;
  diarize seg.

End Pipeline.
End Simple.

(* ------------------------------------------------------------------ *)
(** ** class DiscreteDiarization *)
(* ------------------------------------------------------------------ *)

Module Discrete.
Section Pipeline.
Context {C : Collaborators}.
Local Open Scope exec_scope.

Record DiscreteDiarization : Type := {
  sad : ProtocolFile -> Res Curve;
  sad_speech_index_ : nat;
  (** [self.emb(current_file)]: the embeddings of the sliding window *)
  emb : ProtocolFile -> Res (list Vec * SlidingWindow);
  (** [None] when no overlapped speech detection is used *)
  ovl : option (ProtocolFile -> Res Curve);
  ovl_overlap_index_ : nat;
  sad_threshold_on : Q;
  sad_threshold_off : Q;
  sad_min_duration_on : Q;
  sad_min_duration_off : Q;
  emb_threshold : Q;
  ovl_threshold_on : Q;
  ovl_threshold_off : Q;
  ovl_min_duration_on : Q;
  ovl_min_duration_off : Q
}.

Variable self : DiscreteDiarization.

Definition sad_binarize_ (scores : Curve) (dimension : nat) : Timeline :=
  Timeline_mk
    (Binarize_apply (sad_threshold_on self) (sad_threshold_off self)
                    (sad_min_duration_on self) (sad_min_duration_off self)
                    scores dimension).

Definition ovl_binarize_ (scores : Curve) (dimension : nat) : Timeline :=
  Timeline_mk
    (Binarize_apply (ovl_threshold_on self) (ovl_threshold_off self)
                    (ovl_min_duration_on self) (ovl_min_duration_off self)
                    scores dimension).

(** What the block under [if self.ovl is not None] (lines 393-424)
    leaves for the rest of the method. *)
Record Overlap : Type := mkOverlap {
  clean_speech : Timeline;
  noisy_speech : Timeline;
  clean_speech_indices : list nat;
  noisy_speech_indices : list nat
}.

(** [one_hot_encoding(tl.to_annotation(generator=iter(lambda: name, None)),
      Timeline(segments=[extent]), window, labels=[name],
      mode="center")[: n]] *)
Definition discretize (tl : Timeline) (name : string) (extent : Segment)
  (window : SlidingWindow) (n : nat) : Exec (Np.Matrix Z) :=
  a <- lift (to_annotation tl (constant_generator name)) ;;
  ret (firstn n (one_hot_encoding a (Timeline_mk [extent]) window
                                  [LStr name])).

Definition overlap_block (extent : Segment) (window : SlidingWindow)
  (n : nat) (speech : Timeline) (speech_discrete : Np.Matrix Z)
  (ovl_model : ProtocolFile -> Res Curve) : Exec Overlap :=
  ovl_scores <- cached_scores "ovl_scores" EvOvl ovl_model ;;
  let overlap := ovl_binarize_ ovl_scores (ovl_overlap_index_ self) in
  let clean_speech := crop speech (gaps overlap extent) in
  let noisy_speech := crop speech overlap in
  overlap_discrete <- discretize overlap "overlap" extent window n ;;
  ret (mkOverlap clean_speech noisy_speech
         (Np.where0 (Np.mul speech_discrete (Np.one_minus overlap_discrete)))
         (Np.where0 (Np.mul speech_discrete overlap_discrete))).

(** [X[cluster == k]]. *)
Definition members {A} (X : list A) (cluster : list nat) (k : nat) : list A :=
  map fst (filter (fun xc => Nat.eqb (snd xc) k) (combine X cluster)).

Definition range_labels (n : nat) : list Label :=
  map (fun k => LInt (Z.of_nat k)) (seq 0 n).

(** Lines 447-470: the frames of [noisy_speech_indices] are given the
    clusters whose averages are nearest. *)
Definition most_similar_clusters (X : list Vec) (cluster : list nat)
  (num_clusters : nat) (noisy : list Vec) : Res (list (list nat)) :=
  let cluster_emb :=
    map (fun k => np_mean (members X cluster k)) (seq 0 num_clusters) in
  let distance := cdist cluster_emb noisy in
  res_bind
    (Np.argpartition_axis0 (length noisy) distance (Nat.min 2 num_clusters))
    (fun part => Ok (map (firstn (Nat.min 2 num_clusters)) part)).

Definition overlap_y (n num_clusters : nat) (noisy_speech_indices : list nat)
  (most_similar_cluster_indices_T : list (list nat)) : Np.Matrix Z :=
  fold_left
    (fun y iks => fold_left (fun y' k => Np.set1 y' (fst iks) k) (snd iks) y)
    (combine noisy_speech_indices most_similar_cluster_indices_T)
    (Np.zeros n num_clusters).

(** What lines 361-388 compute. *)
Record Frames : Type := mkFrames {
  extent : Segment;
  data : list Vec;
  window : SlidingWindow;
  speech : Timeline;
  speech_discrete : Np.Matrix Z;
  speech_indices : list nat
}.

Definition speech_frames : Exec Frames :=
  file <- get_file ;;
  let extent := mkSegment 0 (f_duration file) in
  e <- call EvEmb (emb self) ;;
  let data := fst e in
  let window := snd e in
  sad_scores <- cached_scores "sad_scores" EvSad (sad self) ;;
  let speech := sad_binarize_ sad_scores (sad_speech_index_ self) in
  speech_discrete <- discretize speech "speech" extent window (length data) ;;
  ret (mkFrames extent data window speech speech_discrete
                (Np.where0 speech_discrete)).

(** Line 429: the frames whose embeddings are clustered. *)
Definition indices (fr : Frames) (o : option Overlap) : list nat :=
  match o with
  | None => speech_indices fr
  | Some r => clean_speech_indices r
  end.

(** Lines 428-472. *)
Definition clustering (fr : Frames) (o : option Overlap) : Exec Annotation :=
  X <- lift (Np.take (data fr) (indices fr o)) ;;
  dendrogram <- call (EvPool X) (fun _ => pool X) ;;
  let cluster :=
    map (fun c => (Pos.to_nat c - 1)%nat)
        (fcluster dendrogram (emb_threshold self)) in
  top <- lift (Np.max cluster) ;;
  let num_clusters := (top + 1)%nat in
  let y :=
    fold_left (fun y ik => Np.set1 y (fst ik) (snd ik))
              (combine (indices fr o) cluster)
              (Np.zeros (length (data fr)) num_clusters) in
  let hypothesis :=
    one_hot_decoding y (window fr) (range_labels num_clusters) in
  match o with
  | None => ret (Annotation_crop hypothesis (speech fr))
  | Some r =>
      let hypothesis := Annotation_crop hypothesis (clean_speech r) in
      noisy <- lift (Np.take (data fr) (noisy_speech_indices r)) ;;
      part <- lift (most_similar_clusters X cluster num_clusters noisy) ;;
      let y := overlap_y (length (data fr)) num_clusters
                         (noisy_speech_indices r) part in
      let noisy_hypothesis :=
        Annotation_crop
          (one_hot_decoding y (window fr) (range_labels num_clusters))
          (noisy_speech r) in
      ret (Annotation_update hypothesis noisy_hypothesis)
  end.

Definition __call__ : Exec Annotation :=
  fr <- speech_frames ;;
  if Nat.eqb (length (speech_indices fr)) 0 then ret []
  else
    o <- match ovl self with
         | None => ret None
         | Some ovl_model =>
             r <- overlap_block (extent fr) (window fr) (length (data fr))
                                (speech fr) (speech_discrete fr) ovl_model ;;
             ret (Some r)
         end ;;
    clustering fr o.

End Pipeline.
End Discrete.

(* ------------------------------------------------------------------ *)
(** ** The extended segment in binary64 *)
(* ------------------------------------------------------------------ *)

(** Lines 137-148 again, on the floats of the machine, to run the
    example of the specification as Python computes it. *)
Module Binary64.
#[local] Set Warnings "-inexact-float".

Definition MIN_DURATION : float := 0.157%float.

Definition middle (segment : float * float) : float :=
  (0.5 * (fst segment + snd segment))%float.

Definition extended_segment (duration : float) (segment : float * float)
  : float * float :=
  if (middle segment - 0.5 * MIN_DURATION <? 0)%float
  then (0%float, MIN_DURATION)
  else if (duration <? middle segment + 0.5 * MIN_DURATION)%float
  then ((duration - MIN_DURATION)%float, duration)
  else ((middle segment - 0.5 * MIN_DURATION)%float,
        (middle segment + 0.5 * MIN_DURATION)%float).

(** The segment of 50 ms around 5.0 s and the segment the example
    expects. *)
Definition example_segment : float * float := (4.975%float, 5.025%float).

Definition example_extended : float * float := (4.9215%float, 5.0785%float).

End Binary64.

(* ------------------------------------------------------------------ *)
(** ** Notions used in the statements *)
(* ------------------------------------------------------------------ *)

(** *** Time *)

(** [t] is in the segment, its end excluded. *)
Definition inside (s : Segment) (t : Q) : Prop := start s <= t /\ t < end_ s.

Definition covers (tl : list Segment) (t : Q) : Prop :=
  exists s, In s tl /\ inside s t.

(** Each segment ends before the next ones start. *)
Definition separated (tl : list Segment) : Prop :=
  StronglySorted (fun a b => end_ a < start b) tl.

Definition nonempty (tl : list Segment) : Prop :=
  Forall (fun s => Segment_bool s = true) tl.

(** A list of segments that is the content of a timeline. *)
Definition is_timeline (l : list Segment) : Prop :=
  StronglySorted seg_lt l /\ Forall (fun s => Segment_bool s = true) l.

(** *** Labels and tracks *)

(** The rank of a label in the enumeration A, B, ..., Z, AA, ... *)
Fixpoint rank (l : list nat) : nat :=
  match l with
  | [] => 0
  | d :: r => (d + 1) + 26 * rank r
  end.

Definition letters_ok (l : list nat) : Prop := Forall (fun d => (d <= 25)%nat) l.

(** The first [n] outputs of the string generator. *)
Definition string_labels (n : nat) : list Label :=
  map (fun i => LStr (string_of_letters (nth_letters i))) (seq 0 n).

(** The tracks [to_annotation] writes: one per segment, on track "_". *)
Definition tracks_of (tl : list Segment) (labs : list Label) : Annotation :=
  map (fun sl => (fst sl, LStr "_", snd sl)) (combine tl labs).

(** *** Arrays *)

(** [i] is the first position of a least element of [l]. *)
Definition first_argmin (l : list Q) (i : nat) : Prop :=
  (i < length l)%nat
  /\ (forall j, (j < length l)%nat -> nth i l 0 <= nth j l 0)
  /\ (forall j, (j < i)%nat -> nth i l 0 < nth j l 0).

(** The entry [y[i, k]] of an array; 0 outside of it. *)
Definition entry (y : Np.Matrix Z) (i k : nat) : Z := nth k (nth i y []) 0%Z.

(** An array of [n] rows and [c] columns. *)
Definition shape (n c : nat) (y : Np.Matrix Z) : Prop :=
  length y = n /\ Forall (fun row => length row = c) y.

(** An array of one column of zeros and ones. *)
Definition mask (m : Np.Matrix Z) : Prop :=
  Forall (fun row => row = [0%Z] \/ row = [1%Z]) m.

(** Lines 433-435: the array [y] that [Discrete.clustering] decodes
    first. *)
Definition cluster_y (n num_clusters : nat) (indices cluster : list nat)
  : Np.Matrix Z :=
  fold_left (fun y ik => Np.set1 y (fst ik) (snd ik))
            (combine indices cluster)
            (Np.zeros n num_clusters).

(** Every entry of a curve satisfies [P]. *)
Definition all_values (P : Q -> Prop) (c : Curve) : Prop :=
  Forall (Forall P) c.

Definition probability (v : Q) : Prop := 0 <= v /\ v <= 1.

Definition row_sum (row : list Q) : Q := fold_right Qplus 0 row.

(** *** Runs *)

Section Notions.
Context {C : Collaborators}.

(** The log-probability correction of lines 162-163. *)
Definition corrected (raw : Curve) : Curve :=
  if Qltb (Np.nanmean raw) 0 then map (map np_exp) raw else raw.

(** The events a computation adds to the trace all satisfy [P]. *)
Definition adds (P : Event -> Prop) (w w' : World) : Prop :=
  exists tr, trace w' = trace w ++ tr /\ Forall P tr.

Definition detector_event (ev : Event) : Prop := ev = EvSad \/ ev = EvScd.

Definition crop_event (ev : Event) : Prop := exists s, ev = EvCrop s.

(** The value of [get_embedding] as a function of the file. *)
Definition embedding (self : Simple.SimpleDiarization) (file : ProtocolFile)
  (segment : Segment) : Res Vec :=
  match Simple.emb_crop self file segment with
  | Ok e => Ok (np_mean e)
  | Raise RuntimeError =>
      res_bind
        (Simple.emb_crop self file (Simple.extended_segment file segment))
        (fun e => Ok (np_mean e))
  | Raise e => Raise e
  end.

(** Every run of [m] takes a world to one that [R] relates to it. *)
Definition respects {A} (R : World -> World -> Prop) (m : Exec A) : Prop :=
  forall w r w', m w = (r, w') -> R w w'.

End Notions.

(** *** Files *)

(** The second file has the uri and the duration of the first, and
    every curve of the first, unchanged. *)
Definition file_extends (f f' : ProtocolFile) : Prop :=
  f_uri f' = f_uri f
  /\ f_duration f' = f_duration f
  /\ forall k s, f_scores f k = Some s -> f_scores f' k = Some s.

(** The two files hold the same under every key that is not in [keys]. *)
Definition same_outside (keys : list string) (f f' : ProtocolFile) : Prop :=
  forall k, ~ In k keys -> f_scores f' k = f_scores f k.

Section FileNotions.
Context {C : Collaborators}.

(** The file is the same after as before. *)
Definition keeps_file (w w' : World) : Prop := current_file w' = current_file w.

(** The file after extends the file before and differs from it under
    the keys [keys] at most. *)
Definition caches (keys : list string) (w w' : World) : Prop :=
  file_extends (current_file w) (current_file w')
  /\ same_outside keys (current_file w) (current_file w').

End FileNotions.

(** The keys under which the segment-level pipeline stores curves, and
    those of the frame-level pipeline. *)
Definition simple_keys : list string := ["sad_scores"; "scd_scores"]%string.

Definition discrete_keys : list string := ["sad_scores"; "ovl_scores"]%string.


(* ------------------------------------------------------------------ *)
(** ** A small concrete setting *)
(* ------------------------------------------------------------------ *)

(** Stand-ins for the collaborators, simple enough to run the pipelines
    by computation: frames last one second, embeddings are plane
    vectors of norm 1, and clustering either keeps every vector apart
    (threshold below 1) or puts all of them together. *)
Module Fixture.

Definition Vec2 : Type := (Q * Q)%type.

(** The cosine distance between two vectors of norm 1. *)
Definition cosine1 (u v : Vec2) : Q := 1 - (fst u * fst v + snd u * snd v).

Definition mean2 (l : list Vec2) : Vec2 :=
  let n := inject_Z (Z.of_nat (length l)) in
  (fold_right Qplus 0 (map fst l) / n, fold_right Qplus 0 (map snd l) / n).

(** A rational function with the sign and the bound of the exponential:
    positive everywhere, at most 1 on negative numbers. *)
Definition exp_like (x : Q) : Q :=
  if Qle_bool x 0 then 1 / (1 - x) else 1 + x.

(** The frames whose score reaches [onset], one second each. *)
Fixpoint active_frames (t : Q) (onset : Q) (col : list Q) : list Segment :=
  match col with
  | [] => []
  | x :: r =>
      (if Qle_bool onset x then [mkSegment t (t + 1)] else [])
        ++ active_frames (t + 1) onset r
  end.

(** The stretches between the frames whose score reaches [alpha]. *)
Fixpoint stretches (from t : Q) (alpha : Q) (col : list Q) : list Segment :=
  match col with
  | [] => [mkSegment from t]
  | x :: r =>
      if Qle_bool alpha x
      then mkSegment from t :: stretches t (t + 1) alpha r
      else stretches from (t + 1) alpha r
  end.

Definition covers_center (a : Annotation) (i : nat) : bool :=
  let c := inject_Z (Z.of_nat i) + (1 # 2) in
  existsb (fun e => Qle_bool (start (fst (fst e))) c
                    && Qltb c (end_ (fst (fst e)))) a.

Definition encode (a : Annotation) (support_ : Timeline) (w : SlidingWindow)
  (labels : list Label) : Np.Matrix Z :=
  let n := match support_ with
           | [] => 0%nat
           | s :: _ => Z.to_nat (Qfloor (end_ s))
           end in
  map (fun i => [if covers_center a i then 1%Z else 0%Z]) (seq 0 n).

Definition decode (y : Np.Matrix Z) (w : SlidingWindow) (labels : list Label)
  : Annotation :=
  flat_map
    (fun ir =>
       flat_map
         (fun kx =>
            if Z.eqb (snd kx) 0 then []
            else [(mkSegment (inject_Z (Z.of_nat (fst ir)))
                             (inject_Z (Z.of_nat (fst ir)) + 1),
                   LInt (Z.of_nat (fst kx)),
                   nth (fst kx) labels (LStr "?"))])
         (combine (seq 0 (length (snd ir))) (snd ir)))
    (combine (seq 0 (length y)) y).

Fixpoint ones_to (n : nat) (p : positive) : list positive :=
  match n with
  | O => []
  | S k => p :: ones_to k (Pos.succ p)
  end.

#[local] Instance collaborators : Collaborators := {
  Vec := Vec2;
  Dendrogram := nat;
  np_exp := exp_like;
  np_mean := mean2;
  cosine := cosine1;
  pool := fun X => match X with
                   | [] => Raise ValueError
                   | _ => Ok (length X)
                   end;
  fcluster := fun n t => if Qltb t 1 then ones_to n 1%positive
                         else repeat 1%positive n;
  Binarize_apply := fun onset _ _ _ scores dimension =>
    active_frames 0 onset (Np.column dimension scores);
  Peak_apply := fun alpha _ scores dimension =>
    stretches 0 0 alpha (Np.column dimension scores);
  one_hot_encoding := encode;
  one_hot_decoding := decode
}.

(** A recording of ten seconds with nothing cached. *)
Definition recording : ProtocolFile :=
  mkFile (Some "rec"%string) 10 (fun _ => None).

Definition fresh : World := mkWorld recording [].

(** An embedding model that needs 157 ms of signal. *)
Definition crop157 (f : ProtocolFile) (s : Segment) : Res (list Vec2) :=
  if Qltb (duration s) 0.157 then Raise RuntimeError
  else Ok [(1, 0)].

Definition curve (col : list Q) : Curve := map (fun x => [x]) col.

(** An embedding model that tells three speakers by the start time. *)
Definition crop_by_start (f : ProtocolFile) (s : Segment) : Res (list Vec2) :=
  if Qltb (start s) 3 then Ok [(1, 0)]
  else if Qltb (start s) 6 then Ok [(3 # 5, 4 # 5)]
  else Ok [(0, 1)].

(** An embedding model that only takes segments of 157 ms, and tells
    the speakers by the start time. *)
Definition crop_exact (f : ProtocolFile) (s : Segment) : Res (list Vec2) :=
  if Qeq_bool (end_ s - start s) 0.157 then crop_by_start f s
  else Raise RuntimeError.

(** An embedding model that is out of order. *)
Definition crop_fails (f : ProtocolFile) (s : Segment) : Res (list Vec2) :=
  Raise RuntimeError.

(** A segment-level pipeline whose detectors give the curves [sad_col]
    and [scd_col], thresholded at one half. *)
Definition simple (sad_col scd_col : list Q) (emb_duration : Q)
  (emb_crop : ProtocolFile -> Segment -> Res (list Vec2))
  : Simple.SimpleDiarization := {|
  Simple.sad := fun _ => Ok (curve sad_col);
  Simple.sad_speech_index_ := 0;
  Simple.scd := fun _ => Ok (curve scd_col);
  Simple.scd_change_index_ := 0;
  Simple.emb_crop := emb_crop;
  Simple.sad_threshold_on := 1 # 2;
  Simple.sad_threshold_off := 1 # 2;
  Simple.scd_threshold := 1 # 2;
  Simple.seg_min_duration := 1 # 20;
  Simple.gap_min_duration := 0;
  Simple.emb_duration := emb_duration;
  Simple.emb_threshold := 1 # 2
|}.

Definition no_change : list Q := repeat 0 10.

(** A detector that is out of order. *)
Definition detector_fails (f : ProtocolFile) : Res Curve := Raise ValueError.

(** The pipeline [p] with other detectors. *)
Definition with_detectors (sad scd : ProtocolFile -> Res Curve)
  (p : Simple.SimpleDiarization) : Simple.SimpleDiarization := {|
  Simple.sad := sad;
  Simple.sad_speech_index_ := Simple.sad_speech_index_ p;
  Simple.scd := scd;
  Simple.scd_change_index_ := Simple.scd_change_index_ p;
  Simple.emb_crop := Simple.emb_crop p;
  Simple.sad_threshold_on := Simple.sad_threshold_on p;
  Simple.sad_threshold_off := Simple.sad_threshold_off p;
  Simple.scd_threshold := Simple.scd_threshold p;
  Simple.seg_min_duration := Simple.seg_min_duration p;
  Simple.gap_min_duration := Simple.gap_min_duration p;
  Simple.emb_duration := Simple.emb_duration p;
  Simple.emb_threshold := Simple.emb_threshold p
|}.

(** A frame-level pipeline: ten frames with the embeddings [data], the
    speech and overlap detectors give the curves [sad_col] and
    [ovl_col], thresholded at one half. *)
Definition discrete (sad_col : list Q) (ovl_col : option (list Q))
  (data : list Vec2) (emb_threshold : Q) : Discrete.DiscreteDiarization := {|
  Discrete.sad := fun _ => Ok (curve sad_col);
  Discrete.sad_speech_index_ := 0;
  Discrete.emb := fun _ => Ok (data, mkWindow 0 1 1);
  Discrete.ovl := option_map (fun col _ => Ok (curve col)) ovl_col;
  Discrete.ovl_overlap_index_ := 0;
  Discrete.sad_threshold_on := 1 # 2;
  Discrete.sad_threshold_off := 1 # 2;
  Discrete.sad_min_duration_on := 0;
  Discrete.sad_min_duration_off := 0;
  Discrete.emb_threshold := emb_threshold;
  Discrete.ovl_threshold_on := 1 # 2;
  Discrete.ovl_threshold_off := 1 # 2;
  Discrete.ovl_min_duration_on := 0;
  Discrete.ovl_min_duration_off := 0
|}.

(** An embedding model that is out of order, and the pipeline [p] with
    another embedding model. *)
Definition emb_fails (f : ProtocolFile) : Res (list Vec2 * SlidingWindow) :=
  Raise RuntimeError.

Definition with_emb (emb : ProtocolFile -> Res (list Vec2 * SlidingWindow))
  (p : Discrete.DiscreteDiarization) : Discrete.DiscreteDiarization := {|
  Discrete.sad := Discrete.sad p;
  Discrete.sad_speech_index_ := Discrete.sad_speech_index_ p;
  Discrete.emb := emb;
  Discrete.ovl := Discrete.ovl p;
  Discrete.ovl_overlap_index_ := Discrete.ovl_overlap_index_ p;
  Discrete.sad_threshold_on := Discrete.sad_threshold_on p;
  Discrete.sad_threshold_off := Discrete.sad_threshold_off p;
  Discrete.sad_min_duration_on := Discrete.sad_min_duration_on p;
  Discrete.sad_min_duration_off := Discrete.sad_min_duration_off p;
  Discrete.emb_threshold := Discrete.emb_threshold p;
  Discrete.ovl_threshold_on := Discrete.ovl_threshold_on p;
  Discrete.ovl_threshold_off := Discrete.ovl_threshold_off p;
  Discrete.ovl_min_duration_on := Discrete.ovl_min_duration_on p;
  Discrete.ovl_min_duration_off := Discrete.ovl_min_duration_off p
|}.

(** No overlap at all. *)
Definition no_overlap : Discrete.Overlap := Discrete.mkOverlap [] [] [] [].

(** No frame at all. *)
Definition no_frames : Discrete.Frames :=
  Discrete.mkFrames (mkSegment 0 0) [] (mkWindow 0 0 0) [] [] [].

(** Ten embeddings: three speakers, in turn. *)
Definition three_speakers : list Vec2 :=
  [(1, 0); (3 # 5, 4 # 5); (0, 1); (1, 0); (3 # 5, 4 # 5);
   (0, 1); (1, 0); (3 # 5, 4 # 5); (0, 1); (1, 0)].

(** Log-probabilities of two frames, and a world where they were put in
    the file before the pipeline runs. *)
Definition log_scores : Curve := [[-1]; [-2]].

Definition precomputed : World :=
  mkWorld (store "sad_scores" log_scores recording) [].

End Fixture.

(* ================================================================== *)
(** * Part II. Properties *)
(* ================================================================== *)

(** ** Boolean comparisons *)

Lemma Qltb_iff (x y : Q) : Qltb x y = true <-> x < y.
Proof.
  unfold Qltb. rewrite negb_true_iff. split; intro H.
  - apply Qnot_le_lt. intro L. apply Qle_bool_iff in L. congruence.
  - destruct (Qle_bool y x) eqn:E; [|reflexivity].
    apply Qle_bool_iff in E. exfalso. exact (Qlt_not_le _ _ H E).
Qed.

Lemma Qltb_spec (x y : Q) : BoolSpec (x < y) (y <= x) (Qltb x y).
Proof.
  destruct (Qltb x y) eqn:E; constructor.
  - now apply Qltb_iff.
  - apply Qnot_lt_le. intro L. apply Qltb_iff in L. congruence.
Qed.

Lemma Qle_bool_spec (x y : Q) : BoolSpec (x <= y) (y < x) (Qle_bool x y).
Proof.
  destruct (Qle_bool x y) eqn:E; constructor.
  - now apply Qle_bool_iff.
  - apply Qnot_le_lt. intro L. apply Qle_bool_iff in L. congruence.
Qed.

Lemma Qmin_case_le (x y : Q) :
  (x <= y /\ Qmin x y == x) \/ (y <= x /\ Qmin x y == y).
Proof.
  destruct (Qlt_le_dec y x) as [L|L].
  - right. split; [lra|]. apply Q.min_r. lra.
  - left. split; [lra|]. now apply Q.min_l.
Qed.

Lemma Qmax_case_le (x y : Q) :
  (x <= y /\ Qmax x y == y) \/ (y <= x /\ Qmax x y == x).
Proof.
  destruct (Qlt_le_dec y x) as [L|L].
  - right. split; [lra|]. apply Q.max_l. lra.
  - left. split; [lra|]. now apply Q.max_r.
Qed.

(* ------------------------------------------------------------------ *)
(** ** get_embedding: the extended segment and the single retry *)
(* ------------------------------------------------------------------ *)

Section GetEmbedding.
Context {C : Collaborators}.
Variable self : Simple.SimpleDiarization.

Lemma extended_segment_low (file : ProtocolFile) (segment : Segment) :
  middle segment - 0.0785 < 0 ->
  Simple.extended_segment file segment = mkSegment 0 0.157.
Proof.
  intro H. unfold Simple.extended_segment, Simple.MIN_DURATION.
  destruct (Qltb_spec (middle segment - (1 # 2) * (157 # 1000)) 0) as [L|L].
  - reflexivity.
  - exfalso. lra.
Qed.

Lemma extended_segment_high (file : ProtocolFile) (segment : Segment) :
  ~ middle segment - 0.0785 < 0 ->
  f_duration file < middle segment + 0.0785 ->
  Simple.extended_segment file segment
  = mkSegment (f_duration file - 0.157) (f_duration file).
Proof.
  intros H1 H2. unfold Simple.extended_segment, Simple.MIN_DURATION.
  destruct (Qltb_spec (middle segment - (1 # 2) * (157 # 1000)) 0) as [L|L].
  - exfalso. apply H1. lra.
  - destruct (Qltb_spec (f_duration file)
                (middle segment + (1 # 2) * (157 # 1000))) as [L'|L'].
    + reflexivity.
    + exfalso. lra.
Qed.

Lemma extended_segment_centered (file : ProtocolFile) (segment : Segment) :
  ~ middle segment - 0.0785 < 0 ->
  ~ f_duration file < middle segment + 0.0785 ->
  seg_eq (Simple.extended_segment file segment)
         (mkSegment (middle segment - 0.0785) (middle segment + 0.0785)).
Proof.
  intros H1 H2. unfold Simple.extended_segment, Simple.MIN_DURATION.
  destruct (Qltb_spec (middle segment - (1 # 2) * (157 # 1000)) 0) as [L|L].
  - exfalso. apply H1. lra.
  - destruct (Qltb_spec (f_duration file)
                (middle segment + (1 # 2) * (157 # 1000))) as [L'|L'].
    + exfalso. apply H2. lra.
    + split; simpl; lra.
Qed.

(** The extended segment lasts 157 ms, and contains a segment of the
    recording that lasts no more. *)
Lemma extended_segment_span (file : ProtocolFile) (segment : Segment) :
  let ext := Simple.extended_segment file segment in
  end_ ext - start ext == 0.157
  /\ (0 <= start segment -> end_ segment <= f_duration file ->
      end_ segment - start segment <= 0.157 ->
      start ext <= start segment /\ end_ segment <= end_ ext).
Proof.
  intro ext. unfold ext, Simple.extended_segment, Simple.MIN_DURATION.
  destruct (Qltb_spec (middle segment - (1 # 2) * (157 # 1000)) 0) as [L|L];
    [|destruct (Qltb_spec (f_duration file)
                 (middle segment + (1 # 2) * (157 # 1000))) as [L'|L']];
    cbn [start end_]; unfold middle in *;
    (split; [lra | intros; split; lra]).
Qed.

(** What one run of [get_embedding] does, by the outcome of the first
    call to [emb.crop]. *)
Lemma get_embedding_run (segment : Segment) (w : World) :
  let file := current_file w in
  let ext := Simple.extended_segment file segment in
  Simple.get_embedding self segment w =
  match Simple.emb_crop self file segment with
  | Ok e => (Ok (np_mean e), mkWorld file (trace w ++ [EvCrop segment]))
  | Raise RuntimeError =>
      (res_bind (Simple.emb_crop self file ext) (fun e => Ok (np_mean e)),
       mkWorld file (trace w ++ [EvCrop segment; EvCrop ext]))
  | Raise e => (Raise e, mkWorld file (trace w ++ [EvCrop segment]))
  end.
Proof.
  intros file ext.
  unfold Simple.get_embedding, bind, try_except_RuntimeError,
    Simple.crop_call, call, get_file, ret. simpl.
  fold file. destruct (Simple.emb_crop self file segment) as [e|[]]; try reflexivity.
  fold ext. rewrite <- app_assoc. simpl.
  destruct (Simple.emb_crop self file ext); reflexivity.
Qed.

End GetEmbedding.

(** The example of the specification, with the rounding of binary64:
    the extended segment is the pair of doubles nearest to 4.9215 and
    5.0785. *)
Lemma extended_segment_binary64 :
  Binary64.extended_segment 10%float Binary64.example_segment
  = Binary64.example_extended.
Proof. vm_compute. reflexivity. Qed.

(* ------------------------------------------------------------------ *)
(** ** Segments and timelines *)
(* ------------------------------------------------------------------ *)

Lemma Segment_bool_iff (s : Segment) :
  Segment_bool s = true <-> start s < end_ s.
Proof.
  unfold Segment_bool. rewrite Qltb_iff. split; intro; lra.
Qed.

Lemma duration_pos_nonempty (s : Segment) :
  0 < duration s -> Segment_bool s = true.
Proof.
  unfold duration. destruct (Segment_bool s); [reflexivity|]. intro H. lra.
Qed.

Lemma duration_nonneg (s : Segment) : 0 <= duration s.
Proof.
  unfold duration. destruct (Segment_bool s) eqn:E; [|lra].
  apply Segment_bool_iff in E. lra.
Qed.

Lemma seg_eqb_iff (s t : Segment) : seg_eqb s t = true <-> seg_eq s t.
Proof.
  unfold seg_eqb, seg_eq. rewrite andb_true_iff, !Qeq_bool_iff. tauto.
Qed.

Lemma seg_ltb_iff (s t : Segment) : seg_ltb s t = true <-> seg_lt s t.
Proof.
  unfold seg_ltb, seg_lt.
  rewrite orb_true_iff, andb_true_iff, !Qltb_iff, Qeq_bool_iff. tauto.
Qed.

Lemma seg_eq_refl (s : Segment) : seg_eq s s.
Proof. split; reflexivity. Qed.

Lemma seg_eq_sym (s t : Segment) : seg_eq s t -> seg_eq t s.
Proof. intros [H1 H2]. split; symmetry; assumption. Qed.

Lemma seg_eq_trans (s t u : Segment) : seg_eq s t -> seg_eq t u -> seg_eq s u.
Proof. intros [H1 H2] [H3 H4]. split; etransitivity; eassumption. Qed.

#[local] Instance seg_eq_equiv : Equivalence seg_eq.
Proof.
  split; [exact seg_eq_refl | exact seg_eq_sym | exact seg_eq_trans].
Qed.

Lemma seg_lt_trans (s t u : Segment) : seg_lt s t -> seg_lt t u -> seg_lt s u.
Proof. unfold seg_lt. intros [H|[H H']] [K|[K K']]; lra. Qed.

Lemma seg_lt_not_eq (s t : Segment) : seg_lt s t -> ~ seg_eq s t.
Proof. unfold seg_lt, seg_eq. intros [H|[H H']] [K K']; lra. Qed.

Lemma seg_total (s t : Segment) :
  seg_eqb s t = false -> seg_ltb s t = false -> seg_lt t s.
Proof.
  intros E L.
  assert (NE : ~ seg_eq s t) by (rewrite <- seg_eqb_iff; congruence).
  assert (NL : ~ seg_lt s t) by (rewrite <- seg_ltb_iff; congruence).
  unfold seg_eq, seg_lt in *.
  destruct (Q_dec (start s) (start t)) as [[H|H]|H].
  - exfalso. apply NL. now left.
  - now left.
  - right. split; [lra|].
    destruct (Q_dec (end_ s) (end_ t)) as [[K|K]|K].
    + exfalso. apply NL. right. tauto.
    + exact K.
    + exfalso. apply NE. tauto.
Qed.

Lemma In_insert_seg (x s : Segment) (tl : Timeline) :
  In x (insert_seg s tl) -> x = s \/ In x tl.
Proof.
  induction tl as [|t r IH]; simpl.
  - intros [H|[]]. now left.
  - destruct (seg_eqb s t); [now right|].
    destruct (seg_ltb s t); simpl.
    + intros [H|H]; [now left | now right].
    + intros [H|H]; [right; now left|].
      destruct (IH H); [now left | right; now right].
Qed.

Lemma In_insert_seg_old (x s : Segment) (tl : Timeline) :
  In x tl -> In x (insert_seg s tl).
Proof.
  induction tl as [|t r IH]; simpl; [tauto|].
  intro H. destruct (seg_eqb s t); [exact H|].
  destruct (seg_ltb s t); simpl; [now right|].
  destruct H; [now left | right; auto].
Qed.

Lemma InA_insert_seg_new (s : Segment) (tl : Timeline) :
  InA seg_eq s (insert_seg s tl).
Proof.
  induction tl as [|t r IH]; simpl.
  - left. reflexivity.
  - destruct (seg_eqb s t) eqn:E.
    + left. now apply seg_eqb_iff.
    + destruct (seg_ltb s t); [left; reflexivity | right; exact IH].
Qed.

Lemma insert_seg_sorted (s : Segment) (tl : Timeline) :
  StronglySorted seg_lt tl -> StronglySorted seg_lt (insert_seg s tl).
Proof.
  induction 1 as [|t r SS IH FA]; simpl.
  - repeat constructor.
  - destruct (seg_eqb s t) eqn:E; [now constructor|].
    destruct (seg_ltb s t) eqn:L.
    + apply seg_ltb_iff in L. constructor; [now constructor|].
      constructor; [exact L|].
      rewrite Forall_forall in *. intros x Hx.
      eapply seg_lt_trans; [exact L | auto].
    + constructor; [exact IH|].
      rewrite Forall_forall in *. intros x Hx.
      destruct (In_insert_seg _ _ _ Hx) as [->|Hx']; [|auto].
      now apply seg_total.
Qed.

Lemma insert_seg_head (s : Segment) (tl : Timeline) :
  Forall (seg_lt s) tl -> insert_seg s tl = s :: tl.
Proof.
  destruct tl as [|t r]; [reflexivity|]. intro F. simpl.
  assert (L : seg_lt s t) by (inversion F; assumption).
  destruct (seg_eqb s t) eqn:E.
  - apply seg_eqb_iff in E. exfalso. exact (seg_lt_not_eq _ _ L E).
  - apply seg_ltb_iff in L. now rewrite L.
Qed.

Lemma Timeline_mk_sorted (l : list Segment) :
  StronglySorted seg_lt (Timeline_mk l).
Proof.
  unfold Timeline_mk. induction (filter Segment_bool l) as [|x r IH]; simpl.
  - constructor.
  - now apply insert_seg_sorted.
Qed.

Lemma Timeline_mk_In (x : Segment) (l : list Segment) :
  In x (Timeline_mk l) -> In x l /\ Segment_bool x = true.
Proof.
  unfold Timeline_mk. intro H.
  assert (K : In x (filter Segment_bool l)).
  { induction (filter Segment_bool l) as [|y r IH]; simpl in *; [tauto|].
    destruct (In_insert_seg _ _ _ H); [now left | right; auto]. }
  now apply filter_In in K.
Qed.

Lemma Timeline_mk_InA (x : Segment) (l : list Segment) :
  In x l -> Segment_bool x = true -> InA seg_eq x (Timeline_mk l).
Proof.
  unfold Timeline_mk. intros H B.
  assert (K : In x (filter Segment_bool l)) by (apply filter_In; tauto).
  clear H. induction (filter Segment_bool l) as [|y r IH]; simpl in *; [tauto|].
  destruct K as [->|K].
  - apply InA_insert_seg_new.
  - specialize (IH K). apply InA_alt in IH. destruct IH as [z [Ez Hz]].
    apply InA_alt. exists z. split; [exact Ez|]. now apply In_insert_seg_old.
Qed.

Lemma Timeline_mk_id (l : list Segment) :
  StronglySorted seg_lt l -> Forall (fun s => Segment_bool s = true) l ->
  Timeline_mk l = l.
Proof.
  unfold Timeline_mk. induction 1 as [|x r SS IH FA]; intro NE; [reflexivity|].
  inversion NE as [|? ? Hx Hr]; subst. simpl. rewrite Hx. simpl.
  rewrite (IH Hr). now apply insert_seg_head.
Qed.

Lemma Timeline_mk_nonempty (l : list Segment) :
  Forall (fun s => Segment_bool s = true) (Timeline_mk l).
Proof.
  apply Forall_forall. intros x H. now apply Timeline_mk_In in H.
Qed.

Lemma filter_sorted (f : Segment -> bool) (l : list Segment) :
  StronglySorted seg_lt l -> StronglySorted seg_lt (filter f l).
Proof.
  induction 1 as [|x r SS IH FA]; simpl; [constructor|].
  destruct (f x); [|exact IH]. constructor; [exact IH|].
  rewrite Forall_forall in *. intros y Hy. apply filter_In in Hy. now apply FA.
Qed.

Lemma sorted_NoDupA (l : list Segment) :
  StronglySorted seg_lt l -> NoDupA seg_eq l.
Proof.
  induction 1 as [|x r SS IH FA]; constructor; [|exact IH].
  intro H. apply InA_alt in H. destruct H as [y [E Hy]].
  rewrite Forall_forall in FA. exact (seg_lt_not_eq _ _ (FA y Hy) E).
Qed.

(* ------------------------------------------------------------------ *)
(** ** Label generators and to_annotation *)
(* ------------------------------------------------------------------ *)


Lemma next_letters_ok (l : list nat) : letters_ok l -> letters_ok (next_letters l).
Proof.
  unfold letters_ok. induction 1 as [|d r Hd Hr IH]; simpl.
  - repeat constructor; lia.
  - destruct (Nat.eqb_spec d 25).
    + constructor; [lia | exact IH].
    + constructor; [lia | exact Hr].
Qed.

Lemma next_letters_rank (l : list nat) : rank (next_letters l) = S (rank l).
Proof.
  induction l as [|d r IH]; simpl; [reflexivity|].
  destruct (Nat.eqb_spec d 25); simpl; [rewrite IH|]; lia.
Qed.

Lemma nth_letters_ok (n : nat) : letters_ok (nth_letters n).
Proof.
  induction n; simpl.
  - repeat constructor; lia.
  - now apply next_letters_ok.
Qed.

Lemma nth_letters_rank (n : nat) : rank (nth_letters n) = S n.
Proof.
  induction n; simpl; [reflexivity|]. now rewrite next_letters_rank, IHn.
Qed.

Lemma letter_inj (d e : nat) :
  (d <= 25)%nat -> (e <= 25)%nat -> letter d = letter e -> d = e.
Proof.
  unfold letter. intros Hd He H.
  apply (f_equal nat_of_ascii) in H.
  rewrite !nat_ascii_embedding in H by lia. lia.
Qed.

Lemma map_letter_inj (l m : list nat) :
  letters_ok l -> letters_ok m -> map letter l = map letter m -> l = m.
Proof.
  unfold letters_ok. intro Hl. revert m.
  induction Hl as [|d r Hd Hr IH]; intros m Hm H; destruct m as [|e m'];
    simpl in H; try discriminate; [reflexivity|].
  inversion Hm; subst. inversion H.
  f_equal; [now apply letter_inj | now apply IH].
Qed.

Lemma string_of_letters_inj (l m : list nat) :
  letters_ok l -> letters_ok m ->
  string_of_letters l = string_of_letters m -> l = m.
Proof.
  unfold string_of_letters. intros Hl Hm H.
  apply (f_equal list_ascii_of_string) in H.
  rewrite !list_ascii_of_string_of_list_ascii in H.
  apply map_letter_inj in H.
  - apply (f_equal (@rev nat)) in H. now rewrite !rev_involutive in H.
  - unfold letters_ok. apply Forall_rev. exact Hl.
  - unfold letters_ok. apply Forall_rev. exact Hm.
Qed.

(** The string generator never gives the same label twice. *)
Lemma string_generator_inj (n m : nat) :
  string_generator n = string_generator m -> n = m.
Proof.
  unfold string_generator. intro H. inversion H as [H'].
  apply string_of_letters_inj in H'; try apply nth_letters_ok.
  apply (f_equal rank) in H'. rewrite !nth_letters_rank in H'. lia.
Qed.


Lemma Annotation_set_fresh (a : Annotation) (s : Segment) (trk lab : Label) :
  Segment_bool s = true ->
  (forall e, In e a -> ~ seg_eq s (fst (fst e))) ->
  Annotation_set a s trk lab = a ++ [(s, trk, lab)].
Proof.
  intros B F. unfold Annotation_set. rewrite B. simpl. f_equal.
  induction a as [|e r IH]; simpl; [reflexivity|].
  assert (K : key_eqb s trk e = false).
  { unfold key_eqb. destruct (seg_eqb s (fst (fst e))) eqn:E; [|reflexivity].
    apply seg_eqb_iff in E. exfalso. apply (F e); [now left | exact E]. }
  rewrite K. simpl. f_equal. apply IH. intros e' He'. apply F. now right.
Qed.

Lemma to_annotation_from_ok (g : Generator) (tl : list Segment) :
  forall (n : nat) (acc : Annotation) (labs : list Label),
    NoDupA seg_eq tl ->
    Forall (fun s => Segment_bool s = true) tl ->
    (forall e, In e acc -> ~ InA seg_eq (fst (fst e)) tl) ->
    map g (seq n (length tl)) = map Some labs ->
    to_annotation_from n tl g acc = Ok (acc ++ tracks_of tl labs).
Proof.
  induction tl as [|s r IH]; intros n acc labs ND NE F G; simpl in *.
  - destruct labs; [|discriminate]. unfold tracks_of. simpl.
    now rewrite app_nil_r.
  - destruct labs as [|l0 labs']; [discriminate|]. simpl in G.
    inversion G as [[G0 G1]]. rewrite G0.
    inversion ND as [|? ? NI ND']; subst. inversion NE as [|? ? B NE']; subst.
    rewrite Annotation_set_fresh.
    + rewrite (IH (S n) _ labs' ND' NE'); [| |exact G1].
      * unfold tracks_of. simpl. now rewrite <- app_assoc.
      * intros e He. apply in_app_or in He. destruct He as [He|[<-|[]]].
        -- intro K. apply (F e He). now right.
        -- exact NI.
    + exact B.
    + intros e He K. apply (F e He). left. now apply seg_eq_sym.
Qed.

Lemma to_annotation_from_labels (g : Generator) (tl : list Segment) :
  forall (n : nat) (acc a : Annotation),
    to_annotation_from n tl g acc = Ok a ->
    exists labs, map g (seq n (length tl)) = map Some labs.
Proof.
  induction tl as [|s r IH]; intros n acc a H; simpl in *.
  - now exists [].
  - destruct (g n) as [l0|] eqn:G; [|discriminate].
    destruct (IH _ _ _ H) as [labs E]. exists (l0 :: labs). simpl. now rewrite E.
Qed.

(** On a timeline, [to_annotation] gives the i-th segment the i-th
    output of the generator, and nothing else. *)
Lemma to_annotation_timeline (g : Generator) (l : list Segment)
  (labs : list Label) :
  map g (seq 0 (length (Timeline_mk l))) = map Some labs ->
  to_annotation (Timeline_mk l) g = Ok (tracks_of (Timeline_mk l) labs).
Proof.
  intro G. unfold to_annotation.
  rewrite (to_annotation_from_ok g _ 0 [] labs); [reflexivity| | | |exact G].
  - apply sorted_NoDupA, Timeline_mk_sorted.
  - apply Timeline_mk_nonempty.
  - intros e [].
Qed.

Lemma In_tracks_of (tl : list Segment) (labs : list Label)
  (e : Segment * Label * Label) :
  In e (tracks_of tl labs) <->
  exists i s l, nth_error tl i = Some s /\ nth_error labs i = Some l
                /\ e = (s, LStr "_", l).
Proof.
  unfold tracks_of. revert labs. induction tl as [|s r IH]; intro labs.
  - simpl. split; [tauto|]. intros [i [s [l [H _]]]]. destruct i; discriminate.
  - destruct labs as [|l0 labs'].
    + simpl. split; [tauto|]. intros [i [s' [l [_ [H _]]]]].
      destruct i; discriminate.
    + simpl. rewrite IH. split.
      * intros [<-|[i [s' [l [H1 [H2 H3]]]]]].
        -- now exists 0%nat, s, l0.
        -- now exists (S i), s', l.
      * intros [[|i] [s' [l [H1 [H2 H3]]]]]; simpl in *.
        -- left. congruence.
        -- right. now exists i, s', l.
Qed.

(* ------------------------------------------------------------------ *)
(** ** The score cache *)
(* ------------------------------------------------------------------ *)

Section ScoreCache.
Context {C : Collaborators}.


Lemma cached_scores_run (key : string) (ev : Event)
  (model : ProtocolFile -> Res Curve) (w : World) :
  cached_scores key ev model w =
  match f_scores (current_file w) key with
  | Some scores => (Ok scores, w)
  | None =>
      match model (current_file w) with
      | Ok raw =>
          (Ok (corrected raw),
           mkWorld (store key (corrected raw) (current_file w))
                   (trace w ++ [ev]))
      | Raise e => (Raise e, mkWorld (current_file w) (trace w ++ [ev]))
      end
  end.
Proof.
  unfold cached_scores, bind, get_file, call, modify_file, ret, corrected.
  simpl. destruct (f_scores (current_file w) key); [reflexivity|].
  destruct (model (current_file w)); reflexivity.
Qed.


Lemma adds_refl (P : Event -> Prop) (w : World) : adds P w w.
Proof. exists []. split; [now rewrite app_nil_r | constructor]. Qed.

Lemma adds_trans (P : Event -> Prop) (w1 w2 w3 : World) :
  adds P w1 w2 -> adds P w2 w3 -> adds P w1 w3.
Proof.
  intros [t1 [E1 F1]] [t2 [E2 F2]]. exists (t1 ++ t2). split.
  - now rewrite E2, E1, app_assoc.
  - apply Forall_app. tauto.
Qed.

Lemma adds_weaken (P Q : Event -> Prop) (w w' : World) :
  (forall ev, P ev -> Q ev) -> adds P w w' -> adds Q w w'.
Proof.
  intros H [tr [E F]]. exists tr. split; [exact E|].
  eapply Forall_impl; [exact H | exact F].
Qed.

Lemma cached_scores_adds (key : string) (ev : Event)
  (model : ProtocolFile -> Res Curve) (w w' : World) (r : Res Curve) :
  cached_scores key ev model w = (r, w') -> adds (eq ev) w w'.
Proof.
  rewrite cached_scores_run. intro H.
  destruct (f_scores (current_file w) key).
  - inversion H; subst. apply adds_refl.
  - destruct (model (current_file w)); inversion H; subst;
      (exists [ev]; split; [reflexivity | repeat constructor]).
Qed.

End ScoreCache.

(* ------------------------------------------------------------------ *)
(** ** The candidate segments *)
(* ------------------------------------------------------------------ *)

Section Candidates.
Context {C : Collaborators}.
Variable self : Simple.SimpleDiarization.


Lemma Timeline_mk_is_timeline (l : list Segment) : is_timeline (Timeline_mk l).
Proof. split; [apply Timeline_mk_sorted | apply Timeline_mk_nonempty]. Qed.

Lemma filter_is_timeline (f : Segment -> bool) (l : list Segment) :
  is_timeline l -> is_timeline (filter f l).
Proof.
  intros [S N]. split; [now apply filter_sorted|].
  rewrite Forall_forall in *. intros x Hx. apply filter_In in Hx. now apply N.
Qed.

Lemma speech_turns_run (w w1 : World) (r : Res Timeline) :
  Simple.speech_turns self w = (r, w1) ->
  adds detector_event w w1 /\ forall tl, r = Ok tl -> is_timeline tl.
Proof.
  unfold Simple.speech_turns, bind. intro H.
  destruct (cached_scores "sad_scores" EvSad (Simple.sad self) w)
    as [[s1|e1] wa] eqn:E1.
  - destruct (cached_scores "scd_scores" EvScd (Simple.scd self) wa)
      as [[s2|e2] wb] eqn:E2.
    + unfold ret in H. inversion H; subst. split.
      * apply adds_trans with wa.
        -- eapply adds_weaken; [|eapply cached_scores_adds; exact E1].
           intros ev <-. now left.
        -- eapply adds_weaken; [|eapply cached_scores_adds; exact E2].
           intros ev <-. now right.
      * intros tl K. inversion K. apply Timeline_mk_is_timeline.
    + inversion H; subst. split; [|discriminate].
      apply adds_trans with wa.
      * eapply adds_weaken; [|eapply cached_scores_adds; exact E1].
        intros ev <-. now left.
      * eapply adds_weaken; [|eapply cached_scores_adds; exact E2].
        intros ev <-. now right.
  - inversion H; subst. split; [|discriminate].
    eapply adds_weaken; [|eapply cached_scores_adds; exact E1].
    intros ev <-. now left.
Qed.

Lemma candidates_run (w w1 : World) (r : Res (list Segment)) :
  Simple.candidates self w = (r, w1) ->
  adds detector_event w w1 /\ forall seg, r = Ok seg -> is_timeline seg.
Proof.
  unfold Simple.candidates, bind. intro H.
  destruct (Simple.speech_turns self w) as [[tl|e] wa] eqn:E.
  - unfold ret in H. inversion H; subst.
    destruct (speech_turns_run _ _ _ E) as [A T]. split; [exact A|].
    intros seg K. inversion K. apply filter_is_timeline. now apply T.
  - inversion H; subst.
    destruct (speech_turns_run _ _ _ E) as [A T]. split; [exact A|discriminate].
Qed.

End Candidates.

(* ------------------------------------------------------------------ *)
(** ** Fewer than two long segments *)
(* ------------------------------------------------------------------ *)

Section Degenerate.
Context {C : Collaborators}.
Variable self : Simple.SimpleDiarization.


Lemma string_labels_NoDup (n : nat) : NoDup (string_labels n).
Proof.
  unfold string_labels. apply Injective_map_NoDup_in.
  - intros i j _ _ H. apply string_generator_inj.
    unfold string_generator. now rewrite H.
  - apply seq_NoDup.
Qed.

Lemma length_tracks_of (tl : list Segment) (labs : list Label) :
  length labs = length tl -> length (tracks_of tl labs) = length tl.
Proof.
  intro H. unfold tracks_of. rewrite length_map, length_combine. lia.
Qed.

Lemma to_annotation_candidates (seg : list Segment) (g : Generator)
  (labs : list Label) :
  is_timeline seg ->
  map g (seq 0 (length seg)) = map Some labs ->
  to_annotation (Timeline_mk seg) g = Ok (tracks_of seg labs).
Proof.
  intros [S N] G. rewrite <- (Timeline_mk_id seg S N) in G.
  rewrite (to_annotation_timeline g seg labs G).
  now rewrite (Timeline_mk_id seg S N).
Qed.

End Degenerate.

(* ------------------------------------------------------------------ *)
(** ** numpy: argmin, indexing *)
(* ------------------------------------------------------------------ *)


Lemma argmin_from_spec (l pre : list Q) :
  forall (bi : nat) (b : Q),
    (bi < length pre)%nat ->
    nth bi (pre ++ l) 0 = b ->
    (forall j, (j < length pre)%nat -> b <= nth j (pre ++ l) 0) ->
    (forall j, (j < bi)%nat -> b < nth j (pre ++ l) 0) ->
    first_argmin (pre ++ l) (Np.argmin_from bi b (length pre) l).
Proof.
  revert pre. induction l as [|x r IH]; intros pre bi b Hbi Hb Hmin Hfirst.
  - simpl. rewrite app_nil_r in *. subst b. repeat split; auto.
  - simpl.
    assert (E : pre ++ x :: r = (pre ++ [x]) ++ r) by now rewrite <- app_assoc.
    assert (L : length (pre ++ [x]) = S (length pre))
      by (rewrite length_app; simpl; lia).
    assert (X : nth (length pre) (pre ++ x :: r) 0 = x)
      by (rewrite app_nth2 by lia; now rewrite Nat.sub_diag).
    destruct (Qltb_spec x b) as [Lt|Ge].
    + rewrite E, <- L. apply IH.
      * lia.
      * now rewrite <- E.
      * rewrite <- E. intros j Hj. rewrite L in Hj.
        destruct (Nat.eq_dec j (length pre)) as [->|N].
        -- rewrite X. lra.
        -- specialize (Hmin j ltac:(lia)). lra.
      * rewrite <- E. intros j Hj. specialize (Hmin j ltac:(lia)). lra.
    + rewrite E, <- L. apply IH.
      * lia.
      * now rewrite <- E.
      * rewrite <- E. intros j Hj. rewrite L in Hj.
        destruct (Nat.eq_dec j (length pre)) as [->|N].
        -- now rewrite X.
        -- apply Hmin. lia.
      * rewrite <- E. exact Hfirst.
Qed.

Lemma argmin_spec (l : list Q) (i : nat) :
  Np.argmin l = Ok i -> first_argmin l i.
Proof.
  destruct l as [|x r]; simpl; [discriminate|]. intro H. inversion H.
  change (x :: r) with ([x] ++ r).
  apply (argmin_from_spec r [x] 0%nat x); simpl.
  - lia.
  - reflexivity.
  - intros j Hj. assert (j = 0%nat) as -> by lia. simpl. lra.
  - intros j Hj. lia.
Qed.

Lemma sequence_spec {A B} (f : A -> Res B) (l : list A) (ys : list B) :
  Np.sequence (map f l) = Ok ys -> Forall2 (fun x y => f x = Ok y) l ys.
Proof.
  revert ys. induction l as [|x r IH]; simpl; intros ys H.
  - inversion H. constructor.
  - destruct (f x) as [y|e] eqn:E; simpl in H; [|discriminate].
    destruct (Np.sequence (map f r)) as [ys'|e]; simpl in H; [|discriminate].
    inversion H. constructor; [exact E | now apply IH].
Qed.

Lemma take_spec {A} (a : list A) (indices : list nat) (xs : list A) :
  Np.take a indices = Ok xs ->
  Forall2 (fun i x => nth_error a i = Some x) indices xs.
Proof.
  revert xs. induction indices as [|i r IH]; simpl; intros xs H.
  - inversion H. constructor.
  - destruct (nth_error a i) as [x|] eqn:E; [|discriminate].
    destruct (Np.take a r) as [xs'|e]; simpl in H; [|discriminate].
    inversion H. constructor; [exact E | now apply IH].
Qed.

Lemma map_nth_error_seq {A X} (F : option A -> X) (B : list A) :
  map (fun j => F (nth_error B j)) (seq 0 (length B))
  = map (fun b => F (Some b)) B.
Proof.
  induction B as [|b r IH]; simpl; [reflexivity|]. f_equal.
  rewrite <- seq_shift, map_map. exact IH.
Qed.

Section Cdist.
Context {C : Collaborators}.

Lemma columns_cdist (XA XB : list Vec) :
  Np.columns (length XB) (cdist XA XB)
  = map (fun b => map (fun a => cosine a b) XA) XB.
Proof.
  unfold Np.columns, Np.column, cdist.
  set (F := fun o : option Vec =>
              match o with
              | Some b => map (fun a => cosine a b) XA
              | None => map (fun _ => 0) XA
              end).
  transitivity (map (fun b => F (Some b)) XB); [|reflexivity].
  rewrite <- (map_nth_error_seq F XB). apply map_ext. intro j.
  rewrite map_map. unfold F. destruct (nth_error XB j) as [b|] eqn:E.
  - apply map_ext. intro a.
    rewrite (nth_error_nth (map (fun b0 => cosine a b0) XB) j 0 (x := cosine a b));
      [reflexivity|].
    now rewrite nth_error_map, E.
  - apply map_ext. intro a. apply nth_overflow. rewrite length_map.
    now apply nth_error_None.
Qed.

(** [np.argmin(cdist(XA, XB), axis=0)]: for each vector of [XB], the
    first nearest vector of [XA]. *)
Lemma argmin_axis0_cdist (XA XB : list Vec) (nearest : list nat) :
  Np.argmin_axis0 (length XB) (cdist XA XB) = Ok nearest ->
  Forall2 (fun b i => first_argmin (map (fun a => cosine a b) XA) i)
          XB nearest.
Proof.
  unfold Np.argmin_axis0. rewrite columns_cdist, map_map. intro H.
  apply sequence_spec in H.
  eapply Forall2_impl; [|exact H]. intros b i. apply argmin_spec.
Qed.

End Cdist.

(* ------------------------------------------------------------------ *)
(** ** Embeddings of a list of segments *)
(* ------------------------------------------------------------------ *)

Section Embeddings.
Context {C : Collaborators}.
Variable self : Simple.SimpleDiarization.


Lemma get_embedding_result (segment : Segment) (w w' : World) (r : Res Vec) :
  Simple.get_embedding self segment w = (r, w') ->
  r = embedding self (current_file w) segment
  /\ current_file w' = current_file w
  /\ adds crop_event w w'.
Proof.
  rewrite get_embedding_run. unfold embedding.
  destruct (Simple.emb_crop self (current_file w) segment) as [e|[]];
    intro H; inversion H; subst; simpl; repeat split;
    try (eexists; split; [reflexivity|]; repeat constructor; eexists; reflexivity).
Qed.

Lemma for_each_get_embedding (l : list Segment) :
  forall (w w' : World) (r : Res (list Vec)),
    for_each (Simple.get_embedding self) l w = (r, w') ->
    current_file w' = current_file w
    /\ adds crop_event w w'
    /\ (forall es, r = Ok es ->
          Forall2 (fun s e => embedding self (current_file w) s = Ok e) l es)
    /\ (forall e, r = Raise e ->
          exists s, In s l /\ embedding self (current_file w) s = Raise e).
Proof.
  induction l as [|s rest IH]; intros w w' r H; simpl in H.
  - unfold ret in H. inversion H; subst. repeat split.
    + apply adds_refl.
    + intros es K. inversion K. constructor.
    + discriminate.
  - unfold bind in H.
    destruct (Simple.get_embedding self s w) as [[y|e] wa] eqn:E.
    + destruct (get_embedding_result _ _ _ _ E) as [Ry [Fa Aa]].
      destruct (for_each (Simple.get_embedding self) rest wa)
        as [[ys|e] wb] eqn:E'.
      * destruct (IH _ _ _ E') as [Fb [Ab [Ok_ _]]].
        unfold ret in H. inversion H; subst. repeat split.
        -- congruence.
        -- now apply adds_trans with wa.
        -- intros es K. inversion K. constructor; [now symmetry|].
           rewrite <- Fa. now apply Ok_.
        -- discriminate.
      * destruct (IH _ _ _ E') as [Fb [Ab [_ Er]]].
        inversion H; subst. repeat split.
        -- congruence.
        -- now apply adds_trans with wa.
        -- discriminate.
        -- intros e' K. inversion K; subst.
           destruct (Er e' eq_refl) as [s' [I R]]. exists s'. split.
           ++ now right.
           ++ now rewrite <- Fa.
    + destruct (get_embedding_result _ _ _ _ E) as [Ry [Fa Aa]].
      inversion H; subst. repeat split; try assumption.
      * discriminate.
      * intros e' K. inversion K; subst. exists s. split; [now left|].
        now symmetry.
Qed.

End Embeddings.

(* ------------------------------------------------------------------ *)
(** ** Merging two annotations *)
(* ------------------------------------------------------------------ *)

Lemma Annotation_update_fresh (b : Annotation) :
  forall a : Annotation,
    Forall (fun e => Segment_bool (fst (fst e)) = true) b ->
    NoDupA seg_eq (map (fun e => fst (fst e)) b) ->
    (forall e e', In e a -> In e' b -> ~ seg_eq (fst (fst e')) (fst (fst e))) ->
    Annotation_update a b = a ++ b.
Proof.
  unfold Annotation_update.
  induction b as [|e r IH]; intros a NE ND F; simpl.
  - now rewrite app_nil_r.
  - inversion NE as [|? ? B NE']; subst. inversion ND as [|? ? NI ND']; subst.
    rewrite Annotation_set_fresh.
    + destruct e as [[s trk] lab]. simpl.
      rewrite IH; [now rewrite <- app_assoc| exact NE' | exact ND' |].
      intros x x' Hx Hx'. apply in_app_or in Hx. destruct Hx as [Hx|[<-|[]]].
      * apply F; [exact Hx | now right].
      * simpl. intro K. apply NI. apply InA_alt.
        exists (fst (fst x')). split; [now apply seg_eq_sym|].
        apply (in_map (fun e => fst (fst e))). exact Hx'.
    + exact B.
    + intros x Hx. apply F; [exact Hx | now left].
Qed.

Lemma tracks_of_segments (tl : list Segment) (labs : list Label) :
  length labs = length tl ->
  map (fun e => fst (fst e)) (tracks_of tl labs) = tl.
Proof.
  unfold tracks_of. revert labs.
  induction tl as [|s r IH]; intros [|l labs] H; simpl in *;
    try discriminate; [reflexivity|].
  f_equal. apply IH. lia.
Qed.

Lemma In_tracks_of_segment (tl : list Segment) (labs : list Label)
  (e : Segment * Label * Label) :
  In e (tracks_of tl labs) -> In (fst (fst e)) tl.
Proof.
  intro H. apply In_tracks_of in H. destruct H as [i [s [l [H1 [_ ->]]]]].
  simpl. eapply nth_error_In. exact H1.
Qed.

(* ------------------------------------------------------------------ *)
(** ** Two long segments or more *)
(* ------------------------------------------------------------------ *)

Lemma Forall2_nth_error_left {A B} (R : A -> B -> Prop) (l1 : list A)
  (l2 : list B) :
  Forall2 R l1 l2 ->
  forall j x, nth_error l1 j = Some x ->
              exists y, nth_error l2 j = Some y /\ R x y.
Proof.
  induction 1 as [|a b r1 r2 Hab HF IH]; intros j x H.
  - destruct j; discriminate.
  - destruct j as [|j]; simpl in *.
    + inversion H; subst. now exists b.
    + now apply IH.
Qed.

Lemma NoDupA_nth_error (l : list Segment) :
  NoDupA seg_eq l ->
  forall i j x y, nth_error l i = Some x -> nth_error l j = Some y ->
                  seg_eq x y -> i = j.
Proof.
  induction 1 as [|a r NI ND IH]; intros i j x y Hi Hj E.
  - destruct i; discriminate.
  - destruct i as [|i], j as [|j]; simpl in *.
    + reflexivity.
    + inversion Hi; subst. exfalso. apply NI. apply InA_alt.
      exists y. split; [exact E | eapply nth_error_In; exact Hj].
    + inversion Hj; subst. exfalso. apply NI. apply InA_alt.
      exists x. split; [now apply seg_eq_sym | eapply nth_error_In; exact Hi].
    + f_equal. eapply IH; eassumption.
Qed.

Lemma duration_seg_eq (s t : Segment) : seg_eq s t -> duration s == duration t.
Proof.
  intros [H1 H2]. unfold duration, Segment_bool.
  destruct (Qltb_spec 0 (end_ s - start s)), (Qltb_spec 0 (end_ t - start t));
    lra.
Qed.

Lemma generator_outputs (g : Generator) (n : nat) (labs : list Label) :
  map g (seq 0 n) = map Some labs ->
  length labs = n /\ forall i, (i < n)%nat -> g i = nth_error labs i.
Proof.
  intro H. split.
  - apply (f_equal (@length _)) in H. rewrite !length_map, length_seq in H. lia.
  - intros i Hi.
    assert (K : nth_error (map g (seq 0 n)) i = Some (g i)).
    { rewrite nth_error_map, nth_error_seq.
      destruct (Nat.ltb_spec i n); [reflexivity | lia]. }
    rewrite H, nth_error_map in K.
    destruct (nth_error labs i); simpl in K; congruence.
Qed.

Section General.
Context {C : Collaborators}.
Variable self : Simple.SimpleDiarization.

(** The steps of a successful run of lines 200-240. *)
Lemma diarize_general (seg : list Segment) (w w' : World) (ann : Annotation) :
  (2 <= length (Simple.long_segments self seg))%nat ->
  Simple.diarize self seg w = (Ok ann, w') ->
  exists emb_long Z wa,
    for_each (Simple.get_embedding self) (Simple.long_segments self seg) w
    = (Ok emb_long, wa)
    /\ pool emb_long = Ok Z
    /\ let cluster_long :=
         Simple.labels_of (fcluster Z (Simple.emb_threshold self)) in
       (Simple.short_segments self seg = []
        /\ to_annotation (Timeline_mk seg) (iter cluster_long) = Ok ann)
       \/ (exists emb_shrt wc nearest cluster_shrt long shrt,
             for_each (Simple.get_embedding self)
                      (Simple.short_segments self seg)
                      (mkWorld (current_file wa) (trace wa ++ [EvPool emb_long]))
             = (Ok emb_shrt, wc)
             /\ Np.argmin_axis0 (length emb_shrt) (cdist emb_long emb_shrt)
                = Ok nearest
             /\ Np.take cluster_long nearest = Ok cluster_shrt
             /\ to_annotation (Timeline_mk (Simple.long_segments self seg))
                              (iter cluster_long) = Ok long
             /\ to_annotation (Timeline_mk (Simple.short_segments self seg))
                              (iter cluster_shrt) = Ok shrt
             /\ ann = Annotation_update long shrt).
Proof.
  intros L H. unfold Simple.diarize in H. cbv zeta in H.
  destruct (length (Simple.long_segments self seg)) as [|[|n]] eqn:EL;
    [lia | lia |].
  unfold bind at 1 in H.
  destruct (for_each (Simple.get_embedding self)
              (Simple.long_segments self seg) w) as [[emb_long|e] wa] eqn:E1;
    [|discriminate].
  unfold bind at 1 in H. unfold call at 1 in H.
  destruct (pool emb_long) as [Z|e] eqn:E2; [|discriminate].
  exists emb_long, Z, wa. split; [reflexivity|]. split; [exact E2|].
  cbv zeta.
  destruct (Simple.short_segments self seg) as [|s0 rest] eqn:ES.
  - left. split; [reflexivity|]. simpl in H. unfold lift in H. congruence.
  - right. cbn [length] in H.
    unfold bind at 1 in H.
    match type of H with
    | context [for_each ?f ?l ?w0] =>
        destruct (for_each f l w0) as [[emb_shrt|e] wc] eqn:E3
    end; [|discriminate].
    unfold bind at 1, lift at 1 in H.
    destruct (Np.argmin_axis0 (length emb_shrt) (cdist emb_long emb_shrt))
      as [nearest|e] eqn:E4; [|discriminate].
    unfold bind at 1, lift at 1 in H.
    match type of H with
    | context [Np.take ?a ?i] => destruct (Np.take a i) as [cluster_shrt|e] eqn:E5
    end; [|discriminate].
    unfold bind at 1, lift at 1 in H.
    destruct (to_annotation (Timeline_mk (Simple.long_segments self seg))
                (iter (Simple.labels_of (fcluster Z (Simple.emb_threshold self)))))
      as [long|e] eqn:E6; [|discriminate].
    unfold bind at 1, lift at 1 in H.
    destruct (to_annotation (Timeline_mk (s0 :: rest)) (iter cluster_shrt))
      as [shrt|e] eqn:E7; [|discriminate].
    unfold ret in H. inversion H; subst.
    exists emb_shrt, w', nearest, cluster_shrt, long, shrt.
    repeat split; assumption.
Qed.

End General.

Lemma to_annotation_inv (tl : list Segment) (g : Generator) (a : Annotation) :
  is_timeline tl ->
  to_annotation (Timeline_mk tl) g = Ok a ->
  exists labs,
    a = tracks_of tl labs
    /\ length labs = length tl
    /\ forall i, (i < length tl)%nat -> g i = nth_error labs i.
Proof.
  intros T H. pose proof T as [S N].
  destruct (to_annotation_from_labels g _ _ _ _ H) as [labs G].
  rewrite (Timeline_mk_id tl S N) in G.
  rewrite (to_annotation_candidates tl g labs T G) in H. inversion H.
  exists labs. split; [reflexivity|]. now apply generator_outputs.
Qed.

Section Nearest.
Context {C : Collaborators}.
Variable self : Simple.SimpleDiarization.

Lemma In_short_segments (seg : list Segment) (s : Segment) :
  In s (Simple.short_segments self seg)
  <-> In s seg /\ duration s < Simple.emb_duration self.
Proof. unfold Simple.short_segments. now rewrite filter_In, Qltb_iff. Qed.

Lemma In_long_segments (seg : list Segment) (s : Segment) :
  In s (Simple.long_segments self seg)
  <-> In s seg /\ Simple.emb_duration self <= duration s.
Proof. unfold Simple.long_segments. now rewrite filter_In, Qle_bool_iff. Qed.

Lemma long_not_short (seg : list Segment) (l s : Segment) :
  In l (Simple.long_segments self seg) ->
  In s (Simple.short_segments self seg) -> ~ seg_eq s l.
Proof.
  intros Hl Hs E. apply In_long_segments in Hl. apply In_short_segments in Hs.
  apply duration_seg_eq in E. lra.
Qed.

(** In a successful run with two long segments or more, each short
    segment gets the label of the first nearest long embedding. *)
Lemma diarize_short_segments (seg : list Segment) (w w' : World)
  (ann : Annotation) :
  is_timeline seg ->
  (2 <= length (Simple.long_segments self seg))%nat ->
  Simple.diarize self seg w = (Ok ann, w') ->
  exists (emb_long : list Vec) (D : Dendrogram),
    Forall2 (fun s e => embedding self (current_file w) s = Ok e)
            (Simple.long_segments self seg) emb_long
    /\ pool emb_long = Ok D
    /\ forall s, In s seg -> duration s < Simple.emb_duration self ->
       exists (e : Vec) (i : nat) (l : Segment) (c : Z),
         embedding self (current_file w) s = Ok e
         /\ first_argmin (map (fun a => cosine a e) emb_long) i
         /\ nth_error (Simple.long_segments self seg) i = Some l
         /\ nth_error
              (Simple.labels_of (fcluster D (Simple.emb_threshold self))) i
            = Some c
         /\ In (l, LStr "_", LInt c) ann
         /\ In (s, LStr "_", LInt c) ann
         /\ forall s' trk lab,
              In (s', trk, lab) ann -> seg_eq s' s -> lab = LInt c.
Proof.
  intros T L H.
  destruct (diarize_general self seg w w' ann L H)
    as (emb_long & D & wa & E1 & E2 & K).
  destruct (for_each_get_embedding self _ _ _ _ E1) as (Fa & _ & FL & _).
  specialize (FL emb_long eq_refl).
  exists emb_long, D. split; [exact FL|]. split; [exact E2|].
  intros s Hs Hd.
  assert (Hshort : In s (Simple.short_segments self seg))
    by (apply In_short_segments; tauto).
  cbv zeta in K.
  destruct K as [[ES _]|(emb_shrt & wc & nearest & cluster_shrt & long & shrt
                          & E3 & E4 & E5 & E6 & E7 & ->)].
  { rewrite ES in Hshort. destruct Hshort. }
  set (cluster_long :=
         Simple.labels_of (fcluster D (Simple.emb_threshold self))) in *.
  assert (TL : is_timeline (Simple.long_segments self seg))
    by now apply filter_is_timeline.
  assert (TS : is_timeline (Simple.short_segments self seg))
    by now apply filter_is_timeline.
  destruct (for_each_get_embedding self _ _ _ _ E3) as (_ & _ & FS & _).
  specialize (FS emb_shrt eq_refl). simpl in FS. rewrite Fa in FS.
  destruct (In_nth_error _ _ Hshort) as [j Hj].
  destruct (Forall2_nth_error_left _ _ _ FS j s Hj) as (e & He & Emb).
  pose proof (argmin_axis0_cdist _ _ _ E4) as FN.
  destruct (Forall2_nth_error_left _ _ _ FN j e He) as (i & Hi & Arg).
  pose proof (take_spec _ _ _ E5) as FT.
  destruct (Forall2_nth_error_left _ _ _ FT j i Hi) as (c & Hc & Hci).
  assert (Li : (i < length (Simple.long_segments self seg))%nat).
  { destruct Arg as [A _]. rewrite length_map in A.
    now rewrite (Forall2_length FL). }
  destruct (nth_error (Simple.long_segments self seg) i) as [l|] eqn:Hl;
    [|apply nth_error_None in Hl; lia].
  destruct (to_annotation_inv _ _ _ TL E6) as (labsL & -> & LenL & GL).
  destruct (to_annotation_inv _ _ _ TS E7) as (labsS & -> & LenS & GS).
  assert (Lj : (j < length (Simple.short_segments self seg))%nat)
    by (apply nth_error_Some; congruence).
  assert (U : Annotation_update
                (tracks_of (Simple.long_segments self seg) labsL)
                (tracks_of (Simple.short_segments self seg) labsS)
              = tracks_of (Simple.long_segments self seg) labsL
                ++ tracks_of (Simple.short_segments self seg) labsS).
  { apply Annotation_update_fresh.
    - apply Forall_forall. intros x Hx. apply In_tracks_of_segment in Hx.
      destruct TS as [_ N]. rewrite Forall_forall in N. now apply N.
    - rewrite tracks_of_segments by exact LenS.
      apply sorted_NoDupA. now destruct TS.
    - intros x x' Hx Hx'. apply In_tracks_of_segment in Hx, Hx'.
      now apply long_not_short with seg. }
  rewrite U. exists e, i, l, c.
  assert (LabL : nth_error labsL i = Some (LInt c)).
  { rewrite <- (GL i Li). unfold iter. now rewrite Hci. }
  assert (LabS : nth_error labsS j = Some (LInt c)).
  { rewrite <- (GS j Lj). unfold iter. now rewrite Hc. }
  split; [exact Emb|]. split; [exact Arg|]. split; [exact Hl|].
  split; [exact Hci|]. split; [|split].
  - apply in_or_app. left. apply In_tracks_of. now exists i, l, (LInt c).
  - apply in_or_app. right. apply In_tracks_of. now exists j, s, (LInt c).
  - intros s' trk lab Hin Eq. apply in_app_or in Hin. destruct Hin as [Hin|Hin].
    + exfalso. apply In_tracks_of_segment in Hin. simpl in Hin.
      apply (long_not_short seg s' s Hin Hshort). now apply seg_eq_sym.
    + apply In_tracks_of in Hin.
      destruct Hin as (j' & s'' & lab' & H1 & H2 & H3). inversion H3; subst.
      assert (j' = j).
      { apply (NoDupA_nth_error (Simple.short_segments self seg))
          with (x := s'') (y := s); try assumption.
        apply sorted_NoDupA. now destruct TS. }
      subst j'. congruence.
Qed.

(** *** The run succeeds when the collaborators do *)

Lemma for_each_get_embedding_ok (l : list Segment) :
  forall (w : World) (es : list Vec),
    Forall2 (fun s e => embedding self (current_file w) s = Ok e) l es ->
    exists w',
      for_each (Simple.get_embedding self) l w = (Ok es, w')
      /\ current_file w' = current_file w.
Proof.
  induction l as [|s r IH]; intros w es F; inversion F as [|? e ? es' He Hr];
    subst; simpl.
  - exists w. split; reflexivity.
  - unfold bind.
    destruct (Simple.get_embedding self s w) as [y wa] eqn:E.
    destruct (get_embedding_result self _ _ _ _ E) as (Ry & Fa & _).
    rewrite He in Ry. subst y. rewrite <- Fa in Hr.
    destruct (IH wa es' Hr) as (w' & E' & Fw).
    rewrite E'. exists w'. split; [reflexivity | congruence].
Qed.

Lemma sequence_ok {A B} (f : A -> Res B) (l : list A) :
  (forall x, In x l -> exists y, f x = Ok y) ->
  exists ys, Np.sequence (map f l) = Ok ys.
Proof.
  induction l as [|x r IH]; intro H; simpl.
  - now exists [].
  - destruct (H x (or_introl eq_refl)) as [y Hy]. rewrite Hy. simpl.
    destruct IH as [ys Hys]; [intros z Hz; apply H; now right|].
    rewrite Hys. simpl. now exists (y :: ys).
Qed.

Lemma argmin_axis0_cdist_ok (XA XB : list Vec) :
  XA <> [] ->
  exists nearest,
    Np.argmin_axis0 (length XB) (cdist XA XB) = Ok nearest
    /\ Forall (fun i => (i < length XA)%nat) nearest.
Proof.
  intro NE. unfold Np.argmin_axis0. rewrite columns_cdist, map_map.
  destruct (sequence_ok (fun b => Np.argmin (map (fun a => cosine a b) XA)) XB)
    as [nearest H].
  - intros b _. destruct XA as [|a r]; [congruence|]. simpl. eexists. reflexivity.
  - exists nearest. split; [exact H|].
    apply sequence_spec in H. clear NE.
    induction H as [|b i rb ri Hbi _ IH]; constructor; [|exact IH].
    apply argmin_spec in Hbi. destruct Hbi as [L _].
    now rewrite length_map in L.
Qed.

Lemma take_ok {A} (a : list A) (indices : list nat) :
  Forall (fun i => (i < length a)%nat) indices ->
  exists xs, Np.take a indices = Ok xs.
Proof.
  induction 1 as [|i r Hi Hr [xs IH]]; simpl.
  - now exists [].
  - destruct (nth_error a i) as [x|] eqn:E.
    + rewrite IH. simpl. now exists (x :: xs).
    + apply nth_error_None in E. lia.
Qed.

Lemma iter_outputs (labels : list Z) :
  forall n, (n <= length labels)%nat ->
    map (iter labels) (seq 0 n) = map Some (map LInt (firstn n labels)).
Proof.
  unfold iter. induction labels as [|x r IH]; intros n Hn.
  - simpl in Hn. assert (n = 0%nat) as -> by lia. reflexivity.
  - destruct n as [|n]; [reflexivity|]. simpl. f_equal.
    rewrite <- seq_shift, map_map. simpl. apply IH. simpl in Hn. lia.
Qed.

Lemma to_annotation_iter_ok (tl : list Segment) (labels : list Z) :
  is_timeline tl -> (length tl <= length labels)%nat ->
  exists a, to_annotation (Timeline_mk tl) (iter labels) = Ok a.
Proof.
  intros T L. eexists. apply to_annotation_candidates; [exact T|].
  now apply iter_outputs.
Qed.

Lemma take_length {A} (a : list A) (indices : list nat) (xs : list A) :
  Np.take a indices = Ok xs -> length xs = length indices.
Proof. intro H. apply take_spec in H. symmetry. exact (Forall2_length H). Qed.

(** With embeddings for every candidate, a dendrogram and one cluster
    label per long segment, lines 200-240 return an annotation. *)
Lemma diarize_succeeds (seg : list Segment) (w : World)
  (emb_long emb_shrt : list Vec) (D : Dendrogram) :
  is_timeline seg ->
  (2 <= length (Simple.long_segments self seg))%nat ->
  Forall2 (fun s e => embedding self (current_file w) s = Ok e)
          (Simple.long_segments self seg) emb_long ->
  Forall2 (fun s e => embedding self (current_file w) s = Ok e)
          (Simple.short_segments self seg) emb_shrt ->
  pool emb_long = Ok D ->
  length (fcluster D (Simple.emb_threshold self))
  = length (Simple.long_segments self seg) ->
  exists ann w', Simple.diarize self seg w = (Ok ann, w').
Proof.
  intros T L FL FS P Len.
  assert (TL : is_timeline (Simple.long_segments self seg))
    by now apply filter_is_timeline.
  assert (TS : is_timeline (Simple.short_segments self seg))
    by now apply filter_is_timeline.
  assert (LenL : length (Simple.labels_of
                           (fcluster D (Simple.emb_threshold self)))
                 = length (Simple.long_segments self seg))
    by (unfold Simple.labels_of; now rewrite length_map).
  unfold Simple.diarize. cbv zeta.
  destruct (length (Simple.long_segments self seg)) as [|[|n]] eqn:EL;
    [lia | lia |].
  destruct (for_each_get_embedding_ok _ w emb_long FL) as (wa & E1 & Fa).
  unfold bind at 1. rewrite E1. unfold bind at 1, call at 1. rewrite P.
  destruct (Simple.short_segments self seg) as [|s0 rest] eqn:ES.
  - simpl. unfold lift.
    destruct (to_annotation_iter_ok seg
                (Simple.labels_of (fcluster D (Simple.emb_threshold self))) T)
      as [a Ha].
    + rewrite LenL, <- EL. unfold Simple.long_segments.
      assert (Sh : forall s, In s seg -> In s (Simple.long_segments self seg)).
      { intros s Hs. apply In_long_segments. split; [exact Hs|].
        destruct (Qlt_le_dec (duration s) (Simple.emb_duration self)) as [Lt|Ge];
          [|exact Ge].
        exfalso. assert (I : In s (Simple.short_segments self seg))
          by (apply In_short_segments; tauto).
        rewrite ES in I. destruct I. }
      assert (Eq : Simple.long_segments self seg = seg).
      { unfold Simple.long_segments. apply forallb_filter_id.
        apply forallb_forall. intros s Hs.
        apply Sh, In_long_segments in Hs. apply Qle_bool_iff. tauto. }
      unfold Simple.long_segments in Eq. rewrite Eq. lia.
    + rewrite Ha. eexists. eexists. reflexivity.
  - cbn [length].
    assert (FS' : Forall2
                    (fun s e =>
                       embedding self
                         (current_file
                            (mkWorld (current_file wa)
                                     (trace wa ++ [EvPool emb_long]))) s = Ok e)
                    (s0 :: rest) emb_shrt)
      by (simpl; now rewrite Fa).
    destruct (for_each_get_embedding_ok _ _ emb_shrt FS') as (wc & E3 & _).
    unfold bind at 1. rewrite E3.
    assert (NE : emb_long <> []).
    { intro K. subst emb_long. apply Forall2_length in FL. simpl in FL. lia. }
    destruct (argmin_axis0_cdist_ok emb_long emb_shrt NE) as (nearest & E4 & B).
    unfold bind at 1, lift at 1. rewrite E4.
    assert (B' : Forall
                   (fun i => (i < length (Simple.labels_of
                                            (fcluster D (Simple.emb_threshold self))))%nat)
                   nearest).
    { assert (LE : length emb_long = S (S n))
        by (rewrite <- (Forall2_length FL); exact EL).
      rewrite LenL, <- LE. exact B. }
    destruct (take_ok _ nearest B') as [cluster_shrt E5].
    unfold bind at 1, lift at 1. rewrite E5.
    destruct (to_annotation_iter_ok (Simple.long_segments self seg)
                (Simple.labels_of (fcluster D (Simple.emb_threshold self))) TL)
      as [long E6]; [lia|].
    unfold bind at 1, lift at 1. rewrite E6.
    destruct (to_annotation_iter_ok (s0 :: rest) cluster_shrt TS) as [shrt E7].
    { rewrite (take_length _ _ _ E5).
      rewrite <- (Forall2_length (argmin_axis0_cdist _ _ _ E4)).
      rewrite <- (Forall2_length FS). lia. }
    unfold bind at 1, lift at 1. rewrite E7.
    eexists. eexists. reflexivity.
Qed.

Lemma Forall2_functional {A B} (f : A -> Res B) (l : list A) (ys ys' : list B) :
  Forall2 (fun x y => f x = Ok y) l ys ->
  Forall2 (fun x y => f x = Ok y) l ys' -> ys = ys'.
Proof.
  intro H. revert ys'. induction H as [|x y r ry Hxy _ IH]; intros ys' H'.
  - now inversion H'.
  - inversion H' as [|? y' ? ry' Hxy' Hr']; subst. f_equal; [congruence|].
    now apply IH.
Qed.

End Nearest.

(* ------------------------------------------------------------------ *)
(** ** The sign of the mean and the range of the corrected scores *)
(* ------------------------------------------------------------------ *)


Lemma row_sum_nonneg (row : list Q) :
  Forall (fun v => 0 <= v) row -> 0 <= row_sum row.
Proof. induction 1; simpl; lra. Qed.

Lemma row_sum_nonpos (row : list Q) :
  Forall (fun v => v <= 0) row -> row_sum row <= 0.
Proof. induction 1; simpl; lra. Qed.

Lemma row_sum_zero (row : list Q) :
  Forall (fun v => v <= 0) row -> 0 <= row_sum row ->
  Forall (fun v => v == 0) row.
Proof.
  induction 1 as [|x r Hx Hr IH]; simpl; intro S; constructor.
  - pose proof (row_sum_nonpos r Hr). unfold row_sum in *. lra.
  - apply IH. unfold row_sum in *. lra.
Qed.

Lemma total_nonneg (c : Curve) :
  all_values (fun v => 0 <= v) c -> 0 <= Np.total c.
Proof.
  induction 1 as [|row r Hrow Hr IH]; simpl; [lra|].
  pose proof (row_sum_nonneg row Hrow). unfold row_sum in *. lra.
Qed.

Lemma total_nonpos (c : Curve) :
  all_values (fun v => v <= 0) c -> Np.total c <= 0.
Proof.
  induction 1 as [|row r Hrow Hr IH]; simpl; [lra|].
  pose proof (row_sum_nonpos row Hrow). unfold row_sum in *. lra.
Qed.

Lemma total_zero (c : Curve) :
  all_values (fun v => v <= 0) c -> 0 <= Np.total c ->
  all_values (fun v => v == 0) c.
Proof.
  induction 1 as [|row r Hrow Hr IH]; simpl; intro S; constructor.
  - apply row_sum_zero; [exact Hrow|].
    pose proof (total_nonpos r Hr). unfold row_sum. lra.
  - apply IH. pose proof (row_sum_nonpos row Hrow). unfold row_sum in *. lra.
Qed.

Lemma size_zero_all (P : Q -> Prop) (c : Curve) :
  Np.size c = 0%nat -> all_values P c.
Proof.
  induction c as [|row r IH]; simpl; intro H; constructor.
  - destruct row; [constructor | simpl in H; lia].
  - apply IH. lia.
Qed.

Lemma nanmean_neg_total (c : Curve) : Np.nanmean c < 0 -> Np.total c < 0.
Proof.
  unfold Np.nanmean. intro H.
  destruct (Qlt_le_dec (Np.total c) 0) as [L|L]; [exact L|exfalso].
  assert (N : 0 <= / inject_Z (Z.of_nat (Np.size c))).
  { apply Qinv_le_0_compat. change 0 with (inject_Z 0).
    rewrite <- Zle_Qle. lia. }
  pose proof (Qmult_le_0_compat _ _ L N) as K. unfold Qdiv in H. lra.
Qed.

Lemma nanmean_nonneg_total (c : Curve) :
  (0 < Np.size c)%nat -> 0 <= Np.nanmean c -> 0 <= Np.total c.
Proof.
  unfold Np.nanmean. intros S H.
  assert (N : 0 < inject_Z (Z.of_nat (Np.size c))).
  { change 0 with (inject_Z 0). rewrite <- Zlt_Qlt. lia. }
  assert (E : Np.total c
              == Np.total c / inject_Z (Z.of_nat (Np.size c))
                 * inject_Z (Z.of_nat (Np.size c))).
  { field. lra. }
  rewrite E. apply Qmult_le_0_compat; lra.
Qed.

Section Range.
Context {C : Collaborators}.
Hypothesis np_exp_nonneg : forall x, 0 <= np_exp x.
Hypothesis np_exp_le_1 : forall x, x <= 0 -> np_exp x <= 1.

(** Log-probabilities and probabilities both come out of the
    correction as probabilities. *)
Lemma corrected_probabilities (raw : Curve) :
  all_values (fun v => v <= 0) raw \/ all_values probability raw ->
  all_values probability (corrected raw).
Proof.
  unfold corrected. intro H.
  destruct (Qltb_spec (Np.nanmean raw) 0) as [Neg|NonNeg].
  - apply nanmean_neg_total in Neg. destruct H as [H|H].
    + unfold all_values in *. apply Forall_map.
      eapply Forall_impl; [|exact H]. intros row Hrow. apply Forall_map.
      eapply Forall_impl; [|exact Hrow]. intros v Hv. split; auto.
    + exfalso. assert (K : 0 <= Np.total raw).
      { apply total_nonneg. unfold all_values in *.
        eapply Forall_impl; [|exact H]. intros row Hrow.
        eapply Forall_impl; [|exact Hrow]. now intros v [Hv _]. }
      lra.
  - destruct H as [H|H]; [|exact H].
    destruct (Nat.eq_dec (Np.size raw) 0) as [Z|NZ].
    + now apply size_zero_all.
    + assert (K : all_values (fun v => v == 0) raw).
      { apply total_zero; [exact H|].
        apply nanmean_nonneg_total; [lia | exact NonNeg]. }
      unfold all_values in *.
      eapply Forall_impl; [|exact K]. intros row Hrow.
      eapply Forall_impl; [|exact Hrow]. intros v Hv.
      cbv beta in Hv. unfold probability. lra.
Qed.

End Range.

Lemma exp_like_nonneg (x : Q) : 0 <= Fixture.exp_like x.
Proof.
  unfold Fixture.exp_like. destruct (Qle_bool_spec x 0) as [L|L]; [|lra].
  apply Qle_shift_div_l; lra.
Qed.

Lemma exp_like_le_1 (x : Q) : x <= 0 -> Fixture.exp_like x <= 1.
Proof.
  unfold Fixture.exp_like. intro H.
  destruct (Qle_bool_spec x 0) as [L|L]; [|lra].
  apply Qle_shift_div_r; lra.
Qed.

(* ------------------------------------------------------------------ *)
(** ** The frame-level pipeline *)
(* ------------------------------------------------------------------ *)

Section FrameLevel.
Context {C : Collaborators}.
Variable self : Discrete.DiscreteDiarization.

(** Without a speech frame the invocation returns the empty annotation
    right after the speech frames are known. *)
Lemma no_speech_frame (w w1 : World) (fr : Discrete.Frames) :
  Discrete.speech_frames self w = (Ok fr, w1) ->
  Discrete.speech_indices fr = [] ->
  Discrete.__call__ self w = (Ok [], w1).
Proof.
  intros H E. unfold Discrete.__call__, bind. rewrite H, E. reflexivity.
Qed.

(** [clustering] calls [pool] on the embeddings of the frames
    [indices], and calls no other collaborator. *)
Lemma clustering_pools_indices (fr : Discrete.Frames)
  (o : option Discrete.Overlap) (w : World) (X : list Vec) :
  Np.take (Discrete.data fr) (Discrete.indices fr o) = Ok X ->
  exists r,
    Discrete.clustering self fr o w
    = (r, mkWorld (current_file w) (trace w ++ [EvPool X])).
Proof.
  intro H. unfold Discrete.clustering. cbv zeta.
  unfold bind at 1, lift at 1. rewrite H.
  unfold bind at 1, call at 1.
  destruct (pool X) as [dendrogram|e]; [|eexists; reflexivity].
  unfold bind at 1, lift at 1.
  destruct (Np.max _) as [top|e]; [|eexists; reflexivity].
  destruct o as [r|]; [|eexists; reflexivity].
  unfold bind at 1, lift at 1.
  destruct (Np.take (Discrete.data fr) (Discrete.noisy_speech_indices r))
    as [noisy|e]; [|eexists; reflexivity].
  unfold bind at 1, lift at 1.
  destruct (Discrete.most_similar_clusters _ _ _ _) as [part|e];
    eexists; reflexivity.
Qed.

Lemma size_cdist (XA XB : list Vec) :
  Np.size (cdist XA XB) = (length XA * length XB)%nat.
Proof.
  unfold cdist. induction XA as [|a r IH]; simpl; [reflexivity|].
  rewrite IH, length_map. reflexivity.
Qed.

(** With one or two clusters and a noisy frame, [np.argpartition] is
    asked for a position that the axis does not have. *)
Lemma most_similar_clusters_raises (X : list Vec) (cluster : list nat)
  (num_clusters : nat) (noisy : list Vec) :
  (1 <= num_clusters <= 2)%nat -> noisy <> [] ->
  Discrete.most_similar_clusters X cluster num_clusters noisy
  = Raise ValueError.
Proof.
  intros N NE. unfold Discrete.most_similar_clusters, Np.argpartition_axis0.
  cbv zeta. rewrite size_cdist.
  replace (length (cdist _ noisy)) with num_clusters
    by (unfold cdist; now rewrite !length_map, length_seq).
  rewrite length_map, length_seq.
  assert (L : (0 < length noisy)%nat) by (destruct noisy; simpl; [congruence|lia]).
  replace (Nat.eqb (num_clusters * length noisy) 0) with false
    by (symmetry; apply Nat.eqb_neq; nia).
  replace (Nat.leb num_clusters (Nat.min 2 num_clusters)) with true
    by (symmetry; apply Nat.leb_le; lia).
  reflexivity.
Qed.

(** With speech frames and no overlap detector, the embeddings that
    are clustered are those of the speech frames. *)
Lemma speech_frames_pooled (w w1 : World) (fr : Discrete.Frames)
  (X : list Vec) :
  Discrete.speech_frames self w = (Ok fr, w1) ->
  Discrete.speech_indices fr <> [] ->
  Discrete.ovl self = None ->
  Np.take (Discrete.data fr) (Discrete.speech_indices fr) = Ok X ->
  exists r,
    Discrete.__call__ self w
    = (r, mkWorld (current_file w1) (trace w1 ++ [EvPool X])).
Proof.
  intros H NE O T. unfold Discrete.__call__. unfold bind at 1. rewrite H.
  replace (Nat.eqb (length (Discrete.speech_indices fr)) 0) with false
    by (destruct (Discrete.speech_indices fr); [congruence | reflexivity]).
  rewrite O. unfold bind at 1, ret at 1.
  now apply clustering_pools_indices.
Qed.

(** With speech frames and an overlap detector, they are those of the
    clean speech frames, however few. *)
Lemma clean_frames_pooled (w w1 w2 : World) (fr : Discrete.Frames)
  (ovl_model : ProtocolFile -> Res Curve) (o : Discrete.Overlap)
  (X : list Vec) :
  Discrete.speech_frames self w = (Ok fr, w1) ->
  Discrete.speech_indices fr <> [] ->
  Discrete.ovl self = Some ovl_model ->
  Discrete.overlap_block self (Discrete.extent fr) (Discrete.window fr)
    (length (Discrete.data fr)) (Discrete.speech fr)
    (Discrete.speech_discrete fr) ovl_model w1 = (Ok o, w2) ->
  Np.take (Discrete.data fr) (Discrete.clean_speech_indices o) = Ok X ->
  exists r,
    Discrete.__call__ self w
    = (r, mkWorld (current_file w2) (trace w2 ++ [EvPool X])).
Proof.
  intros H NE O B T. unfold Discrete.__call__. unfold bind at 1. rewrite H.
  replace (Nat.eqb (length (Discrete.speech_indices fr)) 0) with false
    by (destruct (Discrete.speech_indices fr); [congruence | reflexivity]).
  rewrite O. unfold bind at 1. unfold bind at 1. rewrite B. unfold ret at 1.
  now apply clustering_pools_indices.
Qed.

Lemma insert_by_perm (col : list Q) (i : nat) (l : list nat) :
  Permutation (Np.insert_by col i l) (i :: l).
Proof.
  induction l as [|j r IH]; simpl; [reflexivity|].
  destruct (Qltb (nth i col 0) (nth j col 0)); [reflexivity|].
  rewrite IH. apply perm_swap.
Qed.

Lemma argsort_perm (col : list Q) :
  Permutation (Np.argsort col) (seq 0 (length col)).
Proof.
  unfold Np.argsort. induction (seq 0 (length col)) as [|i r IH]; simpl.
  - reflexivity.
  - rewrite insert_by_perm. now constructor.
Qed.

(** With three clusters or more, every noisy frame is given two
    clusters, and they differ. *)
Lemma most_similar_clusters_two (X : list Vec) (cluster : list nat)
  (num_clusters : nat) (noisy : list Vec) :
  (3 <= num_clusters)%nat ->
  exists part,
    Discrete.most_similar_clusters X cluster num_clusters noisy = Ok part
    /\ length part = length noisy
    /\ Forall (fun ks => length ks = 2%nat /\ NoDup ks
                          /\ Forall (fun k => (k < num_clusters)%nat) ks)
               part.
Proof.
  intro N. unfold Discrete.most_similar_clusters, Np.argpartition_axis0.
  cbv zeta. replace (Nat.min 2 num_clusters) with 2%nat by lia.
  replace (length (cdist _ noisy)) with num_clusters
    by (unfold cdist; now rewrite !length_map, length_seq).
  replace (Nat.leb num_clusters 2) with false
    by (symmetry; apply Nat.leb_gt; lia).
  rewrite andb_false_r. cbn [res_bind]. eexists. split; [reflexivity|].
  rewrite columns_cdist, !map_map. split; [now rewrite length_map|].
  apply Forall_forall. intros ks Hks. apply in_map_iff in Hks.
  destruct Hks as [b [<- _]].
  set (col := map (fun a => cosine a b) _).
  assert (L : length col = num_clusters)
    by (unfold col; now rewrite !length_map, length_seq).
  pose proof (argsort_perm col) as P. rewrite L in P.
  assert (ND : NoDup (Np.argsort col)).
  { apply (Permutation_NoDup (Permutation_sym P)). apply seq_NoDup. }
  split; [|split].
  - rewrite length_firstn, (Permutation_length P), length_seq. lia.
  - rewrite <- (firstn_skipn 2 (Np.argsort col)) in ND.
    now apply NoDup_app_remove_r in ND.
  - apply Forall_forall. intros k Hk.
    assert (K : In k (Np.argsort col)).
    { rewrite <- (firstn_skipn 2 (Np.argsort col)). apply in_or_app. now left. }
    apply (Permutation_in _ P) in K. apply in_seq in K. lia.
Qed.

End FrameLevel.

(* ------------------------------------------------------------------ *)
(** ** The time covered by a timeline *)
(* ------------------------------------------------------------------ *)


Lemma inside_nonempty (s : Segment) (t : Q) :
  inside s t -> Segment_bool s = true.
Proof. intros [H1 H2]. apply Segment_bool_iff. lra. Qed.

Lemma inside_seg_eq (s u : Segment) (t : Q) :
  seg_eq s u -> inside s t -> inside u t.
Proof. intros [E1 E2] [H1 H2]. split; lra. Qed.

Lemma inside_seg_and (s u : Segment) (t : Q) :
  inside (seg_and s u) t <-> inside s t /\ inside u t.
Proof.
  unfold inside, seg_and. simpl.
  destruct (Qmax_case_le (start s) (start u)) as [[? E]|[? E]];
    destruct (Qmin_case_le (end_ s) (end_ u)) as [[? E']|[? E']];
    rewrite E, E'; split; intros; lra.
Qed.

Lemma inside_intersects (s u : Segment) (t : Q) :
  inside s t -> inside u t -> intersects s u = true.
Proof.
  intros [H1 H2] [H3 H4]. unfold intersects.
  destruct (Qltb_spec (start s) (start u)) as [L|L].
  - destruct (Qltb_spec (start u) (end_ s)) as [L'|L']; [reflexivity|lra].
  - destruct (Qltb_spec (start u) (start s)) as [K|K].
    + destruct (Qltb_spec (start s) (end_ u)) as [K'|K']; [reflexivity|lra].
    + simpl. apply Qeq_bool_iff. lra.
Qed.

Lemma covers_Timeline_mk (l : list Segment) (t : Q) :
  covers (Timeline_mk l) t <-> covers l t.
Proof.
  split; intros [s [Hs I]].
  - exists s. split; [|exact I]. now apply Timeline_mk_In in Hs.
  - pose proof (Timeline_mk_InA s l Hs (inside_nonempty s t I)) as K.
    apply InA_alt in K. destruct K as [u [E Hu]].
    exists u. split; [exact Hu|]. now apply inside_seg_eq with s.
Qed.

Lemma separated_sorted (tl : list Segment) :
  separated tl -> nonempty tl -> StronglySorted seg_lt tl.
Proof.
  unfold separated, nonempty. induction 1 as [|a r S IH F]; intro N.
  - constructor.
  - inversion N as [|? ? Ha Nr]; subst. constructor; [now apply IH|].
    rewrite Forall_forall in *. intros b Hb. left.
    specialize (F b Hb). apply Segment_bool_iff in Ha. lra.
Qed.

Lemma Timeline_mk_separated (tl : list Segment) :
  separated tl -> nonempty tl -> Timeline_mk tl = tl.
Proof.
  intros S N. apply Timeline_mk_id; [now apply separated_sorted | exact N].
Qed.

(** *** support *)

Lemma seg_or_hull (s u : Segment) :
  Segment_bool s = true -> Segment_bool u = true ->
  seg_or s u
  = mkSegment (Qmin (start s) (start u)) (Qmax (end_ s) (end_ u)).
Proof. intros Hs Hu. unfold seg_or. now rewrite Hs, Hu. Qed.

Lemma gap_or_merge (n x : Segment) :
  Segment_bool n = true -> Segment_bool x = true -> start n <= start x ->
  (Segment_bool (seg_xor x n) = true /\ end_ n < start x)
  \/ (Segment_bool (seg_xor x n) = false /\ start x <= end_ n).
Proof.
  intros Hn Hx L. apply Segment_bool_iff in Hn, Hx.
  destruct (Segment_bool (seg_xor x n)) eqn:E.
  - left. split; [reflexivity|]. apply Segment_bool_iff in E.
    unfold seg_xor in E. simpl in E.
    destruct (Qmin_case_le (end_ x) (end_ n)) as [[? E1]|[? E1]];
      destruct (Qmax_case_le (start x) (start n)) as [[? E2]|[? E2]];
      rewrite E1, E2 in E; lra.
  - right. split; [reflexivity|].
    destruct (Qlt_le_dec (end_ n) (start x)) as [K|K]; [|exact K].
    exfalso. assert (T : Segment_bool (seg_xor x n) = true); [|congruence].
    apply Segment_bool_iff. unfold seg_xor. simpl.
    destruct (Qmin_case_le (end_ x) (end_ n)) as [[? E1]|[? E1]];
      destruct (Qmax_case_le (start x) (start n)) as [[? E2]|[? E2]];
      rewrite E1, E2; lra.
Qed.

Lemma support_from_spec (l : list Segment) :
  forall n : Segment,
    Segment_bool n = true -> nonempty l ->
    Forall (fun x => start n <= start x) l ->
    StronglySorted (fun a b => start a <= start b) l ->
    (forall t, covers (support_from n l) t <-> covers (n :: l) t)
    /\ separated (support_from n l)
    /\ nonempty (support_from n l)
    /\ Forall (fun o => start n <= start o) (support_from n l).
Proof.
  unfold nonempty, separated.
  induction l as [|x r IH]; intros n Hn N F S.
  - simpl. repeat split; try tauto.
    + repeat constructor.
    + now repeat constructor.
    + repeat constructor. lra.
  - inversion N as [|? ? Hx Nr]; subst. inversion F as [|? ? Lx Fr]; subst.
    inversion S as [|? ? Sr Sx]; subst. simpl.
    destruct (gap_or_merge n x Hn Hx Lx) as [[E G]|[E G]]; rewrite E; simpl.
    + destruct (IH x Hx Nr Sx Sr) as (Cov & Sep & Ne & St).
      repeat split.
      * intros [s [[<-|Hs] I]].
        -- exists n. split; [now left | exact I].
        -- destruct (proj1 (Cov t) (ex_intro _ s (conj Hs I))) as [u [Hu Iu]].
           exists u. split; [now right | exact Iu].
      * intros [s [[<-|Hs] I]].
        -- exists n. split; [now left | exact I].
        -- destruct (proj2 (Cov t) (ex_intro _ s (conj Hs I))) as [u [Hu Iu]].
           exists u. split; [now right | exact Iu].
      * constructor; [exact Sep|]. rewrite Forall_forall in *.
        intros o Ho. specialize (St o Ho). lra.
      * constructor; assumption.
      * constructor; [lra|]. rewrite Forall_forall in *.
        intros o Ho. specialize (St o Ho). lra.
    + rewrite (seg_or_hull n x Hn Hx).
      set (n' := mkSegment (Qmin (start n) (start x)) (Qmax (end_ n) (end_ x))).
      pose proof Hn as Hn0. pose proof Hx as Hx0.
      apply Segment_bool_iff in Hn0, Hx0.
      assert (Es : start n' == start n) by (simpl; apply Q.min_l; exact Lx).
      assert (Ee : (end_ n <= end_ x /\ end_ n' == end_ x)
                   \/ (end_ x <= end_ n /\ end_ n' == end_ n))
        by (simpl; apply Qmax_case_le).
      assert (Hn' : Segment_bool n' = true)
        by (apply Segment_bool_iff; destruct Ee as [[? K]|[? K]]; lra).
      destruct (IH n' Hn' Nr) as (Cov & Sep & Ne & St).
      * rewrite Forall_forall in *. intros y Hy. specialize (Sx y Hy). lra.
      * exact Sr.
      * assert (Un : forall t, inside n' t <-> inside n t \/ inside x t).
        { intro t. unfold inside.
          destruct Ee as [[? K]|[? K]]; split; intros; lra. }
        repeat split.
        -- intro H. apply Cov in H. destruct H as [s [[<-|Hs] I]].
           ++ apply Un in I. destruct I as [I|I].
              ** exists n. split; [now left | exact I].
              ** exists x. split; [right; now left | exact I].
           ++ exists s. split; [right; now right | exact I].
        -- intros [s [[<-|[<-|Hs]] I]]; apply Cov.
           ++ exists n'. split; [now left | apply Un; now left].
           ++ exists n'. split; [now left | apply Un; now right].
           ++ exists s. split; [now right | exact I].
        -- exact Sep.
        -- exact Ne.
        -- rewrite Forall_forall in *. intros o Ho. specialize (St o Ho). lra.
Qed.

Lemma sorted_starts (tl : list Segment) :
  StronglySorted seg_lt tl ->
  StronglySorted (fun a b => start a <= start b) tl.
Proof.
  induction 1 as [|a r S IH F]; constructor; [exact IH|].
  rewrite Forall_forall in *. intros b Hb.
  destruct (F b Hb) as [L|[L _]]; lra.
Qed.

Lemma support_spec (tl : list Segment) :
  is_timeline tl ->
  (forall t, covers (support tl) t <-> covers tl t)
  /\ separated (support tl)
  /\ nonempty (support tl).
Proof.
  intros [S N]. destruct tl as [|s0 r].
  - simpl. repeat split; try tauto; constructor.
  - assert (Hs0 : Segment_bool s0 = true) by now inversion N.
    destruct (support_from_spec (s0 :: r) s0 Hs0 N) as (Cov & Sep & Ne & _).
    + constructor; [lra|]. inversion S as [|? ? _ F]; subst.
      rewrite Forall_forall in *. intros x Hx.
      destruct (F x Hx) as [L|[L _]]; lra.
    + now apply sorted_starts.
    + unfold support. rewrite (Timeline_mk_separated _ Sep Ne).
      repeat split; try assumption.
      * intro H. apply Cov in H. destruct H as [s [[<-|Hs] I]].
        -- exists s0. split; [now left | exact I].
        -- exists s. split; [exact Hs | exact I].
      * intros [s [Hs I]]. apply Cov. exists s. split; [now right | exact I].
Qed.

(** *** crop *)

Lemma crop_is_timeline (a b : Timeline) : is_timeline (crop a b).
Proof. apply Timeline_mk_is_timeline. Qed.

Lemma In_co_iter (a b : Timeline) (s u : Segment) :
  In (s, u) (co_iter a b) <-> In s a /\ In u b /\ intersects s u = true.
Proof.
  unfold co_iter. rewrite in_flat_map. split.
  - intros [x [Hx H]]. apply in_map_iff in H. destruct H as [y [E Hy]].
    inversion E; subst. apply filter_In in Hy. tauto.
  - intros [Hs [Hu I]]. exists s. split; [exact Hs|].
    apply in_map_iff. exists u. split; [reflexivity|]. apply filter_In. tauto.
Qed.

Lemma covers_crop (a b : Timeline) (t : Q) :
  covers (crop a b) t <-> covers a t /\ covers (support b) t.
Proof.
  unfold crop. rewrite covers_Timeline_mk. split.
  - intros [x [Hx I]]. apply in_flat_map in Hx. destruct Hx as [[s u] [Hsu Hx]].
    simpl in Hx. destruct (Segment_bool (seg_and s u)); [|destruct Hx].
    destruct Hx as [<-|[]]. apply In_co_iter in Hsu. destruct Hsu as (Hs & Hu & _).
    apply inside_seg_and in I. destruct I as [Is Iu]. split.
    + now exists s.
    + now exists u.
  - intros [[s [Hs Is]] [u [Hu Iu]]].
    assert (I : inside (seg_and s u) t) by (apply inside_seg_and; tauto).
    exists (seg_and s u). split; [|exact I].
    apply in_flat_map. exists (s, u). split.
    + apply In_co_iter. repeat split; try assumption.
      now apply inside_intersects with t.
    + simpl. rewrite (inside_nonempty _ _ I). now left.
Qed.

(** *** gaps *)

Lemma not_nonempty_gap (prev x : Q) :
  Segment_bool (mkSegment prev x) = false -> x <= prev.
Proof.
  intro B. destruct (Qlt_le_dec prev x) as [L|L]; [|exact L].
  assert (T : Segment_bool (mkSegment prev x) = true)
    by (apply Segment_bool_iff; exact L).
  congruence.
Qed.

Lemma gaps_iter_spec (S : list Segment) :
  forall (prev e : Q),
    separated S -> nonempty S -> Forall (fun s => end_ s <= e) S ->
    Forall (fun s => prev <= start s) S ->
    (forall t, covers (gaps_iter prev S e) t ->
               prev <= t /\ t < e /\ ~ covers S t)
    /\ separated (gaps_iter prev S e)
    /\ nonempty (gaps_iter prev S e)
    /\ Forall (fun g => prev <= start g) (gaps_iter prev S e).
Proof.
  unfold separated, nonempty.
  induction S as [|s r IH]; intros prev e Sep Ne Le Ge; simpl.
  - destruct (Segment_bool (mkSegment prev e)) eqn:B.
    + split; [|split; [|split]].
      * intros t [g [[<-|[]] [I1 I2]]]. simpl in I1, I2.
        split; [exact I1|]. split; [exact I2|]. intros [u [[] _]].
      * repeat constructor.
      * now repeat constructor.
      * repeat constructor. simpl. lra.
    + split; [|split; [|split]].
      * intros t [g [[] _]].
      * constructor.
      * constructor.
      * constructor.
  - inversion Sep as [|? ? Sr Fs]; subst. inversion Ne as [|? ? Hs Nr]; subst.
    inversion Le as [|? ? Ls Lr]; subst. inversion Ge as [|? ? Gs Gr]; subst.
    assert (Ge' : Forall (fun u => end_ s <= start u) r).
    { rewrite Forall_forall in *. intros u Hu. specialize (Fs u Hu). lra. }
    destruct (IH (end_ s) e Sr Nr Lr Ge') as (Cov & Sep' & Ne' & St).
    pose proof Hs as Hs0. apply Segment_bool_iff in Hs0.
    assert (Rest : forall t, covers (gaps_iter (end_ s) r e) t ->
                             end_ s <= t /\ t < e /\ ~ covers (s :: r) t).
    { intros t H. destruct (Cov t H) as (P & E & NC).
      split; [exact P|]. split; [exact E|].
      intros [u [[<-|Hu] [I1 I2]]]; [lra|].
      apply NC. exists u. split; [exact Hu | split; assumption]. }
    assert (First : forall t, inside (mkSegment prev (start s)) t ->
                              prev <= t /\ t < e /\ ~ covers (s :: r) t).
    { intros t [I1 I2]. simpl in I1, I2.
      split; [exact I1|]. split; [lra|].
      intros [u [[<-|Hu] [J1 J2]]]; [lra|].
      rewrite Forall_forall in Fs. specialize (Fs u Hu). lra. }
    destruct (Segment_bool (mkSegment prev (start s))) eqn:B; simpl.
    + pose proof B as B0. apply Segment_bool_iff in B0. simpl in B0.
      split; [|split; [|split]].
      * intros t [g [[<-|Hg] I]]; [now apply First|].
        assert (K : covers (gaps_iter (end_ s) r e) t) by now exists g.
        destruct (Rest t K) as (P & E & NC).
        split; [lra|]. split; assumption.
      * constructor; [exact Sep'|]. rewrite Forall_forall in *.
        intros g Hg. specialize (St g Hg). simpl. lra.
      * constructor; assumption.
      * constructor; [simpl; lra|]. rewrite Forall_forall in *.
        intros g Hg. specialize (St g Hg). lra.
    + pose proof (not_nonempty_gap _ _ B) as NB.
      split; [|split; [|split]].
      * intros t K. destruct (Rest t K) as (P & E & NC).
        split; [lra|]. split; assumption.
      * exact Sep'.
      * exact Ne'.
      * rewrite Forall_forall in *. intros g Hg. specialize (St g Hg). lra.
Qed.

Lemma gaps_avoid (ov : Timeline) (ext : Segment) (t : Q) :
  covers (gaps ov ext) t -> ~ covers ov t.
Proof.
  unfold gaps. rewrite covers_Timeline_mk.
  set (S := support (crop ov (Timeline_mk [ext]))).
  destruct (support_spec _ (crop_is_timeline ov (Timeline_mk [ext])))
    as (CovS & SepS & NeS).
  fold S in CovS, SepS, NeS.
  assert (Ext : forall t0, covers (Timeline_mk [ext]) t0 <-> inside ext t0).
  { intro t0. rewrite covers_Timeline_mk. split.
    - intros [s [[<-|[]] I]]. exact I.
    - intro I. exists ext. split; [now left | exact I]. }
  assert (SupExt : forall t0, covers (support (Timeline_mk [ext])) t0
                              <-> inside ext t0).
  { intro t0. rewrite <- Ext.
    apply (support_spec _ (Timeline_mk_is_timeline [ext])). }
  assert (Within : forall t0, covers S t0 -> inside ext t0).
  { intros t0 H. apply CovS, covers_crop in H. now apply SupExt. }
  assert (Hi : Forall (fun s => end_ s <= end_ ext) S).
  { apply Forall_forall. intros s Hs.
    assert (Ns : start s < end_ s).
    { apply Segment_bool_iff. unfold nonempty in NeS.
      rewrite Forall_forall in NeS. now apply NeS. }
    destruct (Qlt_le_dec (end_ ext) (end_ s)) as [L|L]; [exfalso|exact L].
    destruct (Qmax_case_le (start s) (end_ ext)) as [[K E]|[K E]].
    - assert (I : inside s (end_ ext)) by (split; lra).
      destruct (Within (end_ ext)) as [_ B]; [now exists s | lra].
    - assert (I : inside s (start s)) by (split; lra).
      destruct (Within (start s)) as [_ B]; [now exists s | lra]. }
  assert (Lo : Forall (fun s => start ext <= start s) S).
  { apply Forall_forall. intros s Hs.
    assert (Ns : start s < end_ s).
    { apply Segment_bool_iff. unfold nonempty in NeS.
      rewrite Forall_forall in NeS. now apply NeS. }
    assert (I : inside s (start s)) by (split; lra).
    destruct (Within (start s)) as [B _]; [now exists s | exact B]. }
  destruct (gaps_iter_spec S (start ext) (end_ ext) SepS NeS Hi Lo)
    as (Cov & _).
  intros G O. destruct (Cov t G) as (B1 & B2 & NC). apply NC.
  apply CovS, covers_crop. split; [exact O|]. apply SupExt. now split.
Qed.

(** The speech outside the overlap and the speech inside it share no
    instant. *)
Lemma clean_noisy_disjoint (speech ov : Timeline) (ext : Segment) (t : Q) :
  is_timeline ov ->
  ~ (covers (crop speech (gaps ov ext)) t /\ covers (crop speech ov) t).
Proof.
  intros T [Hc Hn]. apply covers_crop in Hc, Hn.
  destruct Hc as [_ Hc], Hn as [_ Hn].
  apply (support_spec _ T) in Hn.
  assert (TG : is_timeline (gaps ov ext)) by apply Timeline_mk_is_timeline.
  apply (support_spec _ TG) in Hc.
  exact (gaps_avoid ov ext t Hc Hn).
Qed.

Lemma Annotation_crop_inside (h : Annotation) (tl : Timeline)
  (e : Segment * Label * Label) (t : Q) :
  is_timeline tl ->
  In e (Annotation_crop h tl) -> inside (fst (fst e)) t -> covers tl t.
Proof.
  intros T H I. unfold Annotation_crop in H.
  apply in_flat_map in H. destruct H as [x [Hx H]].
  apply in_flat_map in H. destruct H as [u [Hu H]].
  destruct (intersects (fst (fst x)) u && Segment_bool (seg_and (fst (fst x)) u));
    [|destruct H].
  destruct H as [<-|[]]. simpl in I. apply inside_seg_and in I.
  apply (support_spec _ T). exists u. tauto.
Qed.

Section OverlapBlock.
Context {C : Collaborators}.
Variable self : Discrete.DiscreteDiarization.

Lemma overlap_block_run (extent : Segment) (window : SlidingWindow) (n : nat)
  (speech : Timeline) (speech_discrete : Np.Matrix Z)
  (ovl_model : ProtocolFile -> Res Curve) (w w' : World)
  (r : Discrete.Overlap) :
  Discrete.overlap_block self extent window n speech speech_discrete
                         ovl_model w = (Ok r, w') ->
  exists overlap,
    is_timeline overlap
    /\ Discrete.clean_speech r = crop speech (gaps overlap extent)
    /\ Discrete.noisy_speech r = crop speech overlap.
Proof.
  unfold Discrete.overlap_block. unfold bind at 1. intro H.
  destruct (cached_scores "ovl_scores" EvOvl ovl_model w) as [[s|e] wa];
    [|discriminate].
  cbv zeta in H. unfold bind at 1 in H.
  destruct (Discrete.discretize _ _ _ _ _ wa) as [[d|e] wb]; [|discriminate].
  unfold ret in H. inversion H; subst. simpl.
  eexists. split; [|split; reflexivity].
  apply Timeline_mk_is_timeline.
Qed.

End OverlapBlock.

(* ================================================================== *)
(** * Part III. The claims *)
(* ================================================================== *)

(** Closed facts about concrete rationals. *)
Ltac qfact := unfold Qle, Qlt, Qeq; simpl; lia.

(** C1, at an input where the code departs from it: an overlap detector
    is configured and both speech frames are overlap frames.  There are
    speech frames, so the guard of line 390 does not return; the frames
    to be clustered are none, yet [pool] is called, on no vector, and
    the invocation ends with an exception. *)
Lemma clean_speech_empty_is_clustered :
  let ovl_model := fun _ : ProtocolFile =>
    Ok (Fixture.curve [1; 1; 0; 0; 0; 0; 0; 0; 0; 0]) in
  let self := Fixture.discrete [1; 1; 0; 0; 0; 0; 0; 0; 0; 0]
                               (Some [1; 1; 0; 0; 0; 0; 0; 0; 0; 0])
                               Fixture.three_speakers (1 # 2) in
  let run := Discrete.__call__ (C := Fixture.collaborators) self Fixture.fresh in
  (exists fr w1 o w2,
      Discrete.speech_frames (C := Fixture.collaborators) self Fixture.fresh
      = (Ok fr, w1)
      /\ Discrete.speech_indices fr = [0; 1]%nat
      /\ Discrete.overlap_block self (Discrete.extent fr) (Discrete.window fr)
           (length (Discrete.data fr)) (Discrete.speech fr)
           (Discrete.speech_discrete fr) ovl_model w1 = (Ok o, w2)
      /\ Discrete.clean_speech_indices o = [])
  /\ fst run = Raise ValueError
  /\ trace (snd run) = [EvEmb; EvSad; EvOvl; EvPool []].
Proof.
  intros ovl_model self run. split; [|vm_compute; split; reflexivity].
  pose (r1 := Discrete.speech_frames (C := Fixture.collaborators) self
                Fixture.fresh).
  pose (fr := match fst r1 with
              | Ok fr => fr
              | Raise _ =>
                  Discrete.mkFrames (mkSegment 0 0) [] (mkWindow 0 0 0) [] [] []
              end).
  pose (r2 := Discrete.overlap_block (C := Fixture.collaborators) self
                (Discrete.extent fr) (Discrete.window fr)
                (length (Discrete.data fr)) (Discrete.speech fr)
                (Discrete.speech_discrete fr) ovl_model (snd r1)).
  exists fr, (snd r1),
    match fst r2 with
    | Ok o => o
    | Raise _ => Discrete.mkOverlap [] [] [] []
    end, (snd r2).
  repeat split; vm_compute; reflexivity.
Qed.

(** C2, at inputs where the code departs from it: two clean speech
    frames, one noisy frame, and a clustering that gives one cluster,
    then two.  The reassignment step asks [np.argpartition] for
    position min(2, num_clusters) of an axis of num_clusters entries and
    gets ValueError: the frame gets no label and the invocation ends
    with that exception.  With three clusters the same step gives the
    frame its two nearest clusters. *)
Lemma noisy_frame_few_clusters_raises :
  let sad := [1; 1; 1; 0; 0; 0; 0; 0; 0; 0] in
  let ovl := Some [0; 0; 1; 0; 0; 0; 0; 0; 0; 0] in
  let one_cluster :=
    Discrete.__call__ (C := Fixture.collaborators)
      (Fixture.discrete sad ovl Fixture.three_speakers 1) Fixture.fresh in
  let two_clusters :=
    Discrete.__call__ (C := Fixture.collaborators)
      (Fixture.discrete sad ovl Fixture.three_speakers (1 # 2))
      Fixture.fresh in
  (fst one_cluster = Raise ValueError
   /\ trace (snd one_cluster)
      = [EvEmb; EvSad; EvOvl;
         EvPool (C := Fixture.collaborators) [(1, 0); (3 # 5, 4 # 5)]])
  /\ (fst two_clusters = Raise ValueError
      /\ trace (snd two_clusters)
         = [EvEmb; EvSad; EvOvl;
            EvPool (C := Fixture.collaborators) [(1, 0); (3 # 5, 4 # 5)]])
  /\ Discrete.most_similar_clusters (C := Fixture.collaborators)
       [(1, 0); (3 # 5, 4 # 5)] [0; 0]%nat 1 [(0, 1)]
     = Raise ValueError
  /\ Discrete.most_similar_clusters (C := Fixture.collaborators)
       [(1, 0); (3 # 5, 4 # 5)] [0; 1]%nat 2 [(0, 1)]
     = Raise ValueError
  /\ Discrete.most_similar_clusters (C := Fixture.collaborators)
       [(1, 0); (3 # 5, 4 # 5); (0, 1)] [0; 1; 2]%nat 3 [(1, 0)]
     = Ok [[0; 1]%nat].
Proof. vm_compute. repeat split; reflexivity. Qed.

(** C3. When the first extraction on [segment] fails, [get_embedding]
    tries once more, on the segment [ext] that is [0, 0.157] if the
    middle [m] of [segment] has [m - 0.0785 < 0], else
    [D - 0.157, D] if [m + 0.0785 > D] for the duration [D] of the
    recording, else [m - 0.0785, m + 0.0785], which lasts 157 ms and
    has the same middle.  A segment of 50 ms around 5.0 s gives
    [4.9215, 5.0785] in a recording that lasts that long. *)
Theorem retried_segment_cases {C : Collaborators}
  (self : Simple.SimpleDiarization) (segment : Segment) (w : World) :
  Simple.emb_crop self (current_file w) segment = Raise RuntimeError ->
  let m := middle segment in
  let D := f_duration (current_file w) in
  let ext := Simple.extended_segment (current_file w) segment in
  trace (snd (Simple.get_embedding self segment w))
  = trace w ++ [EvCrop segment; EvCrop ext]
  /\ (m - 0.0785 < 0 -> ext = mkSegment 0 0.157)
  /\ (~ m - 0.0785 < 0 -> m + 0.0785 > D -> ext = mkSegment (D - 0.157) D)
  /\ (~ m - 0.0785 < 0 -> ~ m + 0.0785 > D ->
      seg_eq ext (mkSegment (m - 0.0785) (m + 0.0785))
      /\ end_ ext - start ext == 0.157
      /\ middle ext == m)
  /\ (start segment == 4.975 -> end_ segment == 5.025 -> 5.0785 <= D ->
      seg_eq ext (mkSegment 4.9215 5.0785)).
Proof.
  intros Fail m D ext. split; [|split; [|split; [|split]]].
  - rewrite get_embedding_run, Fail. reflexivity.
  - apply extended_segment_low.
  - apply extended_segment_high.
  - intros H1 H2.
    destruct (extended_segment_centered (current_file w) segment H1 H2)
      as [E1 E2].
    fold ext in E1, E2. simpl in E1, E2. fold m in E1, E2.
    repeat split; simpl; try assumption.
    + rewrite E1, E2. lra.
    + unfold middle. rewrite E1, E2. lra.
  - intros Hs He HD.
    assert (Hm : m == 5) by (unfold m, middle; lra).
    destruct (extended_segment_centered (current_file w) segment) as [E1 E2].
    + fold m. lra.
    + fold m D. lra.
    + fold ext in E1, E2. simpl in E1, E2. fold m in E1, E2.
      split; simpl; lra.
Qed.

Lemma retried_segment_witness :
  seg_eq (Simple.extended_segment Fixture.recording (mkSegment 4.975 5.025))
         (mkSegment 4.9215 5.0785).
Proof.
  refine (proj2 (proj2 (proj2 (proj2
    (retried_segment_cases (C := Fixture.collaborators)
       (Fixture.simple [] [] 2 Fixture.crop157)
       (mkSegment 4.975 5.025) Fixture.fresh _)))) _ _ _).
  - vm_compute. reflexivity.
  - simpl. qfact.
  - simpl. qfact.
  - simpl. qfact.
Defined.

(** C4, as the claim states it, fails: a curve of negative mean found
    in [current_file] is used as it is, neither exponentiated nor
    within [0, 1]. *)
Lemma cached_scores_used_as_found :
  exists scores,
    cached_scores (C := Fixture.collaborators) "sad_scores" EvSad
      (fun _ => Ok Fixture.log_scores) Fixture.precomputed
    = (Ok scores, Fixture.precomputed)
    /\ Np.nanmean scores < 0
    /\ scores <> map (map Fixture.exp_like) scores
    /\ ~ all_values probability scores.
Proof.
  exists Fixture.log_scores. split; [reflexivity|]. split; [|split].
  - vm_compute. reflexivity.
  - vm_compute. discriminate.
  - intro H. inversion H as [|row r Hrow _]; subst.
    inversion Hrow as [|v r' [Hv _] _]; subst. revert Hv. qfact.
Qed.

(** C4, amended.  A curve found in [current_file] under its key is used
    as it is, without any call or correction.  Otherwise the detector
    is called once, its curve is exponentiated when its mean is
    negative and left alone when not, and the result is both used and
    stored under the key, so that the next invocation finds it and
    uses the same values.  If the detector gives log-probabilities
    (values at most 0) or probabilities, the values used are
    probabilities; [np.exp] is only assumed to be non-negative, and at
    most 1 on non-positive numbers. *)
Theorem scores_corrected_when_computed {C : Collaborators}
  (key : string) (ev : Event) (model : ProtocolFile -> Res Curve)
  (w : World) :
  (forall x, 0 <= np_exp x) ->
  (forall x, x <= 0 -> np_exp x <= 1) ->
  (forall scores,
      f_scores (current_file w) key = Some scores ->
      cached_scores key ev model w = (Ok scores, w))
  /\ (forall raw,
        f_scores (current_file w) key = None ->
        model (current_file w) = Ok raw ->
        let scores :=
          if Qltb (Np.nanmean raw) 0 then map (map np_exp) raw else raw in
        let w' :=
          mkWorld (store key scores (current_file w)) (trace w ++ [ev]) in
        cached_scores key ev model w = (Ok scores, w')
        /\ cached_scores key ev model w' = (Ok scores, w')
        /\ (all_values (fun v => v <= 0) raw \/ all_values probability raw ->
            all_values probability scores)).
Proof.
  intros Pos Le1. split.
  - intros scores H. now rewrite cached_scores_run, H.
  - intros raw Miss Model scores w'. split; [|split].
    + now rewrite cached_scores_run, Miss, Model.
    + rewrite cached_scores_run. unfold w'. simpl.
      now rewrite String.eqb_refl.
    + apply (corrected_probabilities Pos Le1).
Qed.

Lemma scores_corrected_witness :
  exists scores w',
    cached_scores (C := Fixture.collaborators) "sad_scores" EvSad
      (fun _ => Ok Fixture.log_scores) Fixture.fresh = (Ok scores, w')
    /\ all_values probability scores.
Proof.
  destruct (scores_corrected_when_computed (C := Fixture.collaborators)
              "sad_scores" EvSad (fun _ => Ok Fixture.log_scores)
              Fixture.fresh exp_like_nonneg exp_like_le_1)
    as [_ Miss].
  destruct (Miss Fixture.log_scores eq_refl eq_refl) as (R1 & _ & P).
  eexists. eexists. split; [exact R1|]. apply P. left.
  repeat constructor; qfact.
Defined.

(** C5. With two long segments or more, an embedding for every
    candidate, a dendrogram and one cluster label per long segment, the
    invocation returns an annotation in which every short candidate [s]
    carries exactly one label: that of the long segment [l] of least
    index [i] among those whose embedding is at the least cosine
    distance from the embedding of [s].  The distances are taken to the
    embeddings of the long segments themselves. *)
Theorem short_segment_nearest_long {C : Collaborators}
  (self : Simple.SimpleDiarization) (w w1 : World) (seg : list Segment)
  (emb_long emb_shrt : list Vec) (D : Dendrogram) :
  Simple.candidates self w = (Ok seg, w1) ->
  (2 <= length (Simple.long_segments self seg))%nat ->
  Forall2 (fun s e => embedding self (current_file w1) s = Ok e)
          (Simple.long_segments self seg) emb_long ->
  Forall2 (fun s e => embedding self (current_file w1) s = Ok e)
          (Simple.short_segments self seg) emb_shrt ->
  pool emb_long = Ok D ->
  length (fcluster D (Simple.emb_threshold self))
  = length (Simple.long_segments self seg) ->
  exists ann w2,
    Simple.__call__ self w = (Ok ann, w2)
    /\ forall s, In s seg -> duration s < Simple.emb_duration self ->
       exists (e : Vec) (i : nat) (l : Segment) (c : Z),
         embedding self (current_file w1) s = Ok e
         /\ first_argmin (map (fun a => cosine a e) emb_long) i
         /\ nth_error (Simple.long_segments self seg) i = Some l
         /\ nth_error
              (Simple.labels_of (fcluster D (Simple.emb_threshold self))) i
            = Some c
         /\ In (l, LStr "_", LInt c) ann
         /\ In (s, LStr "_", LInt c) ann
         /\ forall s' trk lab,
              In (s', trk, lab) ann -> seg_eq s' s -> lab = LInt c.
Proof.
  intros Hc L FL FS P Len. destruct (candidates_run self w w1 _ Hc) as [_ T].
  specialize (T seg eq_refl).
  destruct (diarize_succeeds self seg w1 emb_long emb_shrt D T L FL FS P Len)
    as (ann & w2 & Run).
  exists ann, w2. split.
  - unfold Simple.__call__, bind. now rewrite Hc.
  - destruct (diarize_short_segments self seg w1 w2 ann T L Run)
      as (emb_long' & D' & FL' & P' & Each).
    assert (emb_long' = emb_long) as ->
      by exact (Forall2_functional _ _ _ _ FL' FL).
    assert (D' = D) as -> by congruence.
    exact Each.
Qed.

Lemma short_segment_nearest_long_witness :
  exists ann w2,
    Simple.__call__ (C := Fixture.collaborators)
      (Fixture.simple [1; 1; 1; 0; 1; 0; 1; 1; 0; 0] Fixture.no_change 2
                      Fixture.crop_by_start)
      Fixture.fresh = (Ok ann, w2)
    /\ In (mkSegment 6 8, LStr "_", LInt 2) ann
    /\ In (mkSegment 4 5, LStr "_", LInt 2) ann.
Proof.
  pose (self := Fixture.simple [1; 1; 1; 0; 1; 0; 1; 1; 0; 0]
                               Fixture.no_change 2 Fixture.crop_by_start).
  pose (r := Simple.candidates (C := Fixture.collaborators) self Fixture.fresh).
  destruct (short_segment_nearest_long (C := Fixture.collaborators) self
              Fixture.fresh (snd r)
              match fst r with Ok seg => seg | Raise _ => [] end
              [(1, 0); (0, 1)] [(3 # 5, 4 # 5)] 2%nat)
    as (ann & w2 & Run & Each).
  - vm_compute. reflexivity.
  - vm_compute. lia.
  - vm_compute. repeat constructor.
  - vm_compute. repeat constructor.
  - reflexivity.
  - reflexivity.
  - exists ann, w2. split; [exact Run|].
    vm_compute in Run. inversion Run; subst.
    split; [right; left; reflexivity | right; right; left; reflexivity].
Defined.

(** C6. When no candidate segment lasts [emb_duration] or more, the
    invocation ends where the candidates were found (the trace only
    holds calls to the detectors: no embedding is extracted, nothing is
    clustered) and returns one track per candidate, the i-th candidate
    with the i-th label of A, B, C, ...; these labels are pairwise
    distinct. *)
Theorem no_long_segment_singletons {C : Collaborators}
  (self : Simple.SimpleDiarization) (w w1 : World) (seg : list Segment) :
  Simple.candidates self w = (Ok seg, w1) ->
  length (Simple.long_segments self seg) = 0%nat ->
  Simple.__call__ self w
  = (Ok (tracks_of seg (string_labels (length seg))), w1)
  /\ adds detector_event w w1
  /\ NoDup (string_labels (length seg))
  /\ length (tracks_of seg (string_labels (length seg))) = length seg.
Proof.
  intros Hc L. destruct (candidates_run self w w1 _ Hc) as [A T].
  specialize (T seg eq_refl). split; [|split; [exact A|split]].
  - unfold Simple.__call__, bind. rewrite Hc.
    unfold Simple.diarize. cbv zeta. rewrite L. unfold lift. f_equal.
    apply to_annotation_candidates; [exact T|].
    unfold string_labels, string_generator. now rewrite map_map.
  - apply string_labels_NoDup.
  - apply length_tracks_of. unfold string_labels.
    now rewrite length_map, length_seq.
Qed.

Lemma no_long_segment_witness :
  fst (Simple.__call__ (C := Fixture.collaborators)
         (Fixture.simple [1; 1; 0; 1; 0; 1; 1; 0; 0; 0] Fixture.no_change 4
                         Fixture.crop157)
         Fixture.fresh)
  = Ok [(mkSegment 0 2, LStr "_", LStr "A");
        (mkSegment 3 4, LStr "_", LStr "B");
        (mkSegment 5 7, LStr "_", LStr "C")].
Proof.
  pose (self := Fixture.simple [1; 1; 0; 1; 0; 1; 1; 0; 0; 0]
                               Fixture.no_change 4 Fixture.crop157).
  pose (r := Simple.candidates (C := Fixture.collaborators) self Fixture.fresh).
  destruct (no_long_segment_singletons (C := Fixture.collaborators) self
              Fixture.fresh (snd r)
              match fst r with Ok seg => seg | Raise _ => [] end)
    as [H _].
  - vm_compute. reflexivity.
  - vm_compute. reflexivity.
  - fold self. rewrite H. vm_compute. reflexivity.
Defined.

(** C7. When exactly one candidate segment lasts [emb_duration] or
    more, the invocation ends where the candidates were found (nothing
    is extracted or clustered) and returns one track per candidate, all
    of them labelled "A". *)
Theorem one_long_segment_one_cluster {C : Collaborators}
  (self : Simple.SimpleDiarization) (w w1 : World) (seg : list Segment) :
  Simple.candidates self w = (Ok seg, w1) ->
  length (Simple.long_segments self seg) = 1%nat ->
  let ann := tracks_of seg (repeat (LStr "A") (length seg)) in
  Simple.__call__ self w = (Ok ann, w1)
  /\ adds detector_event w w1
  /\ (forall s, In s seg -> In (s, LStr "_", LStr "A") ann)
  /\ (forall e, In e ann -> In (fst (fst e)) seg /\ snd e = LStr "A").
Proof.
  intros Hc L ann. destruct (candidates_run self w w1 _ Hc) as [A T].
  specialize (T seg eq_refl). split; [|split; [exact A|split]].
  - unfold Simple.__call__, bind. rewrite Hc.
    unfold Simple.diarize. cbv zeta. rewrite L. unfold lift. f_equal.
    apply to_annotation_candidates; [exact T|].
    unfold constant_generator.
    induction (length seg) as [|n IH] using nat_ind; [reflexivity|].
    rewrite seq_S, map_app, IH. simpl.
    change (Some (LStr "A") :: nil) with (map (@Some Label) [LStr "A"]).
    rewrite <- map_app. f_equal. now rewrite <- repeat_cons.
  - intros s Hs. destruct (In_nth_error _ _ Hs) as [i Hi].
    apply In_tracks_of. exists i, s, (LStr "A"). repeat split; [exact Hi|].
    apply nth_error_repeat. apply nth_error_Some. congruence.
  - intros e He. split; [now apply In_tracks_of_segment in He|].
    apply In_tracks_of in He. destruct He as (i & s & l & _ & Hl & ->).
    simpl. apply nth_error_In in Hl. now apply repeat_spec in Hl.
Qed.

Lemma one_long_segment_witness :
  fst (Simple.__call__ (C := Fixture.collaborators)
         (Fixture.simple [1; 1; 1; 0; 1; 0; 1; 0; 0; 0] Fixture.no_change 3
                         Fixture.crop157)
         Fixture.fresh)
  = Ok [(mkSegment 0 3, LStr "_", LStr "A");
        (mkSegment 4 5, LStr "_", LStr "A");
        (mkSegment 6 7, LStr "_", LStr "A")].
Proof.
  pose (self := Fixture.simple [1; 1; 1; 0; 1; 0; 1; 0; 0; 0]
                               Fixture.no_change 3 Fixture.crop157).
  pose (r := Simple.candidates (C := Fixture.collaborators) self Fixture.fresh).
  destruct (one_long_segment_one_cluster (C := Fixture.collaborators) self
              Fixture.fresh (snd r)
              match fst r with Ok seg => seg | Raise _ => [] end)
    as [H _].
  - vm_compute. reflexivity.
  - vm_compute. reflexivity.
  - fold self. rewrite H. vm_compute. reflexivity.
Defined.

(** C8. [get_embedding] calls [emb.crop] once; only when that call
    raises RuntimeError does it call again, once, on the extended
    segment.  The extended segment lasts 157 ms, contains the segment
    that failed when that one lies within the recording and lasts
    157 ms at most, and is another segment unless the one that failed
    lasted 157 ms.  If the second call answers, [get_embedding] returns
    the mean of its embeddings: the failure is recovered.  If it
    raises, whatever it raises is the outcome, RuntimeError included:
    there is no third call.  In [__call__], an exception out of the
    extraction of a long or of a short segment is the outcome of the
    invocation, at the state where it was raised; so is an exception
    out of [pool], which is called once. *)
Theorem extraction_retried_once {C : Collaborators}
  (self : Simple.SimpleDiarization) (w w1 : World) (seg : list Segment) :
  Simple.candidates self w = (Ok seg, w1) ->
  (2 <= length (Simple.long_segments self seg))%nat ->
  (forall segment w0,
      let file := current_file w0 in
      let ext := Simple.extended_segment file segment in
      Simple.get_embedding self segment w0 =
      match Simple.emb_crop self file segment with
      | Ok e => (Ok (np_mean e), mkWorld file (trace w0 ++ [EvCrop segment]))
      | Raise RuntimeError =>
          (match Simple.emb_crop self file ext with
           | Ok e => Ok (np_mean e)
           | Raise e => Raise e
           end,
           mkWorld file (trace w0 ++ [EvCrop segment; EvCrop ext]))
      | Raise e => (Raise e, mkWorld file (trace w0 ++ [EvCrop segment]))
      end)
  /\ (forall segment w0,
        let file := current_file w0 in
        let ext := Simple.extended_segment file segment in
        Simple.emb_crop self file segment = Raise RuntimeError ->
        end_ ext - start ext == 0.157
        /\ (0 <= start segment -> end_ segment <= f_duration file ->
            end_ segment - start segment <= 0.157 ->
            start ext <= start segment /\ end_ segment <= end_ ext)
        /\ (~ end_ segment - start segment == 0.157 -> ~ seg_eq ext segment)
        /\ (forall e, Simple.emb_crop self file ext = Ok e ->
              Simple.get_embedding self segment w0
              = (Ok (np_mean e),
                 mkWorld file (trace w0 ++ [EvCrop segment; EvCrop ext])))
        /\ (forall e, Simple.emb_crop self file ext = Raise e ->
              Simple.get_embedding self segment w0
              = (Raise e,
                 mkWorld file (trace w0 ++ [EvCrop segment; EvCrop ext]))))
  /\ (forall e w2,
        for_each (Simple.get_embedding self)
                 (Simple.long_segments self seg) w1 = (Raise e, w2) ->
        Simple.__call__ self w = (Raise e, w2))
  /\ (forall emb_long wa D e w2,
        for_each (Simple.get_embedding self)
                 (Simple.long_segments self seg) w1 = (Ok emb_long, wa) ->
        pool emb_long = Ok D ->
        for_each (Simple.get_embedding self)
                 (Simple.short_segments self seg)
                 (mkWorld (current_file wa) (trace wa ++ [EvPool emb_long]))
        = (Raise e, w2) ->
        Simple.__call__ self w = (Raise e, w2))
  /\ (forall emb_long wa e,
        for_each (Simple.get_embedding self)
                 (Simple.long_segments self seg) w1 = (Ok emb_long, wa) ->
        pool emb_long = Raise e ->
        Simple.__call__ self w
        = (Raise e, mkWorld (current_file wa) (trace wa ++ [EvPool emb_long]))).
Proof.
  intros Hc L. split; [|split; [|split; [|split]]].
  - intros segment w0 file ext. rewrite get_embedding_run. fold file ext.
    destruct (Simple.emb_crop self file segment) as [e|[]]; try reflexivity.
  - intros segment w0 file ext Fail.
    destruct (extended_segment_span file segment) as [Span Within].
    fold ext in Span, Within.
    split; [exact Span|]. split; [exact Within|]. split; [|split].
    + intros N [E1 E2]. apply N. rewrite <- E1, <- E2. exact Span.
    + intros e H. rewrite get_embedding_run. fold file ext.
      rewrite Fail, H. reflexivity.
    + intros e H. rewrite get_embedding_run. fold file ext.
      rewrite Fail, H. reflexivity.
  - intros e w2 H. unfold Simple.__call__, bind at 1. rewrite Hc.
    unfold Simple.diarize. cbv zeta.
    destruct (length (Simple.long_segments self seg)) as [|[|n]]; [lia|lia|].
    unfold bind at 1. now rewrite H.
  - intros emb_long wa D e w2 H1 H2 H3.
    unfold Simple.__call__, bind at 1. rewrite Hc.
    unfold Simple.diarize. cbv zeta.
    destruct (length (Simple.long_segments self seg)) as [|[|n]]; [lia|lia|].
    unfold bind at 1. rewrite H1. unfold bind at 1, call at 1. rewrite H2.
    destruct (Simple.short_segments self seg) as [|s0 rest] eqn:ES.
    + simpl in H3. discriminate.
    + cbn [length]. unfold bind at 1. now rewrite H3.
  - intros emb_long wa e H1 H2.
    unfold Simple.__call__, bind at 1. rewrite Hc.
    unfold Simple.diarize. cbv zeta.
    destruct (length (Simple.long_segments self seg)) as [|[|n]]; [lia|lia|].
    unfold bind at 1. rewrite H1. unfold bind at 1, call at 1. now rewrite H2.
Qed.

Lemma extraction_retried_once_witness :
  (let self := Fixture.simple [1; 1; 1; 0; 1; 0; 1; 1; 0; 0] Fixture.no_change
                              2 Fixture.crop_exact in
   let r := Simple.candidates (C := Fixture.collaborators) self
                              Fixture.fresh in
   let ext := Simple.extended_segment (current_file (snd r))
                                      (mkSegment 0 3) in
   (start ext == 1.4215 /\ end_ ext == 1.5785)
   /\ Simple.get_embedding (C := Fixture.collaborators) self (mkSegment 0 3)
        (snd r)
      = (Ok (1, 0),
         mkWorld (current_file (snd r))
                 (trace (snd r)
                  ++ [EvCrop (C := Fixture.collaborators) (mkSegment 0 3);
                      EvCrop (C := Fixture.collaborators) ext]))
   /\ exists ann,
        fst (Simple.__call__ (C := Fixture.collaborators) self Fixture.fresh)
        = Ok ann
        /\ length ann = 3%nat)
  /\ fst (Simple.__call__ (C := Fixture.collaborators)
            (Fixture.simple [1; 1; 1; 0; 1; 0; 1; 1; 0; 0] Fixture.no_change 2
                            Fixture.crop_fails)
            Fixture.fresh)
     = Raise RuntimeError.
Proof.
  split.
  - intros self r ext.
    destruct (extraction_retried_once (C := Fixture.collaborators) self
                Fixture.fresh (snd r)
                match fst r with Ok seg => seg | Raise _ => [] end)
      as (_ & Retry & _).
    + vm_compute. reflexivity.
    + vm_compute. lia.
    + pose proof (Retry (mkSegment 0 3) (snd r)) as R. cbv zeta in R.
      destruct R as (_ & _ & _ & Recovers & _); [vm_compute; reflexivity|].
      split; [split; vm_compute; reflexivity|].
      split; [|eexists; split; vm_compute; reflexivity].
      apply (Recovers [(1, 0)]). vm_compute. reflexivity.
  - pose (self := Fixture.simple [1; 1; 1; 0; 1; 0; 1; 1; 0; 0]
                                 Fixture.no_change 2 Fixture.crop_fails).
    pose (r := Simple.candidates (C := Fixture.collaborators) self
                                 Fixture.fresh).
    pose (r2 := for_each (C := Fixture.collaborators)
                  (Simple.get_embedding self)
                  (Simple.long_segments self
                     match fst r with Ok seg => seg | Raise _ => [] end)
                  (snd r)).
    assert (H : Simple.__call__ (C := Fixture.collaborators) self Fixture.fresh
                = (Raise RuntimeError, snd r2)).
    { refine (proj1 (proj2 (proj2
        (extraction_retried_once (C := Fixture.collaborators) self
           Fixture.fresh (snd r)
           match fst r with Ok seg => seg | Raise _ => [] end _ _)))
        RuntimeError (snd r2) _).
      - vm_compute. reflexivity.
      - vm_compute. lia.
      - vm_compute. reflexivity. }
    fold self. rewrite H. reflexivity.
Defined.

(** C9. A segment of the split speech regions is a candidate exactly
    when its duration is greater than min(0.1, seg_min_duration); with
    seg_min_duration >= 0, no candidate has duration zero. *)
Theorem candidate_iff_long_enough {C : Collaborators}
  (self : Simple.SimpleDiarization) (w w1 : World) (tl : Timeline) :
  Simple.speech_turns self w = (Ok tl, w1) ->
  0 <= Simple.seg_min_duration self ->
  exists seg,
    Simple.candidates self w = (Ok seg, w1)
    /\ (forall s, In s seg <->
                  In s tl /\ Qmin 0.1 (Simple.seg_min_duration self) < duration s)
    /\ (forall s, duration s == 0 -> ~ In s seg).
Proof.
  intros H Pos.
  exists (filter
            (fun s => Qltb (Qmin (1 # 10) (Simple.seg_min_duration self))
                           (duration s)) tl).
  split; [|split].
  - unfold Simple.candidates, bind. now rewrite H.
  - intro s. rewrite filter_In, Qltb_iff. reflexivity.
  - intros s Z. rewrite filter_In, Qltb_iff. intros [_ K].
    destruct (Qmin_case_le (1 # 10) (Simple.seg_min_duration self))
      as [[_ E]|[_ E]]; rewrite E in K; lra.
Qed.

Lemma candidate_iff_long_enough_witness :
  exists seg w1,
    Simple.candidates (C := Fixture.collaborators)
      (Fixture.simple [1; 1; 0; 1; 0; 1; 1; 0; 0; 0] Fixture.no_change 4
                      Fixture.crop157)
      Fixture.fresh = (Ok seg, w1)
    /\ length seg = 3%nat
    /\ forall s, duration s == 0 -> ~ In s seg.
Proof.
  pose (self := Fixture.simple [1; 1; 0; 1; 0; 1; 1; 0; 0; 0]
                               Fixture.no_change 4 Fixture.crop157).
  pose (r := Simple.speech_turns (C := Fixture.collaborators) self
               Fixture.fresh).
  destruct (candidate_iff_long_enough (C := Fixture.collaborators) self
              Fixture.fresh (snd r)
              match fst r with Ok tl => tl | Raise _ => [] end)
    as [seg [H1 [H2 H3]]].
  - vm_compute. reflexivity.
  - simpl. qfact.
  - exists seg, (snd r). split; [exact H1|]. split; [|exact H3].
    vm_compute in H1. inversion H1. reflexivity.
Defined.

(** C10. The timelines [clean_speech] and [noisy_speech] that the
    overlap block computes share no instant; hence no track of an
    annotation cropped to [clean_speech] shares an instant with a track
    of an annotation cropped to [noisy_speech], which is how the two
    annotations merged at line 470 are made. *)
Theorem clean_and_noisy_speech_disjoint {C : Collaborators}
  (self : Discrete.DiscreteDiarization) (extent : Segment)
  (window : SlidingWindow) (n : nat) (speech : Timeline)
  (speech_discrete : Np.Matrix Z) (ovl_model : ProtocolFile -> Res Curve)
  (w w' : World) (r : Discrete.Overlap) :
  Discrete.overlap_block self extent window n speech speech_discrete
                         ovl_model w = (Ok r, w') ->
  (forall t, ~ (covers (Discrete.clean_speech r) t
                /\ covers (Discrete.noisy_speech r) t))
  /\ (forall hypothesis noisy_hypothesis e e' t,
        In e (Annotation_crop hypothesis (Discrete.clean_speech r)) ->
        In e' (Annotation_crop noisy_hypothesis (Discrete.noisy_speech r)) ->
        ~ (inside (fst (fst e)) t /\ inside (fst (fst e')) t)).
Proof.
  intro H. destruct (overlap_block_run self _ _ _ _ _ _ _ _ _ H)
    as (overlap & T & Ec & En).
  assert (D : forall t, ~ (covers (Discrete.clean_speech r) t
                           /\ covers (Discrete.noisy_speech r) t)).
  { intro t. rewrite Ec, En. now apply clean_noisy_disjoint. }
  split; [exact D|].
  intros h h' e e' t He He' [I I']. apply (D t). split.
  - apply (Annotation_crop_inside h _ e); [|exact He|exact I].
    rewrite Ec. apply crop_is_timeline.
  - apply (Annotation_crop_inside h' _ e'); [|exact He'|exact I'].
    rewrite En. apply crop_is_timeline.
Qed.

Lemma clean_and_noisy_speech_witness :
  exists r w',
    Discrete.overlap_block (C := Fixture.collaborators)
      (Fixture.discrete [1; 1; 1; 0; 0; 0; 0; 0; 0; 0]
                        (Some [0; 0; 1; 0; 0; 0; 0; 0; 0; 0])
                        Fixture.three_speakers (1 # 2))
      (mkSegment 0 10) (mkWindow 0 1 1) 10
      [mkSegment 0 1; mkSegment 1 2; mkSegment 2 3]
      (map (fun x => [x]) [1; 1; 1; 0; 0; 0; 0; 0; 0; 0]%Z)
      (fun _ => Ok (Fixture.curve [0; 0; 1; 0; 0; 0; 0; 0; 0; 0]))
      Fixture.fresh = (Ok r, w')
    /\ Discrete.clean_speech r = [mkSegment 0 1; mkSegment 1 2]
    /\ Discrete.noisy_speech r = [mkSegment 2 3]
    /\ forall t, ~ (covers (Discrete.clean_speech r) t
                    /\ covers (Discrete.noisy_speech r) t).
Proof.
  pose (self := Fixture.discrete [1; 1; 1; 0; 0; 0; 0; 0; 0; 0]
                                 (Some [0; 0; 1; 0; 0; 0; 0; 0; 0; 0])
                                 Fixture.three_speakers (1 # 2)).
  pose (run := Discrete.overlap_block (C := Fixture.collaborators) self
                 (mkSegment 0 10) (mkWindow 0 1 1) 10
                 [mkSegment 0 1; mkSegment 1 2; mkSegment 2 3]
                 (map (fun x => [x]) [1; 1; 1; 0; 0; 0; 0; 0; 0; 0]%Z)
                 (fun _ => Ok (Fixture.curve [0; 0; 1; 0; 0; 0; 0; 0; 0; 0]))
                 Fixture.fresh).
  pose (r := match fst run with
             | Ok r => r
             | Raise _ => Discrete.mkOverlap [] [] [] []
             end).
  assert (H : run = (Ok r, snd run)) by (vm_compute; reflexivity).
  exists r, (snd run). split; [exact H|].
  split; [vm_compute; reflexivity|]. split; [vm_compute; reflexivity|].
  exact (proj1 (clean_and_noisy_speech_disjoint (C := Fixture.collaborators)
                  self _ _ _ _ _ _ _ _ r H)).
Defined.

(* ================================================================== *)
(** * Part IV. Further lemmas *)
(* ================================================================== *)

(* ------------------------------------------------------------------ *)
(** ** Runs and the relations they respect *)
(* ------------------------------------------------------------------ *)

Section Respects.
Context {C : Collaborators}.
Variable R : World -> World -> Prop.
Hypothesis R_refl : forall w, R w w.
Hypothesis R_trans : forall a b c, R a b -> R b c -> R a c.

Lemma respects_ret {A} (a : A) : respects R (ret a).
Proof. intros w r w' H. inversion H; subst. apply R_refl. Qed.

Lemma respects_lift {A} (x : Res A) : respects R (lift x).
Proof. intros w r w' H. inversion H; subst. apply R_refl. Qed.

Lemma respects_get_file : respects R get_file.
Proof. intros w r w' H. inversion H; subst. apply R_refl. Qed.

Lemma respects_bind {A B} (m : Exec A) (k : A -> Exec B) :
  respects R m -> (forall a, respects R (k a)) -> respects R (bind m k).
Proof.
  intros Hm Hk w r w' H. unfold bind in H.
  destruct (m w) as [[a|e] wa] eqn:E.
  - apply R_trans with wa; [exact (Hm _ _ _ E) | exact (Hk a _ _ _ H)].
  - inversion H; subst. exact (Hm _ _ _ E).
Qed.

Lemma respects_try {A} (body handler : Exec A) :
  respects R body -> respects R handler ->
  respects R (try_except_RuntimeError body handler).
Proof.
  intros Hb Hh w r w' H. unfold try_except_RuntimeError in H.
  destruct (body w) as [[a|[]] wa] eqn:E;
    try (inversion H; subst; exact (Hb _ _ _ E)).
  apply R_trans with wa; [exact (Hb _ _ _ E) | exact (Hh _ _ _ H)].
Qed.

Lemma respects_for_each {A B} (f : A -> Exec B) (l : list A) :
  (forall x, respects R (f x)) -> respects R (for_each f l).
Proof.
  intro Hf. induction l as [|x r IH]; simpl.
  - apply respects_ret.
  - apply respects_bind; [apply Hf|]. intro y.
    apply respects_bind; [exact IH|]. intro ys. apply respects_ret.
Qed.

End Respects.

(* ------------------------------------------------------------------ *)
(** ** What a run does to the file *)
(* ------------------------------------------------------------------ *)

Lemma file_extends_refl (f : ProtocolFile) : file_extends f f.
Proof. repeat split; auto. Qed.

Lemma file_extends_trans (f g h : ProtocolFile) :
  file_extends f g -> file_extends g h -> file_extends f h.
Proof.
  intros (U1 & D1 & S1) (U2 & D2 & S2). repeat split; try congruence. auto.
Qed.

Lemma same_outside_refl (keys : list string) (f : ProtocolFile) :
  same_outside keys f f.
Proof. intros k _. reflexivity. Qed.

Lemma same_outside_trans (keys : list string) (f g h : ProtocolFile) :
  same_outside keys f g -> same_outside keys g h -> same_outside keys f h.
Proof. intros H1 H2 k Hk. now rewrite (H2 k Hk), (H1 k Hk). Qed.

Section FileOfRuns.
Context {C : Collaborators}.

Lemma keeps_file_refl (w : World) : keeps_file w w.
Proof. reflexivity. Qed.

Lemma keeps_file_trans (a b c : World) :
  keeps_file a b -> keeps_file b c -> keeps_file a c.
Proof. unfold keeps_file. congruence. Qed.

Lemma caches_refl (keys : list string) (w : World) : caches keys w w.
Proof. split; [apply file_extends_refl | apply same_outside_refl]. Qed.

Lemma caches_trans (keys : list string) (a b c : World) :
  caches keys a b -> caches keys b c -> caches keys a c.
Proof.
  intros [E1 S1] [E2 S2]. split.
  - now apply file_extends_trans with (current_file b).
  - now apply same_outside_trans with (current_file b).
Qed.

Lemma keeps_file_caches (keys : list string) (w w' : World) :
  keeps_file w w' -> caches keys w w'.
Proof. unfold keeps_file. intro H. unfold caches. rewrite H. apply caches_refl. Qed.

Lemma respects_weaken {A} (R R' : World -> World -> Prop) (m : Exec A) :
  (forall w w', R w w' -> R' w w') -> respects R m -> respects R' m.
Proof. intros H Hm w r w' E. apply H. exact (Hm _ _ _ E). Qed.

Lemma call_keeps_file {A} (ev : Event) (f : ProtocolFile -> Res A) :
  respects keeps_file (call ev f).
Proof. intros w r w' H. unfold call in H. inversion H; subst. reflexivity. Qed.

Lemma cached_scores_caches (key : string) (ev : Event)
  (model : ProtocolFile -> Res Curve) (keys : list string) :
  In key keys -> respects (caches keys) (cached_scores key ev model).
Proof.
  intros Hk w r w' H. rewrite cached_scores_run in H.
  destruct (f_scores (current_file w) key) eqn:E.
  - inversion H; subst. apply caches_refl.
  - destruct (model (current_file w)); inversion H; subst;
      [|apply keeps_file_caches; reflexivity].
    split; simpl.
    + repeat split; simpl; try reflexivity. intros k s Hs.
      destruct (String.eqb_spec k key) as [->|N]; [congruence | exact Hs].
    + intros k Nk. simpl. destruct (String.eqb_spec k key) as [->|N];
        [contradiction | reflexivity].
Qed.

End FileOfRuns.

Section FileOfSimple.
Context {C : Collaborators}.
Variable self : Simple.SimpleDiarization.

Lemma get_embedding_keeps_file (segment : Segment) :
  respects keeps_file (Simple.get_embedding self segment).
Proof.
  unfold Simple.get_embedding.
  apply (respects_bind _ keeps_file_trans).
  - apply (respects_try _ keeps_file_trans).
    + apply call_keeps_file.
    + apply (respects_bind _ keeps_file_trans).
      * apply (respects_get_file _ keeps_file_refl).
      * intro f. apply call_keeps_file.
  - intro e. apply (respects_ret _ keeps_file_refl).
Qed.

Lemma diarize_keeps_file (seg : list Segment) :
  respects keeps_file (Simple.diarize self seg).
Proof.
  unfold Simple.diarize. cbv zeta.
  destruct (length (Simple.long_segments self seg)) as [|[|n]];
    try apply (respects_lift _ keeps_file_refl).
  apply (respects_bind _ keeps_file_trans).
  { apply (respects_for_each _ keeps_file_refl keeps_file_trans).
    apply get_embedding_keeps_file. }
  intro emb_long. apply (respects_bind _ keeps_file_trans).
  { apply call_keeps_file. }
  intro Z. destruct (length (Simple.short_segments self seg));
    [apply (respects_lift _ keeps_file_refl)|].
  apply (respects_bind _ keeps_file_trans).
  { apply (respects_for_each _ keeps_file_refl keeps_file_trans).
    apply get_embedding_keeps_file. }
  intro emb_shrt.
  repeat (apply (respects_bind _ keeps_file_trans);
          [apply (respects_lift _ keeps_file_refl) | intro]).
  apply (respects_ret _ keeps_file_refl).
Qed.

Lemma speech_turns_caches :
  respects (caches simple_keys) (Simple.speech_turns self).
Proof.
  unfold Simple.speech_turns.
  apply (respects_bind _ (caches_trans _)).
  { apply cached_scores_caches. now left. }
  intro s1. apply (respects_bind _ (caches_trans _)).
  { apply cached_scores_caches. right. now left. }
  intro s2. apply (respects_ret _ (caches_refl _)).
Qed.

Lemma candidates_caches :
  respects (caches simple_keys) (Simple.candidates self).
Proof.
  unfold Simple.candidates.
  apply (respects_bind _ (caches_trans _)).
  - apply speech_turns_caches.
  - intro tl. apply (respects_ret _ (caches_refl _)).
Qed.

Lemma simple_call_caches :
  respects (caches simple_keys) (Simple.__call__ self).
Proof.
  unfold Simple.__call__.
  apply (respects_bind _ (caches_trans _)).
  - apply candidates_caches.
  - intro seg. eapply respects_weaken; [|apply diarize_keeps_file].
    intros w w'. apply keeps_file_caches.
Qed.

End FileOfSimple.

Section FileOfDiscrete.
Context {C : Collaborators}.
Variable self : Discrete.DiscreteDiarization.

Lemma discretize_keeps_file (tl : Timeline) (name : string) (extent : Segment)
  (window : SlidingWindow) (n : nat) :
  respects keeps_file (Discrete.discretize tl name extent window n).
Proof.
  unfold Discrete.discretize.
  apply (respects_bind _ keeps_file_trans).
  - apply (respects_lift _ keeps_file_refl).
  - intro a. apply (respects_ret _ keeps_file_refl).
Qed.

Lemma clustering_keeps_file (fr : Discrete.Frames)
  (o : option Discrete.Overlap) :
  respects keeps_file (Discrete.clustering self fr o).
Proof.
  unfold Discrete.clustering. cbv zeta.
  apply (respects_bind _ keeps_file_trans);
    [apply (respects_lift _ keeps_file_refl) | intro X].
  apply (respects_bind _ keeps_file_trans);
    [apply call_keeps_file | intro dendrogram].
  apply (respects_bind _ keeps_file_trans);
    [apply (respects_lift _ keeps_file_refl) | intro top].
  destruct o as [r|]; [|apply (respects_ret _ keeps_file_refl)].
  repeat (apply (respects_bind _ keeps_file_trans);
          [apply (respects_lift _ keeps_file_refl) | intro]).
  apply (respects_ret _ keeps_file_refl).
Qed.

Lemma speech_frames_caches :
  respects (caches discrete_keys) (Discrete.speech_frames self).
Proof.
  unfold Discrete.speech_frames.
  apply (respects_bind _ (caches_trans _));
    [apply (respects_get_file _ (caches_refl _)) | intro file].
  cbv zeta.
  apply (respects_bind _ (caches_trans _)).
  { eapply respects_weaken; [|apply call_keeps_file].
    intros w w'. apply keeps_file_caches. }
  intro e. apply (respects_bind _ (caches_trans _)).
  { apply cached_scores_caches. now left. }
  intro s. apply (respects_bind _ (caches_trans _)).
  { eapply respects_weaken; [|apply discretize_keeps_file].
    intros w w'. apply keeps_file_caches. }
  intro d. apply (respects_ret _ (caches_refl _)).
Qed.

Lemma overlap_block_caches (extent : Segment) (window : SlidingWindow)
  (n : nat) (speech : Timeline) (speech_discrete : Np.Matrix Z)
  (ovl_model : ProtocolFile -> Res Curve) :
  respects (caches discrete_keys)
    (Discrete.overlap_block self extent window n speech speech_discrete
                            ovl_model).
Proof.
  unfold Discrete.overlap_block.
  apply (respects_bind _ (caches_trans _)).
  { apply cached_scores_caches. right. now left. }
  intro s. cbv zeta.
  apply (respects_bind _ (caches_trans _)).
  { eapply respects_weaken; [|apply discretize_keeps_file].
    intros w w'. apply keeps_file_caches. }
  intro d. apply (respects_ret _ (caches_refl _)).
Qed.

Lemma discrete_call_caches :
  respects (caches discrete_keys) (Discrete.__call__ self).
Proof.
  unfold Discrete.__call__.
  apply (respects_bind _ (caches_trans _));
    [apply speech_frames_caches | intro fr].
  destruct (Nat.eqb (length (Discrete.speech_indices fr)) 0);
    [apply (respects_ret _ (caches_refl _))|].
  apply (respects_bind _ (caches_trans _)).
  - destruct (Discrete.ovl self) as [m|]; [|apply (respects_ret _ (caches_refl _))].
    apply (respects_bind _ (caches_trans _));
      [apply overlap_block_caches | intro r; apply (respects_ret _ (caches_refl _))].
  - intro o. eapply respects_weaken; [|apply clustering_keeps_file].
    intros w w'. apply keeps_file_caches.
Qed.

End FileOfDiscrete.

(* ------------------------------------------------------------------ *)
(** ** Curves found again *)
(* ------------------------------------------------------------------ *)

Section Reuse.
Context {C : Collaborators}.

Lemma cached_scores_hit (key : string) (ev : Event)
  (model : ProtocolFile -> Res Curve) (w : World) (s : Curve) :
  f_scores (current_file w) key = Some s ->
  cached_scores key ev model w = (Ok s, w).
Proof. intro H. now rewrite cached_scores_run, H. Qed.

Lemma cached_scores_stored (key : string) (ev : Event)
  (model : ProtocolFile -> Res Curve) (w w' : World) (s : Curve) :
  cached_scores key ev model w = (Ok s, w') ->
  f_scores (current_file w') key = Some s.
Proof.
  rewrite cached_scores_run.
  destruct (f_scores (current_file w) key) eqn:E.
  - intro H. inversion H; subst. exact E.
  - destruct (model (current_file w)); intro H; inversion H; subst.
    simpl. now rewrite String.eqb_refl.
Qed.

Variable self : Simple.SimpleDiarization.

(** The speech turns are computed from the two curves that the file
    holds afterwards. *)
Lemma speech_turns_result (w w1 : World) (tl : Timeline) :
  Simple.speech_turns self w = (Ok tl, w1) ->
  exists sad_scores scd_scores,
    f_scores (current_file w1) "sad_scores" = Some sad_scores
    /\ f_scores (current_file w1) "scd_scores" = Some scd_scores
    /\ tl = crop (Simple.scd_peak_ self scd_scores
                                   (Simple.scd_change_index_ self))
                 (Simple.sad_binarize_ self sad_scores
                                       (Simple.sad_speech_index_ self)).
Proof.
  unfold Simple.speech_turns, bind. intro H.
  destruct (cached_scores "sad_scores" EvSad (Simple.sad self) w)
    as [[s1|e1] wa] eqn:E1; [|discriminate].
  destruct (cached_scores "scd_scores" EvScd (Simple.scd self) wa)
    as [[s2|e2] wb] eqn:E2; [|discriminate].
  unfold ret in H. inversion H; subst. exists s1, s2.
  split; [|split; [|reflexivity]].
  - pose proof (cached_scores_stored _ _ _ _ _ _ E1) as K.
    destruct (cached_scores_caches "scd_scores" EvScd (Simple.scd self)
                ["scd_scores"%string] (or_introl eq_refl) _ _ _ E2)
      as [(_ & _ & Ext) _].
    now apply Ext.
  - exact (cached_scores_stored _ _ _ _ _ _ E2).
Qed.

(** With both curves in the file, the speech turns are found without
    any call, whatever the pipeline. *)
Lemma speech_turns_from_cache (w : World) (sad_scores scd_scores : Curve) :
  f_scores (current_file w) "sad_scores" = Some sad_scores ->
  f_scores (current_file w) "scd_scores" = Some scd_scores ->
  Simple.speech_turns self w
  = (Ok (crop (Simple.scd_peak_ self scd_scores
                                (Simple.scd_change_index_ self))
              (Simple.sad_binarize_ self sad_scores
                                    (Simple.sad_speech_index_ self))),
     w).
Proof.
  intros H1 H2. unfold Simple.speech_turns, bind.
  rewrite (cached_scores_hit _ _ _ _ _ H1), (cached_scores_hit _ _ _ _ _ H2).
  reflexivity.
Qed.

End Reuse.

(* ------------------------------------------------------------------ *)
(** ** The tracks of the segment-level annotation *)
(* ------------------------------------------------------------------ *)

Lemma filter_partition_perm {A} (f : A -> bool) (l : list A) :
  Permutation (filter f l ++ filter (fun x => negb (f x)) l) l.
Proof.
  induction l as [|x r IH]; simpl; [constructor|].
  destruct (f x); simpl.
  - now constructor.
  - apply Permutation_sym. apply Permutation_cons_app. now apply Permutation_sym.
Qed.

Lemma tracks_of_app (tl tl' : list Segment) (labs labs' : list Label) :
  length labs = length tl ->
  tracks_of (tl ++ tl') (labs ++ labs') = tracks_of tl labs ++ tracks_of tl' labs'.
Proof.
  unfold tracks_of. revert labs.
  induction tl as [|s r IH]; intros [|l labs] H; simpl in *;
    try discriminate; [reflexivity|].
  f_equal. apply IH. lia.
Qed.

Lemma tracks_of_track (tl : list Segment) (labs : list Label)
  (e : Segment * Label * Label) :
  In e (tracks_of tl labs) -> snd (fst e) = LStr "_".
Proof.
  intro H. apply In_tracks_of in H. now destruct H as (i & s & l & _ & _ & ->).
Qed.

Section Tracks.
Context {C : Collaborators}.
Variable self : Simple.SimpleDiarization.

Lemma long_short_perm (seg : list Segment) :
  Permutation (Simple.long_segments self seg ++ Simple.short_segments self seg)
              seg.
Proof. apply filter_partition_perm. Qed.

Lemma no_short_all_long (seg : list Segment) :
  Simple.short_segments self seg = [] -> Simple.long_segments self seg = seg.
Proof.
  intro H. pose proof (long_short_perm seg) as P. rewrite H, app_nil_r in P.
  unfold Simple.long_segments in *.
  apply forallb_filter_id. apply forallb_forall. intros s Hs.
  apply (Permutation_in _ (Permutation_sym P)) in Hs.
  now apply filter_In in Hs.
Qed.

(** The annotation of a successful run of lines 187-240, by the number
    of long segments. *)
Lemma diarize_tracks (seg : list Segment) (w w' : World) (ann : Annotation) :
  is_timeline seg ->
  Simple.diarize self seg w = (Ok ann, w') ->
  (length (Simple.long_segments self seg) = 0%nat
   /\ ann = tracks_of seg (string_labels (length seg)))
  \/ (length (Simple.long_segments self seg) = 1%nat
      /\ ann = tracks_of seg (repeat (LStr "A") (length seg)))
  \/ ((2 <= length (Simple.long_segments self seg))%nat
      /\ exists emb_long D labs_long labs_shrt,
           Forall2 (fun s e => embedding self (current_file w) s = Ok e)
                   (Simple.long_segments self seg) emb_long
           /\ pool emb_long = Ok D
           /\ ann = tracks_of (Simple.long_segments self seg) labs_long
                    ++ tracks_of (Simple.short_segments self seg) labs_shrt
           /\ length labs_long = length (Simple.long_segments self seg)
           /\ length labs_shrt = length (Simple.short_segments self seg)
           /\ forall i, (i < length (Simple.long_segments self seg))%nat ->
                nth_error labs_long i
                = option_map LInt
                    (nth_error
                       (Simple.labels_of
                          (fcluster D (Simple.emb_threshold self))) i)).
Proof.
  intros T H.
  destruct (length (Simple.long_segments self seg)) as [|[|n]] eqn:EL.
  - left. split; [reflexivity|]. unfold Simple.diarize in H. cbv zeta in H.
    rewrite EL in H. unfold lift in H.
    rewrite (to_annotation_candidates seg string_generator
               (string_labels (length seg)) T) in H.
    + now inversion H.
    + unfold string_labels, string_generator. now rewrite map_map.
  - right. left. split; [reflexivity|]. unfold Simple.diarize in H.
    cbv zeta in H. rewrite EL in H. unfold lift in H.
    rewrite (to_annotation_candidates seg (constant_generator "A")
               (repeat (LStr "A") (length seg)) T) in H.
    + now inversion H.
    + unfold constant_generator. clear.
      induction (length seg) as [|k IH]; [reflexivity|].
      rewrite seq_S, map_app, IH. simpl.
      change (Some (LStr "A") :: nil) with (map (@Some Label) [LStr "A"]).
      rewrite <- map_app. f_equal. now rewrite <- repeat_cons.
  - right. right.
    assert (L : (2 <= length (Simple.long_segments self seg))%nat) by lia.
    rewrite <- EL. split; [exact L|].
    destruct (diarize_general self seg w w' ann L H)
      as (emb_long & D & wa & E1 & E2 & K).
    destruct (for_each_get_embedding self _ _ _ _ E1) as (Fa & _ & FL & _).
    specialize (FL emb_long eq_refl).
    assert (TL : is_timeline (Simple.long_segments self seg))
      by now apply filter_is_timeline.
    assert (TS : is_timeline (Simple.short_segments self seg))
      by now apply filter_is_timeline.
    exists emb_long, D. cbv zeta in K.
    destruct K as [[ES EA]|(emb_shrt & wc & nearest & cluster_shrt & long & shrt
                            & E3 & E4 & E5 & E6 & E7 & ->)].
    + rewrite <- (no_short_all_long seg ES) in EA at 1.
      destruct (to_annotation_inv _ _ _ TL EA) as (labs & -> & Len & G).
      exists labs, []. rewrite ES.
      split; [exact FL|]. split; [exact E2|].
      split; [unfold tracks_of at 2; simpl; now rewrite app_nil_r|].
      split; [exact Len|]. split; [reflexivity|].
      intros i Hi. rewrite <- (G i Hi). reflexivity.
    + destruct (to_annotation_inv _ _ _ TL E6) as (labsL & -> & LenL & GL).
      destruct (to_annotation_inv _ _ _ TS E7) as (labsS & -> & LenS & GS).
      exists labsL, labsS.
      split; [exact FL|]. split; [exact E2|]. split.
      * apply Annotation_update_fresh.
        -- apply Forall_forall. intros x Hx. apply In_tracks_of_segment in Hx.
           destruct TS as [_ N]. rewrite Forall_forall in N. now apply N.
        -- rewrite tracks_of_segments by exact LenS.
           apply sorted_NoDupA. now destruct TS.
        -- intros x x' Hx Hx'. apply In_tracks_of_segment in Hx, Hx'.
           now apply (long_not_short self seg).
      * split; [exact LenL|]. split; [exact LenS|].
        intros i Hi. rewrite <- (GL i Hi). reflexivity.
Qed.

End Tracks.

Section Output.
Context {C : Collaborators}.
Variable self : Simple.SimpleDiarization.

Lemma diarize_segments (seg : list Segment) (w w' : World) (ann : Annotation) :
  is_timeline seg ->
  Simple.diarize self seg w = (Ok ann, w') ->
  Permutation (map (fun e => fst (fst e)) ann) seg
  /\ forall e, In e ann -> snd (fst e) = LStr "_".
Proof.
  intros T H.
  destruct (diarize_tracks self seg w w' ann T H)
    as [[_ ->]|[[_ ->]|[_ (el & D & lL & lS & _ & _ & -> & LL & LS & _)]]].
  - split; [|intros e; apply tracks_of_track].
    rewrite tracks_of_segments; [reflexivity|].
    unfold string_labels. now rewrite length_map, length_seq.
  - split; [|intros e; apply tracks_of_track].
    rewrite tracks_of_segments; [reflexivity | apply repeat_length].
  - split.
    + rewrite map_app, !tracks_of_segments by assumption.
      apply long_short_perm.
    + intros e He. apply in_app_or in He.
      destruct He as [He|He]; now apply tracks_of_track in He.
Qed.

Lemma call_candidates (w w2 : World) (ann : Annotation) :
  Simple.__call__ self w = (Ok ann, w2) ->
  exists seg w1,
    Simple.candidates self w = (Ok seg, w1)
    /\ Simple.diarize self seg w1 = (Ok ann, w2).
Proof.
  unfold Simple.__call__, bind. intro H.
  destruct (Simple.candidates self w) as [[seg|e] w1]; [|discriminate].
  now exists seg, w1.
Qed.

End Output.

(* ------------------------------------------------------------------ *)
(** ** The calls of the frame-level pipeline *)
(* ------------------------------------------------------------------ *)

Section DiscreteCalls.
Context {C : Collaborators}.
Variable self : Discrete.DiscreteDiarization.

Lemma cached_scores_trace (key : string) (ev : Event)
  (model : ProtocolFile -> Res Curve) (w w' : World) (r : Res Curve) :
  cached_scores key ev model w = (r, w') ->
  exists a, trace w' = trace w ++ a
            /\ (a = [] \/ a = [ev] /\ f_scores (current_file w) key = None).
Proof.
  rewrite cached_scores_run. intro H.
  destruct (f_scores (current_file w) key) as [s|] eqn:E.
  - inversion H; subst. exists []. rewrite app_nil_r. tauto.
  - exists [ev]. destruct (model (current_file w)); inversion H; subst; simpl;
      tauto.
Qed.

Lemma discretize_world (tl : Timeline) (name : string) (extent : Segment)
  (window : SlidingWindow) (n : nat) (w w' : World) (r : Res (Np.Matrix Z)) :
  Discrete.discretize tl name extent window n w = (r, w') -> w' = w.
Proof.
  unfold Discrete.discretize, bind, lift, ret. intro H.
  destruct (to_annotation tl (constant_generator name)); now inversion H.
Qed.

Lemma speech_frames_trace (w w1 : World) (r : Res Discrete.Frames) :
  Discrete.speech_frames self w = (r, w1) ->
  exists a, trace w1 = trace w ++ EvEmb :: a
            /\ (a = [] \/ a = [EvSad]
                          /\ f_scores (current_file w) "sad_scores" = None).
Proof.
  unfold Discrete.speech_frames. unfold bind at 1, get_file at 1.
  unfold bind at 1, call at 1. intro H.
  destruct (Discrete.emb self (current_file w)) as [e|x].
  - cbv zeta in H. unfold bind at 1 in H.
    destruct (cached_scores _ _ _ _) as [[s|x] wa] eqn:E.
    + unfold bind at 1 in H.
      destruct (Discrete.discretize _ _ _ _ _ wa) as [[d|x] wb] eqn:E2;
        apply discretize_world in E2; subst wb;
        unfold ret in H; inversion H; subst;
        destruct (cached_scores_trace _ _ _ _ _ _ E) as (a & T & K);
        exists a; simpl in T; rewrite T, <- app_assoc; tauto.
    + inversion H; subst.
      destruct (cached_scores_trace _ _ _ _ _ _ E) as (a & T & K).
      exists a. simpl in T. rewrite T, <- app_assoc. tauto.
  - inversion H; subst. exists []. simpl. tauto.
Qed.

Lemma overlap_block_trace (extent : Segment) (window : SlidingWindow)
  (n : nat) (speech : Timeline) (speech_discrete : Np.Matrix Z)
  (ovl_model : ProtocolFile -> Res Curve) (w w' : World)
  (r : Res Discrete.Overlap) :
  Discrete.overlap_block self extent window n speech speech_discrete
                         ovl_model w = (r, w') ->
  exists b, trace w' = trace w ++ b
            /\ (b = [] \/ b = [EvOvl]
                          /\ f_scores (current_file w) "ovl_scores" = None).
Proof.
  unfold Discrete.overlap_block. unfold bind at 1. intro H.
  destruct (cached_scores _ _ _ _) as [[s|x] wa] eqn:E.
  - cbv zeta in H. unfold bind at 1 in H.
    destruct (Discrete.discretize _ _ _ _ _ wa) as [[d|x] wb] eqn:E2;
      apply discretize_world in E2; subst wb;
      unfold ret in H; inversion H; subst;
      exact (cached_scores_trace _ _ _ _ _ _ E).
  - inversion H; subst. exact (cached_scores_trace _ _ _ _ _ _ E).
Qed.

Lemma clustering_trace (fr : Discrete.Frames) (o : option Discrete.Overlap)
  (w w' : World) (r : Res Annotation) :
  Discrete.clustering self fr o w = (r, w') ->
  exists c, trace w' = trace w ++ c
            /\ (c = [] \/ exists X,
                   c = [EvPool X]
                   /\ Np.take (Discrete.data fr) (Discrete.indices fr o)
                      = Ok X).
Proof.
  intro H.
  destruct (Np.take (Discrete.data fr) (Discrete.indices fr o)) as [X|x] eqn:T.
  - destruct (clustering_pools_indices self fr o w X T) as [r' H'].
    rewrite H' in H. inversion H; subst. exists [EvPool X]. simpl.
    split; [reflexivity|]. right. now exists X.
  - unfold Discrete.clustering in H. cbv zeta in H.
    unfold bind at 1, lift at 1 in H. rewrite T in H. inversion H; subst.
    exists []. rewrite app_nil_r. tauto.
Qed.

Lemma speech_frames_caches_sad :
  respects (caches ["sad_scores"%string]) (Discrete.speech_frames self).
Proof.
  unfold Discrete.speech_frames.
  apply (respects_bind _ (caches_trans _));
    [apply (respects_get_file _ (caches_refl _)) | intro file].
  cbv zeta.
  apply (respects_bind _ (caches_trans _)).
  { eapply respects_weaken; [|apply call_keeps_file].
    intros w w'. apply keeps_file_caches. }
  intro e. apply (respects_bind _ (caches_trans _)).
  { apply cached_scores_caches. now left. }
  intro s. apply (respects_bind _ (caches_trans _)).
  { eapply respects_weaken; [|apply discretize_keeps_file].
    intros w w'. apply keeps_file_caches. }
  intro d. apply (respects_ret _ (caches_refl _)).
Qed.

End DiscreteCalls.

(* ------------------------------------------------------------------ *)
(** ** Arrays of frames *)
(* ------------------------------------------------------------------ *)

Lemma In_combine_seq {A} (l : list A) :
  forall (a i : nat) (x : A),
    In (i, x) (combine (seq a (length l)) l)
    <-> (a <= i)%nat /\ nth_error l (i - a) = Some x.
Proof.
  induction l as [|y r IH]; intros a i x; simpl.
  - split; [tauto|]. intros [_ H]. destruct (i - a)%nat; discriminate.
  - rewrite IH. split.
    + intros [E|[L H]].
      * inversion E; subst. split; [lia|]. now rewrite Nat.sub_diag.
      * split; [lia|]. replace (i - a)%nat with (S (i - S a)) by lia. exact H.
    + intros [L H]. destruct (Nat.eq_dec a i) as [->|N].
      * left. rewrite Nat.sub_diag in H. simpl in H. now inversion H.
      * right. split; [lia|].
        replace (i - a)%nat with (S (i - S a)) in H by lia. exact H.
Qed.

Lemma In_where0 (m : Np.Matrix Z) (i : nat) :
  In i (Np.where0 m)
  <-> exists row, nth_error m i = Some row /\ exists x, In x row /\ x <> 0%Z.
Proof.
  unfold Np.where0. rewrite in_flat_map. split.
  - intros [[j row] [H K]]. simpl in K. apply in_map_iff in K.
    destruct K as [x [<- Hx]]. apply filter_In in Hx. destruct Hx as [Hx Nz].
    apply In_combine_seq in H. destruct H as [_ H].
    rewrite Nat.sub_0_r in H. exists row. split; [exact H|].
    exists x. split; [exact Hx|]. intros ->. discriminate.
  - intros [row [H [x [Hx Nz]]]]. exists (i, row). split.
    + apply In_combine_seq. rewrite Nat.sub_0_r. split; [lia | exact H].
    + simpl. apply in_map_iff. exists x. split; [reflexivity|].
      apply filter_In. split; [exact Hx|].
      apply negb_true_iff. now apply Z.eqb_neq.
Qed.

Lemma where0_bound (m : Np.Matrix Z) (i : nat) :
  In i (Np.where0 m) -> (i < length m)%nat.
Proof.
  intro H. apply In_where0 in H. destruct H as [row [H _]].
  apply nth_error_Some. congruence.
Qed.

Lemma where0_firstn_bound (n : nat) (m : Np.Matrix Z) :
  Forall (fun i => (i < n)%nat) (Np.where0 (firstn n m)).
Proof.
  apply Forall_forall. intros i H. apply where0_bound in H.
  rewrite length_firstn in H. lia.
Qed.

Lemma nth_error_combine {A B} (l : list A) (l' : list B) :
  forall i, nth_error (combine l l') i
            = match nth_error l i, nth_error l' i with
              | Some x, Some y => Some (x, y)
              | _, _ => None
              end.
Proof.
  revert l'. induction l as [|x r IH]; intros [|y r'] [|i]; simpl;
    try reflexivity.
  - now destruct (nth_error r i).
  - apply IH.
Qed.

Lemma nth_error_mul (a b : Np.Matrix Z) (i : nat) :
  nth_error (Np.mul a b) i
  = match nth_error a i, nth_error b i with
    | Some ra, Some rb =>
        Some (map (fun xy => (fst xy * snd xy)%Z) (combine ra rb))
    | _, _ => None
    end.
Proof.
  unfold Np.mul. rewrite nth_error_map, nth_error_combine.
  destruct (nth_error a i), (nth_error b i); reflexivity.
Qed.

Lemma In_where0_mul (a b : Np.Matrix Z) (i : nat) :
  In i (Np.where0 (Np.mul a b)) -> In i (Np.where0 a).
Proof.
  rewrite !In_where0. intros [row [H [x [Hx Nz]]]].
  rewrite nth_error_mul in H.
  destruct (nth_error a i) as [ra|]; [|discriminate].
  destruct (nth_error b i) as [rb|]; [|discriminate].
  inversion H; subst. exists ra. split; [reflexivity|].
  apply in_map_iff in Hx. destruct Hx as [[u v] [E Huv]]. simpl in E.
  exists u. split; [now apply in_combine_l in Huv|]. intros ->. now subst x.
Qed.

(** On arrays of one column of zeros and ones. *)
Lemma mask_row (m : Np.Matrix Z) (i : nat) (row : list Z) :
  mask m -> nth_error m i = Some row -> row = [0%Z] \/ row = [1%Z].
Proof.
  intros M H. unfold mask in M. rewrite Forall_forall in M.
  apply M. eapply nth_error_In. exact H.
Qed.

Lemma In_where0_mask (m : Np.Matrix Z) (i : nat) :
  mask m -> (In i (Np.where0 m) <-> nth_error m i = Some [1%Z]).
Proof.
  intro M. rewrite In_where0. split.
  - intros [row [H [x [Hx Nz]]]].
    destruct (mask_row m i row M H) as [-> | ->]; [|exact H].
    destruct Hx as [<-|[]]. congruence.
  - intro H. exists [1%Z]. split; [exact H|]. exists 1%Z. split; [now left|lia].
Qed.

Lemma mask_firstn (n : nat) (m : Np.Matrix Z) : mask m -> mask (firstn n m).
Proof.
  unfold mask. rewrite !Forall_forall. intros M row H. apply M.
  rewrite <- (firstn_skipn n m). apply in_or_app. now left.
Qed.

Lemma mask_one_minus (m : Np.Matrix Z) : mask m -> mask (Np.one_minus m).
Proof.
  unfold mask, Np.one_minus. rewrite !Forall_forall. intros M row H.
  apply in_map_iff in H. destruct H as [r [<- Hr]].
  destruct (M r Hr) as [-> | ->]; simpl; tauto.
Qed.

Lemma nth_error_one_minus (m : Np.Matrix Z) (i : nat) :
  nth_error (Np.one_minus m) i
  = option_map (map (fun x => (1 - x)%Z)) (nth_error m i).
Proof. unfold Np.one_minus. apply nth_error_map. Qed.

Lemma mask_mul (a b : Np.Matrix Z) : mask a -> mask b -> mask (Np.mul a b).
Proof.
  unfold mask, Np.mul. rewrite !Forall_forall. intros Ma Mb row H.
  apply in_map_iff in H. destruct H as [[ra rb] [<- Hr]]. simpl.
  pose proof (in_combine_l _ _ _ _ Hr) as Ha.
  pose proof (in_combine_r _ _ _ _ Hr) as Hb.
  destruct (Ma ra Ha) as [-> | ->], (Mb rb Hb) as [-> | ->]; simpl; tauto.
Qed.

Lemma In_where0_mul_mask (a b : Np.Matrix Z) (i : nat) :
  mask a -> mask b ->
  (In i (Np.where0 (Np.mul a b))
   <-> nth_error a i = Some [1%Z] /\ nth_error b i = Some [1%Z]).
Proof.
  intros Ma Mb. rewrite (In_where0_mask _ _ (mask_mul a b Ma Mb)).
  rewrite nth_error_mul. split.
  - destruct (nth_error a i) as [ra|] eqn:Ea; [|discriminate].
    destruct (nth_error b i) as [rb|] eqn:Eb; [|discriminate].
    destruct (mask_row a i ra Ma Ea) as [-> | ->],
             (mask_row b i rb Mb Eb) as [-> | ->]; simpl; intro H;
      try discriminate; tauto.
  - intros [-> ->]. reflexivity.
Qed.

(** The indices of an array of one column increase. *)
Lemma where0_mask_sorted (m : Np.Matrix Z) :
  mask m -> StronglySorted lt (Np.where0 m).
Proof.
  unfold Np.where0. generalize 0%nat.
  induction m as [|row r IH]; intros a M; simpl; [constructor|].
  inversion M as [|? ? Hrow Mr]; subst.
  assert (Low : Forall (fun j => (S a <= j)%nat)
                  (flat_map
                     (fun ir : nat * list Z =>
                        map (fun _ => fst ir)
                            (filter (fun x => negb (Z.eqb x 0)) (snd ir)))
                     (combine (seq (S a) (length r)) r))).
  { apply Forall_forall. intros j Hj. apply in_flat_map in Hj.
    destruct Hj as [[k rw] [H K]]. simpl in K. apply in_map_iff in K.
    destruct K as [x [<- _]]. apply In_combine_seq in H. lia. }
  destruct Hrow as [->| ->]; simpl.
  - now apply IH.
  - constructor; [now apply IH|].
    eapply Forall_impl; [|exact Low]. simpl. intros; lia.
Qed.

Lemma sorted_lt_NoDup (l : list nat) : StronglySorted lt l -> NoDup l.
Proof.
  induction 1 as [|a r S IH F]; constructor; [|exact IH].
  intro H. rewrite Forall_forall in F. specialize (F a H). lia.
Qed.

(** *** Writing ones into an array *)

Lemma length_set_nth {A} (l : list A) (i : nat) (x : A) :
  length (Np.set_nth l i x) = length l.
Proof.
  revert i. induction l as [|y r IH]; intros [|i]; simpl; try reflexivity.
  now rewrite IH.
Qed.

Lemma nth_set_nth {A} (l : list A) (i j : nat) (x d : A) :
  nth j (Np.set_nth l i x) d
  = if Nat.eqb i j && Nat.ltb i (length l) then x else nth j l d.
Proof.
  revert i j. induction l as [|y r IH]; intros i j; simpl.
  - destruct i; rewrite andb_false_r; reflexivity.
  - destruct i as [|i], j as [|j]; simpl; try reflexivity.
    rewrite IH. reflexivity.
Qed.

Lemma In_set_nth {A} (l : list A) (i : nat) (x y : A) :
  In y (Np.set_nth l i x) -> y = x \/ In y l.
Proof.
  revert i. induction l as [|z r IH]; intros [|i]; simpl; try tauto.
  - intros [H|H]; auto.
  - intros [H|H]; [auto|]. destruct (IH i H); auto.
Qed.

Lemma entry_set1 (y : Np.Matrix Z) (i k i' k' : nat) :
  entry (Np.set1 y i k) i' k'
  = if Nat.eqb i i' && Nat.eqb k k' && Nat.ltb i (length y)
       && Nat.ltb k (length (nth i y []))
    then 1%Z else entry y i' k'.
Proof.
  unfold entry, Np.set1.
  destruct (nth_error y i) as [row|] eqn:E.
  - assert (L : (i < length y)%nat) by (apply nth_error_Some; congruence).
    rewrite (nth_error_nth y i [] E), !nth_set_nth.
    destruct (Nat.eqb_spec i i') as [<-|N]; simpl.
    + replace (Nat.ltb i (length y)) with true
        by (symmetry; now apply Nat.ltb_lt).
      rewrite nth_set_nth, (nth_error_nth y i [] E). simpl.
      now rewrite andb_true_r.
    + reflexivity.
  - apply nth_error_None in E.
    replace (Nat.ltb i (length y)) with false
      by (symmetry; apply Nat.ltb_ge; exact E).
    now rewrite andb_false_r.
Qed.

Lemma shape_zeros (n c : nat) : shape n c (Np.zeros n c).
Proof.
  unfold shape, Np.zeros. split; [apply repeat_length|].
  apply Forall_forall. intros row H. apply repeat_spec in H. subst.
  apply repeat_length.
Qed.

Lemma shape_set1 (n c : nat) (y : Np.Matrix Z) (i k : nat) :
  shape n c y -> shape n c (Np.set1 y i k).
Proof.
  intros [L F]. unfold Np.set1.
  destruct (nth_error y i) as [row|] eqn:E; [|now split].
  split; [now rewrite length_set_nth|].
  rewrite Forall_forall in *. intros r Hr. apply In_set_nth in Hr.
  destruct Hr as [->|Hr]; [|now apply F].
  rewrite length_set_nth. apply F. eapply nth_error_In. exact E.
Qed.

Lemma shape_row (n c : nat) (y : Np.Matrix Z) (i : nat) :
  shape n c y -> (i < n)%nat -> length (nth i y []) = c.
Proof.
  intros [L F] H. rewrite Forall_forall in F. apply F. apply nth_In. lia.
Qed.

Lemma entry_zeros (n c i k : nat) : entry (Np.zeros n c) i k = 0%Z.
Proof.
  unfold entry, Np.zeros.
  destruct (Nat.lt_ge_cases i n) as [L|L].
  - rewrite nth_repeat_lt by exact L.
    destruct (Nat.lt_ge_cases k c) as [K|K].
    + now rewrite nth_repeat_lt.
    + apply nth_overflow. now rewrite repeat_length.
  - rewrite (nth_overflow (repeat (repeat 0%Z c) n) [])
      by (now rewrite repeat_length).
    now destruct k.
Qed.

(** The ones of an array after a series of writes. *)
Lemma entry_writes (n c : nat) (l : list (nat * nat)) :
  forall (y : Np.Matrix Z) (i k : nat),
    shape n c y ->
    entry (fold_left (fun y ik => Np.set1 y (fst ik) (snd ik)) l y) i k
    = if existsb (fun ik => Nat.eqb (fst ik) i && Nat.eqb (snd ik) k) l
         && Nat.ltb i n && Nat.ltb k c
      then 1%Z else entry y i k.
Proof.
  induction l as [|[i0 k0] r IH]; intros y i k S; simpl; [reflexivity|].
  rewrite IH by now apply shape_set1.
  rewrite entry_set1. destruct S as [L F]. rewrite L.
  destruct (existsb _ r);
    destruct (Nat.eqb_spec i0 i) as [->|N];
    destruct (Nat.eqb_spec k0 k) as [->|N']; cbn [orb andb];
    destruct (Nat.ltb_spec i n) as [Li|Li]; cbn [andb]; try reflexivity;
    try rewrite (shape_row n c y i (conj L F) Li);
    destruct (Nat.ltb_spec k c); reflexivity.
Qed.

Lemma existsb_pair (l : list (nat * nat)) (i k : nat) :
  existsb (fun ik => Nat.eqb (fst ik) i && Nat.eqb (snd ik) k) l = true
  <-> In (i, k) l.
Proof.
  rewrite existsb_exists. split.
  - intros [[a b] [H E]]. simpl in E. apply andb_true_iff in E.
    destruct E as [E1 E2]. apply Nat.eqb_eq in E1, E2. now subst.
  - intro H. exists (i, k). split; [exact H|]. simpl.
    now rewrite !Nat.eqb_refl.
Qed.

Lemma entry_writes_zeros (n c : nat) (l : list (nat * nat)) (i k : nat) :
  let y := fold_left (fun y ik => Np.set1 y (fst ik) (snd ik)) l
                     (Np.zeros n c) in
  (entry y i k = 1%Z <-> In (i, k) l /\ (i < n)%nat /\ (k < c)%nat)
  /\ (entry y i k = 1%Z \/ entry y i k = 0%Z).
Proof.
  intro y. unfold y. rewrite (entry_writes n c l _ i k (shape_zeros n c)).
  rewrite entry_zeros.
  destruct (existsb _ l) eqn:Ex; simpl.
  - apply existsb_pair in Ex.
    destruct (Nat.ltb_spec i n) as [Li|Li]; simpl.
    + destruct (Nat.ltb_spec k c) as [Lk|Lk]; simpl.
      * split; [tauto | now left].
      * split; [|now right]. split; [discriminate|]. intros (_ & _ & H). lia.
    + split; [|now right]. split; [discriminate|]. intros (_ & H & _). lia.
  - split; [|now right]. split; [discriminate|]. intros (H & _).
    apply existsb_pair in H. congruence.
Qed.

Lemma max_bound (cluster : list nat) (top : nat) :
  Np.max cluster = Ok top ->
  Forall (fun k => (k <= top)%nat) cluster /\ In top cluster.
Proof.
  unfold Np.max. destruct cluster as [|x r]; [discriminate|].
  intro H. inversion H as [E]. clear H E.
  assert (G : forall l a, (a <= fold_left Nat.max l a)%nat
                          /\ Forall (fun k => (k <= fold_left Nat.max l a)%nat) l
                          /\ (fold_left Nat.max l a = a
                              \/ In (fold_left Nat.max l a) l)).
  { induction l as [|y l IH]; intro a; simpl.
    - split; [lia|]. split; [constructor | now left].
    - destruct (IH (Nat.max a y)) as (H1 & H2 & H3).
      split; [lia|]. split; [constructor; [lia | exact H2]|].
      destruct H3 as [H3|H3]; [|now right; right].
      rewrite H3. destruct (Nat.max_spec a y) as [[_ ->]|[_ ->]];
        [right; now left | now left]. }
  destruct (G r x) as (H1 & H2 & H3). split.
  - constructor; assumption.
  - destruct H3 as [->|H3]; [now left | now right].
Qed.

(** *** Sorting the rows by distance *)

Lemma insert_by_sorted (col : list Q) (i : nat) (l : list nat) :
  StronglySorted (fun a b => nth a col 0 <= nth b col 0) l ->
  StronglySorted (fun a b => nth a col 0 <= nth b col 0) (Np.insert_by col i l).
Proof.
  induction 1 as [|j r S IH F]; simpl.
  - repeat constructor.
  - destruct (Qltb_spec (nth i col 0) (nth j col 0)) as [L|L].
    + constructor; [now constructor|]. constructor; [lra|].
      eapply Forall_impl; [|exact F]. simpl. intros a H. lra.
    + constructor; [exact IH|]. apply Forall_forall. intros a Ha.
      apply (Permutation_in _ (insert_by_perm col i r)) in Ha.
      destruct Ha as [<-|Ha]; [exact L|].
      rewrite Forall_forall in F. now apply F.
Qed.

Lemma argsort_sorted (col : list Q) :
  StronglySorted (fun a b => nth a col 0 <= nth b col 0) (Np.argsort col).
Proof.
  unfold Np.argsort. induction (seq 0 (length col)) as [|i r IH]; simpl.
  - constructor.
  - now apply insert_by_sorted.
Qed.

(** The two first rows of a sort are two rows of least value. *)
Lemma argsort_two_least (col : list Q) :
  (3 <= length col)%nat ->
  exists k1 k2,
    firstn 2 (Np.argsort col) = [k1; k2]
    /\ k1 <> k2 /\ (k1 < length col)%nat /\ (k2 < length col)%nat
    /\ forall k, (k < length col)%nat -> k <> k1 -> k <> k2 ->
         nth k1 col 0 <= nth k col 0 /\ nth k2 col 0 <= nth k col 0.
Proof.
  intro L. pose proof (argsort_perm col) as P.
  pose proof (argsort_sorted col) as S.
  pose proof (Permutation_length P) as Len. rewrite length_seq in Len.
  destruct (Np.argsort col) as [|k1 [|k2 rest]]; simpl in Len; try lia.
  exists k1, k2. split; [reflexivity|].
  assert (ND : NoDup (k1 :: k2 :: rest)).
  { apply (Permutation_NoDup (Permutation_sym P)). apply seq_NoDup. }
  assert (B : forall k, In k (k1 :: k2 :: rest) <-> (k < length col)%nat).
  { intro k. split; intro H.
    - apply (Permutation_in _ P) in H. apply in_seq in H. lia.
    - apply (Permutation_in _ (Permutation_sym P)). apply in_seq. lia. }
  split; [|split; [|split]].
  - inversion ND as [|? ? NI _]; subst. intros ->. apply NI. now left.
  - apply B. now left.
  - apply B. right. now left.
  - intros k Hk N1 N2. apply B in Hk.
    destruct Hk as [->|[->|Hk]]; [congruence | congruence |].
    inversion S as [|? ? S' F1]; subst. inversion S' as [|? ? _ F2]; subst.
    rewrite Forall_forall in F1, F2. split.
    + apply F1. right. exact Hk.
    + apply F2. exact Hk.
Qed.

Lemma overlap_y_writes (n c : nat) (idx : list nat) (part : list (list nat)) :
  Discrete.overlap_y n c idx part
  = fold_left (fun y ik => Np.set1 y (fst ik) (snd ik))
              (flat_map (fun iks => map (fun k => (fst iks, k)) (snd iks))
                        (combine idx part))
              (Np.zeros n c).
Proof.
  unfold Discrete.overlap_y. generalize (Np.zeros n c).
  induction (combine idx part) as [|[i ks] r IH]; intro y; simpl;
    [reflexivity|].
  rewrite fold_left_app, IH. f_equal.
  clear. revert y. induction ks as [|k ks IH]; intro y; simpl;
    [reflexivity|]. apply IH.
Qed.

Lemma entry_overlap_y (n c : nat) (idx : list nat) (part : list (list nat))
  (i k : nat) :
  entry (Discrete.overlap_y n c idx part) i k = 1%Z
  <-> (exists ks, In (i, ks) (combine idx part) /\ In k ks)
      /\ (i < n)%nat /\ (k < c)%nat.
Proof.
  rewrite overlap_y_writes.
  rewrite (proj1 (entry_writes_zeros n c _ i k)).
  rewrite in_flat_map. split.
  - intros [[[j ks] [H K]] B]. split; [|exact B]. simpl in K.
    apply in_map_iff in K. destruct K as [k' [E Hk]]. inversion E; subst.
    now exists ks.
  - intros [[ks [H K]] B]. split; [|exact B]. exists (i, ks).
    split; [exact H|]. simpl. apply in_map_iff. now exists k.
Qed.

Lemma In_combine_nth_error {A B} (l : list A) (l' : list B) (x : A) (y : B) :
  In (x, y) (combine l l')
  <-> exists p, nth_error l p = Some x /\ nth_error l' p = Some y.
Proof.
  split.
  - intro H. apply In_nth_error in H. destruct H as [p H].
    rewrite nth_error_combine in H. exists p.
    destruct (nth_error l p), (nth_error l' p); try discriminate.
    now inversion H.
  - intros [p [H1 H2]]. apply (nth_error_In _ p).
    now rewrite nth_error_combine, H1, H2.
Qed.

Section FrameArrays.
Context {C : Collaborators}.
Variable self : Discrete.DiscreteDiarization.

Lemma speech_frames_inv (w w1 : World) (fr : Discrete.Frames) :
  Discrete.speech_frames self w = (Ok fr, w1) ->
  exists a,
    Discrete.speech_discrete fr
    = firstn (length (Discrete.data fr))
             (one_hot_encoding a (Timeline_mk [Discrete.extent fr])
                               (Discrete.window fr) [LStr "speech"])
    /\ Discrete.speech_indices fr = Np.where0 (Discrete.speech_discrete fr)
    /\ is_timeline (Discrete.speech fr)
    /\ Discrete.extent fr = mkSegment 0 (f_duration (current_file w)).
Proof.
  unfold Discrete.speech_frames. unfold bind at 1, get_file at 1.
  unfold bind at 1, call at 1. intro H.
  destruct (Discrete.emb self (current_file w)) as [e|x]; [|discriminate].
  cbv zeta in H. unfold bind at 1 in H.
  destruct (cached_scores _ _ _ _) as [[s|x] wa]; [|discriminate].
  unfold bind at 1 in H. unfold Discrete.discretize in H.
  unfold bind at 1, lift at 1 in H.
  destruct (to_annotation _ _) as [a|x]; [|discriminate].
  unfold ret in H. inversion H; subst. simpl. exists a.
  repeat split; try reflexivity; apply Timeline_mk_is_timeline.
Qed.

Lemma overlap_block_inv (extent : Segment) (window : SlidingWindow) (n : nat)
  (speech : Timeline) (speech_discrete : Np.Matrix Z)
  (ovl_model : ProtocolFile -> Res Curve) (w w' : World)
  (o : Discrete.Overlap) :
  Discrete.overlap_block self extent window n speech speech_discrete
                         ovl_model w = (Ok o, w') ->
  exists a,
    let overlap_discrete :=
      firstn n (one_hot_encoding a (Timeline_mk [extent]) window
                                 [LStr "overlap"]) in
    Discrete.clean_speech_indices o
    = Np.where0 (Np.mul speech_discrete (Np.one_minus overlap_discrete))
    /\ Discrete.noisy_speech_indices o
       = Np.where0 (Np.mul speech_discrete overlap_discrete).
Proof.
  unfold Discrete.overlap_block. unfold bind at 1. intro H.
  destruct (cached_scores _ _ _ _) as [[s|x] wa]; [|discriminate].
  cbv zeta in H. unfold bind at 1 in H. unfold Discrete.discretize in H.
  unfold bind at 1, lift at 1 in H.
  destruct (to_annotation _ _) as [a|x]; [|discriminate].
  unfold ret in H. inversion H; subst. simpl. exists a. split; reflexivity.
Qed.

End FrameArrays.

(* ------------------------------------------------------------------ *)
(** ** Speech, clean speech and noisy speech *)
(* ------------------------------------------------------------------ *)

(** *** gaps, both ways *)

Lemma covers_dec (l : list Segment) (t : Q) : covers l t \/ ~ covers l t.
Proof.
  induction l as [|s r IH].
  - right. intros [u [[] _]].
  - destruct (Qlt_le_dec t (start s)) as [L|L].
    + destruct IH as [[u [Hu I]]|N].
      * left. exists u. split; [now right | exact I].
      * right. intros [u [[<-|Hu] [I1 I2]]]; [lra|].
        apply N. exists u. split; [exact Hu | now split].
    + destruct (Qlt_le_dec t (end_ s)) as [L'|L'].
      * left. exists s. split; [now left | now split].
      * destruct IH as [[u [Hu I]]|N].
        -- left. exists u. split; [now right | exact I].
        -- right. intros [u [[<-|Hu] [I1 I2]]]; [lra|].
           apply N. exists u. split; [exact Hu | now split].
Qed.

Lemma gaps_iter_complete (S : list Segment) :
  forall (prev e t : Q),
    prev <= t -> t < e -> ~ covers S t -> covers (gaps_iter prev S e) t.
Proof.
  induction S as [|s r IH]; intros prev e t Lo Hi NC; simpl.
  - assert (B : Segment_bool (mkSegment prev e) = true)
      by (apply Segment_bool_iff; simpl; lra).
    rewrite B. exists (mkSegment prev e). split; [now left | now split].
  - destruct (Qlt_le_dec t (start s)) as [L|L].
    + assert (B : Segment_bool (mkSegment prev (start s)) = true)
        by (apply Segment_bool_iff; simpl; lra).
      rewrite B. exists (mkSegment prev (start s)).
      split; [now left | now split].
    + assert (L' : end_ s <= t).
      { destruct (Qlt_le_dec t (end_ s)) as [K|K]; [|exact K].
        exfalso. apply NC. exists s. split; [now left | now split]. }
      destruct (IH (end_ s) e t L' Hi) as [g [Hg I]].
      * intros [u [Hu I]]. apply NC. exists u. split; [now right | exact I].
      * exists g. split; [|exact I]. apply in_or_app. now right.
Qed.

Lemma gaps_spec (ov : Timeline) (ext : Segment) (t : Q) :
  covers (gaps ov ext) t <-> inside ext t /\ ~ covers ov t.
Proof.
  split.
  - intro G. split; [|exact (gaps_avoid ov ext t G)].
    unfold gaps in G. rewrite covers_Timeline_mk in G.
    set (S := support (crop ov (Timeline_mk [ext]))) in G.
    destruct (support_spec _ (crop_is_timeline ov (Timeline_mk [ext])))
      as (CovS & SepS & NeS).
    fold S in CovS, SepS, NeS.
    assert (Ext : forall t0, covers (Timeline_mk [ext]) t0 <-> inside ext t0).
    { intro t0. rewrite covers_Timeline_mk. split.
      - intros [s [[<-|[]] I]]. exact I.
      - intro I. exists ext. split; [now left | exact I]. }
    assert (SupExt : forall t0, covers (support (Timeline_mk [ext])) t0
                                <-> inside ext t0).
    { intro t0. rewrite <- Ext.
      apply (support_spec _ (Timeline_mk_is_timeline [ext])). }
    assert (Within : forall t0, covers S t0 -> inside ext t0).
    { intros t0 H. apply CovS, covers_crop in H. now apply SupExt. }
    assert (Hi : Forall (fun s => end_ s <= end_ ext) S).
    { apply Forall_forall. intros s Hs.
      assert (Ns : start s < end_ s).
      { apply Segment_bool_iff. unfold nonempty in NeS.
        rewrite Forall_forall in NeS. now apply NeS. }
      destruct (Qlt_le_dec (end_ ext) (end_ s)) as [L|L]; [exfalso|exact L].
      destruct (Qmax_case_le (start s) (end_ ext)) as [[K E]|[K E]].
      - assert (I : inside s (end_ ext)) by (split; lra).
        destruct (Within (end_ ext)) as [_ B]; [now exists s | lra].
      - assert (I : inside s (start s)) by (split; lra).
        destruct (Within (start s)) as [_ B]; [now exists s | lra]. }
    assert (Lo : Forall (fun s => start ext <= start s) S).
    { apply Forall_forall. intros s Hs.
      assert (Ns : start s < end_ s).
      { apply Segment_bool_iff. unfold nonempty in NeS.
        rewrite Forall_forall in NeS. now apply NeS. }
      assert (I : inside s (start s)) by (split; lra).
      destruct (Within (start s)) as [B _]; [now exists s | exact B]. }
    destruct (gaps_iter_spec S (start ext) (end_ ext) SepS NeS Hi Lo)
      as (Cov & _).
    destruct (Cov t G) as (B1 & B2 & _). now split.
  - intros [[I1 I2] NC]. unfold gaps. rewrite covers_Timeline_mk.
    apply gaps_iter_complete; [exact I1 | exact I2 |].
    intro H.
    apply (support_spec _ (crop_is_timeline ov (Timeline_mk [ext]))) in H.
    apply covers_crop in H. now apply NC.
Qed.

Lemma In_Annotation_set (a : Annotation) (s : Segment) (trk lab : Label)
  (e : Segment * Label * Label) :
  In e (Annotation_set a s trk lab) -> In e a \/ e = (s, trk, lab).
Proof.
  unfold Annotation_set. destruct (negb (Segment_bool s)); [tauto|].
  intro H. apply in_app_or in H. destruct H as [H|[<-|[]]]; [|now right].
  left. now apply filter_In in H.
Qed.

Lemma In_Annotation_update (b : Annotation) :
  forall (a : Annotation) (e : Segment * Label * Label),
    In e (Annotation_update a b) -> In e a \/ In e b.
Proof.
  unfold Annotation_update.
  induction b as [|[[s trk] lab] r IH]; intros a e H; simpl in *; [tauto|].
  destruct (IH _ _ H) as [K|K]; [|tauto].
  apply In_Annotation_set in K. destruct K as [K | ->]; tauto.
Qed.

Section FrameOutput.
Context {C : Collaborators}.
Variable self : Discrete.DiscreteDiarization.

Lemma speech_frames_speech (w w1 : World) (fr : Discrete.Frames) :
  Discrete.speech_frames self w = (Ok fr, w1) ->
  exists sad_scores,
    f_scores (current_file w1) "sad_scores" = Some sad_scores
    /\ Discrete.speech fr
       = Discrete.sad_binarize_ self sad_scores
                                (Discrete.sad_speech_index_ self).
Proof.
  unfold Discrete.speech_frames. unfold bind at 1, get_file at 1.
  unfold bind at 1, call at 1. intro H.
  destruct (Discrete.emb self (current_file w)) as [e|x]; [|discriminate].
  cbv zeta in H. unfold bind at 1 in H.
  destruct (cached_scores _ _ _ _) as [[s|x] wa] eqn:E; [|discriminate].
  unfold bind at 1 in H.
  destruct (Discrete.discretize _ _ _ _ _ wa) as [[d|x] wb] eqn:E2;
    [|discriminate].
  apply discretize_world in E2. subst wb.
  unfold ret in H. inversion H; subst. simpl. exists s.
  split; [|reflexivity]. exact (cached_scores_stored _ _ _ _ _ _ E).
Qed.

Lemma overlap_block_scores (extent : Segment) (window : SlidingWindow)
  (n : nat) (speech : Timeline) (speech_discrete : Np.Matrix Z)
  (ovl_model : ProtocolFile -> Res Curve) (w w' : World)
  (r : Discrete.Overlap) :
  Discrete.overlap_block self extent window n speech speech_discrete
                         ovl_model w = (Ok r, w') ->
  exists ovl_scores,
    f_scores (current_file w') "ovl_scores" = Some ovl_scores
    /\ let overlap := Discrete.ovl_binarize_ self ovl_scores
                        (Discrete.ovl_overlap_index_ self) in
       Discrete.clean_speech r = crop speech (gaps overlap extent)
       /\ Discrete.noisy_speech r = crop speech overlap.
Proof.
  unfold Discrete.overlap_block. unfold bind at 1. intro H.
  destruct (cached_scores "ovl_scores" EvOvl ovl_model w) as [[s|e] wa] eqn:E;
    [|discriminate].
  cbv zeta in H. unfold bind at 1 in H.
  destruct (Discrete.discretize _ _ _ _ _ wa) as [[d|e] wb] eqn:E2;
    [|discriminate].
  apply discretize_world in E2. subst wb.
  unfold ret in H. inversion H; subst. simpl. exists s.
  split; [|split; reflexivity]. exact (cached_scores_stored _ _ _ _ _ _ E).
Qed.

(** The tracks of a successful [clustering] lie within the speech
    regions, when the timelines of the overlap block are parts of
    them. *)
Lemma clustering_inside (fr : Discrete.Frames) (o : option Discrete.Overlap)
  (w w' : World) (ann : Annotation) :
  is_timeline (Discrete.speech fr) ->
  (forall r, o = Some r ->
     is_timeline (Discrete.clean_speech r)
     /\ is_timeline (Discrete.noisy_speech r)
     /\ forall t, (covers (Discrete.clean_speech r) t
                   \/ covers (Discrete.noisy_speech r) t)
                  -> covers (Discrete.speech fr) t) ->
  Discrete.clustering self fr o w = (Ok ann, w') ->
  forall e t, In e ann -> inside (fst (fst e)) t ->
              covers (Discrete.speech fr) t.
Proof.
  intros T Parts H e t He I.
  unfold Discrete.clustering in H. cbv zeta in H.
  unfold bind at 1, lift at 1 in H.
  destruct (Np.take _ _) as [X|x]; [|discriminate].
  unfold bind at 1, call at 1 in H.
  destruct (pool X) as [dendrogram|x]; [|discriminate].
  unfold bind at 1, lift at 1 in H.
  destruct (Np.max _) as [top|x]; [|discriminate].
  destruct o as [r|].
  - destruct (Parts r eq_refl) as (Tc & Tn & Sub).
    unfold bind at 1, lift at 1 in H.
    destruct (Np.take _ _) as [noisy|x]; [|discriminate].
    unfold bind at 1, lift at 1 in H.
    destruct (Discrete.most_similar_clusters _ _ _ _) as [part|x];
      [|discriminate].
    unfold ret in H. inversion H; subst.
    apply In_Annotation_update in He. apply Sub.
    destruct He as [He|He]; [left | right];
      eapply Annotation_crop_inside; eauto.
  - unfold ret in H. inversion H; subst.
    eapply Annotation_crop_inside; eauto.
Qed.

End FrameOutput.

(* ------------------------------------------------------------------ *)
(** ** The array that is decoded, and the concrete encoding *)
(* ------------------------------------------------------------------ *)

Section DecodedArray.
Context {C : Collaborators}.
Variable self : Discrete.DiscreteDiarization.

(** Without an overlap detector, [clustering] decodes [cluster_y]. *)
Lemma clustering_decodes_cluster_y (fr : Discrete.Frames) (w : World)
  (X : list Vec) (dendrogram : Dendrogram) (top : nat) :
  Np.take (Discrete.data fr) (Discrete.speech_indices fr) = Ok X ->
  pool X = Ok dendrogram ->
  let cluster :=
    map (fun c => (Pos.to_nat c - 1)%nat)
        (fcluster dendrogram (Discrete.emb_threshold self)) in
  Np.max cluster = Ok top ->
  Discrete.clustering self fr None w
  = (Ok (Annotation_crop
           (one_hot_decoding
              (cluster_y (length (Discrete.data fr)) (top + 1)
                         (Discrete.speech_indices fr) cluster)
              (Discrete.window fr) (Discrete.range_labels (top + 1)))
           (Discrete.speech fr)),
     mkWorld (current_file w) (trace w ++ [EvPool X])).
Proof.
  intros T P cluster M. unfold Discrete.clustering. cbv zeta.
  unfold bind at 1, lift at 1. simpl Discrete.indices. rewrite T.
  unfold bind at 1, call at 1. rewrite P.
  unfold bind at 1, lift at 1. fold cluster. rewrite M. reflexivity.
Qed.

End DecodedArray.

Lemma encode_mask (a : Annotation) (tl : Timeline) (win : SlidingWindow)
  (l : Label) : mask (Fixture.encode a tl win [l]).
Proof.
  unfold mask, Fixture.encode. apply Forall_forall. intros row H.
  apply in_map_iff in H. destruct H as [i [<- _]].
  destruct (Fixture.covers_center a i); tauto.
Qed.

Lemma encode_length (a a' : Annotation) (tl : Timeline) (win : SlidingWindow)
  (l l' : list Label) :
  length (Fixture.encode a tl win l) = length (Fixture.encode a' tl win l').
Proof. unfold Fixture.encode. now rewrite !length_map. Qed.

(* ------------------------------------------------------------------ *)
(** ** The calls of the segment-level pipeline, and the reassignment *)
(* ------------------------------------------------------------------ *)

Section SimpleCalls.
Context {C : Collaborators}.
Variable self : Simple.SimpleDiarization.

Lemma for_each_get_embedding_trace (l : list Segment) (w w' : World)
  (r : Res (list Vec)) :
  for_each (Simple.get_embedding self) l w = (r, w') ->
  exists c, trace w' = trace w ++ c /\ Forall crop_event c.
Proof.
  intro H. destruct (for_each_get_embedding self l w w' r H) as (_ & A & _).
  exact A.
Qed.

(** What lines 187-240 call: embedding extractions, then [pool] once at
    most, then embedding extractions if [pool] was called. *)
Lemma diarize_trace (seg : list Segment) (w w' : World) (r : Res Annotation) :
  Simple.diarize self seg w = (r, w') ->
  exists c p d,
    trace w' = trace w ++ c ++ p ++ d
    /\ Forall crop_event c
    /\ (p = [] \/ exists X, p = [EvPool X])
    /\ Forall crop_event d
    /\ (p = [] -> d = []).
Proof.
  unfold Simple.diarize. cbv zeta. intro H.
  assert (Nothing : exists c p d : list Event,
             trace w = trace w ++ c ++ p ++ d
             /\ Forall crop_event c
             /\ (p = [] \/ exists X, p = [EvPool X])
             /\ Forall crop_event d
             /\ (p = [] -> d = [])).
  { exists [], [], []. simpl. rewrite app_nil_r.
    split; [reflexivity|]. split; [constructor|]. split; [now left|].
    split; [constructor | reflexivity]. }
  assert (Pooled : forall (c d : list Event) (X : list Vec) (x : World),
             Forall crop_event c -> Forall crop_event d ->
             trace x = trace w ++ c ++ [EvPool X] ++ d ->
             exists c p d : list Event,
               trace x = trace w ++ c ++ p ++ d
               /\ Forall crop_event c
               /\ (p = [] \/ exists X, p = [EvPool X])
               /\ Forall crop_event d
               /\ (p = [] -> d = [])).
  { intros c d X x Fc Fd T. exists c, [EvPool X], d.
    split; [exact T|]. split; [exact Fc|]. split; [right; now exists X|].
    split; [exact Fd | discriminate]. }
  destruct (length (Simple.long_segments self seg)) as [|[|n]].
  - unfold lift in H. inversion H; subst. exact Nothing.
  - unfold lift in H. inversion H; subst. exact Nothing.
  - unfold bind at 1 in H.
    destruct (for_each (Simple.get_embedding self)
                (Simple.long_segments self seg) w) as [[emb_long|e] wa] eqn:E1.
    2:{ inversion H; subst.
        destruct (for_each_get_embedding_trace _ _ _ _ E1) as (c & T & F).
        exists c, [], []. simpl. rewrite app_nil_r.
        split; [exact T|]. split; [exact F|]. split; [now left|].
        split; [constructor | reflexivity]. }
    destruct (for_each_get_embedding_trace _ _ _ _ E1) as (c & T & F).
    unfold bind at 1 in H. unfold call at 1 in H.
    destruct (pool emb_long) as [Z|e].
    2:{ inversion H; subst. apply (Pooled c [] emb_long); try assumption;
          [constructor|]. simpl. now rewrite T, <- app_assoc. }
    destruct (length (Simple.short_segments self seg)) as [|m].
    + unfold lift in H. inversion H; subst.
      apply (Pooled c [] emb_long); try assumption; [constructor|].
      simpl. now rewrite T, <- app_assoc.
    + unfold bind at 1 in H.
      match type of H with
      | context [for_each ?f ?l ?w0] =>
          destruct (for_each f l w0) as [[emb_shrt|e] wc] eqn:E3
      end.
      2:{ inversion H; subst.
          destruct (for_each_get_embedding_trace _ _ _ _ E3) as (d & T' & F').
          simpl in T'. apply (Pooled c d emb_long); try assumption.
          rewrite T', T, <- !app_assoc. reflexivity. }
      destruct (for_each_get_embedding_trace _ _ _ _ E3) as (d & T' & F').
      simpl in T'.
      assert (W : w' = wc).
      { unfold bind, lift, ret in H.
        repeat match type of H with
               | context [match ?x with Ok _ => _ | Raise _ => _ end] =>
                   destruct x
               end; now inversion H. }
      subst wc. apply (Pooled c d emb_long); try assumption.
      rewrite T', T, <- !app_assoc. reflexivity.
Qed.

Lemma speech_turns_trace (w w1 : World) (r : Res Timeline) :
  Simple.speech_turns self w = (r, w1) ->
  exists a b,
    trace w1 = trace w ++ a ++ b
    /\ (a = [] \/ a = [EvSad]
                  /\ f_scores (current_file w) "sad_scores" = None)
    /\ (b = [] \/ b = [EvScd]
                  /\ f_scores (current_file w) "scd_scores" = None).
Proof.
  unfold Simple.speech_turns. unfold bind at 1. intro H.
  destruct (cached_scores "sad_scores" EvSad (Simple.sad self) w)
    as [[s1|e1] wa] eqn:E1.
  - destruct (cached_scores_trace _ _ _ _ _ _ E1) as (a & Ta & Ka).
    pose proof (cached_scores_caches "sad_scores" EvSad (Simple.sad self)
                  ["sad_scores"%string] (or_introl eq_refl) _ _ _ E1)
      as [(_ & _ & Ext) _].
    cbv zeta in H. unfold bind at 1 in H.
    destruct (cached_scores "scd_scores" EvScd (Simple.scd self) wa)
      as [[s2|e2] wb] eqn:E2;
      destruct (cached_scores_trace _ _ _ _ _ _ E2) as (b & Tb & Kb);
      unfold ret in H; inversion H; subst;
      exists a, b; rewrite Tb, Ta, <- app_assoc;
      (split; [reflexivity|]); (split; [exact Ka|]);
      (destruct Kb as [->|[-> N]]; [now left | right; split; [reflexivity|]]);
      (destruct (f_scores (current_file w) "scd_scores") as [s|] eqn:F;
       [rewrite (Ext _ _ F) in N; discriminate | reflexivity]).
  - inversion H; subst.
    destruct (cached_scores_trace _ _ _ _ _ _ E1) as (a & Ta & Ka).
    exists a, []. rewrite app_nil_r. split; [exact Ta|]. split; [exact Ka|].
    now left.
Qed.

End SimpleCalls.

Section Reassignment.
Context {C : Collaborators}.

Lemma most_similar_clusters_no_noisy (X : list Vec) (cluster : list nat)
  (num_clusters : nat) :
  Discrete.most_similar_clusters X cluster num_clusters [] = Ok [].
Proof.
  unfold Discrete.most_similar_clusters, Np.argpartition_axis0. cbv zeta.
  rewrite size_cdist. simpl length. rewrite Nat.mul_0_r. reflexivity.
Qed.

Lemma most_similar_clusters_ok (X : list Vec) (cluster : list nat)
  (num_clusters : nat) (noisy : list Vec) (part : list (list nat)) :
  Discrete.most_similar_clusters X cluster num_clusters noisy = Ok part ->
  length part = length noisy
  /\ Forall (fun ks => length ks = Nat.min 2 num_clusters) part.
Proof.
  unfold Discrete.most_similar_clusters, Np.argpartition_axis0. cbv zeta.
  destruct (negb _ && _); [discriminate|]. cbn [res_bind].
  intro H. injection H as <-.
  rewrite columns_cdist, !map_map. split; [now rewrite length_map|].
  apply Forall_forall. intros ks Hks. apply in_map_iff in Hks.
  destruct Hks as [b [<- _]].
  rewrite length_firstn, (Permutation_length (argsort_perm _)), length_seq.
  rewrite !length_map, length_seq.
  destruct num_clusters as [|[|[|n]]]; reflexivity.
Qed.

End Reassignment.

(* ------------------------------------------------------------------ *)
(** ** Merging the two annotations *)
(* ------------------------------------------------------------------ *)

Lemma Annotation_crop_nonempty (h : Annotation) (tl : Timeline)
  (e : Segment * Label * Label) :
  In e (Annotation_crop h tl) -> Segment_bool (fst (fst e)) = true.
Proof.
  unfold Annotation_crop. intro H.
  apply in_flat_map in H. destruct H as [x [Hx H]].
  apply in_flat_map in H. destruct H as [u [Hu H]].
  destruct (intersects (fst (fst x)) u) ; simpl in H; [|destruct H].
  destruct (Segment_bool (seg_and (fst (fst x)) u)) eqn:B; [|destruct H].
  destruct H as [<-|[]]. exact B.
Qed.

Lemma Annotation_set_keeps (a : Annotation) (s : Segment) (trk lab : Label)
  (e : Segment * Label * Label) :
  In e a -> ~ seg_eq s (fst (fst e)) -> In e (Annotation_set a s trk lab).
Proof.
  intros H N. unfold Annotation_set.
  destruct (negb (Segment_bool s)); [exact H|].
  apply in_or_app. left. apply filter_In. split; [exact H|].
  unfold key_eqb. destruct (seg_eqb s (fst (fst e))) eqn:E; [|reflexivity].
  apply seg_eqb_iff in E. contradiction.
Qed.

Lemma Annotation_update_keeps (b : Annotation) :
  forall (a : Annotation) (e : Segment * Label * Label),
    In e a ->
    (forall e', In e' b -> ~ seg_eq (fst (fst e')) (fst (fst e))) ->
    In e (Annotation_update a b).
Proof.
  unfold Annotation_update.
  induction b as [|[[s trk] lab] r IH]; intros a e H N; simpl; [exact H|].
  apply IH.
  - apply Annotation_set_keeps; [exact H|]. apply (N (s, trk, lab)). now left.
  - intros e' He'. apply N. now right.
Qed.

Section Merge.
Context {C : Collaborators}.
Variable self : Discrete.DiscreteDiarization.

(** What a successful [clustering] builds with an overlap detector:
    the two arrays, the two annotations decoded from them and cropped,
    and their merge. *)
Lemma clustering_merges (fr : Discrete.Frames) (r : Discrete.Overlap)
  (w w' : World) (ann : Annotation) :
  Discrete.clustering self fr (Some r) w = (Ok ann, w') ->
  exists X dendrogram top noisy part,
    Np.take (Discrete.data fr) (Discrete.clean_speech_indices r) = Ok X
    /\ pool X = Ok dendrogram
    /\ let cluster :=
         map (fun c => (Pos.to_nat c - 1)%nat)
             (fcluster dendrogram (Discrete.emb_threshold self)) in
       Np.max cluster = Ok top
       /\ Np.take (Discrete.data fr) (Discrete.noisy_speech_indices r)
          = Ok noisy
       /\ Discrete.most_similar_clusters X cluster (top + 1) noisy = Ok part
       /\ ann
          = Annotation_update
              (Annotation_crop
                 (one_hot_decoding
                    (cluster_y (length (Discrete.data fr)) (top + 1)
                               (Discrete.clean_speech_indices r) cluster)
                    (Discrete.window fr) (Discrete.range_labels (top + 1)))
                 (Discrete.clean_speech r))
              (Annotation_crop
                 (one_hot_decoding
                    (Discrete.overlap_y (length (Discrete.data fr)) (top + 1)
                                        (Discrete.noisy_speech_indices r) part)
                    (Discrete.window fr) (Discrete.range_labels (top + 1)))
                 (Discrete.noisy_speech r)).
Proof.
  intro H. unfold Discrete.clustering in H. cbv zeta in H.
  unfold bind at 1, lift at 1 in H. simpl Discrete.indices in H.
  destruct (Np.take (Discrete.data fr) (Discrete.clean_speech_indices r))
    as [X|x] eqn:E1; [|discriminate].
  unfold bind at 1, call at 1 in H.
  destruct (pool X) as [dendrogram|x] eqn:E2; [|discriminate].
  unfold bind at 1, lift at 1 in H.
  destruct (Np.max _) as [top|x] eqn:E3; [|discriminate].
  unfold bind at 1, lift at 1 in H.
  destruct (Np.take (Discrete.data fr) (Discrete.noisy_speech_indices r))
    as [noisy|x] eqn:E4; [|discriminate].
  unfold bind at 1, lift at 1 in H.
  destruct (Discrete.most_similar_clusters _ _ _ _) as [part|x] eqn:E5;
    [|discriminate].
  unfold ret in H. inversion H; subst.
  exists X, dendrogram, top, noisy, part.
  split; [reflexivity|]. split; [exact E2|]. cbv zeta.
  split; [exact E3|]. split; [reflexivity|]. split; [exact E5|]. reflexivity.
Qed.

End Merge.

(* ================================================================== *)
(** * Part V. Further properties *)
(* ================================================================== *)

(** X1. An invocation of the segment-level pipeline never changes the
    uri or the duration of [current_file], never changes or removes a
    curve that the file holds, and writes under the keys "sad_scores"
    and "scd_scores" only. *)
Theorem simple_call_only_adds_scores {C : Collaborators}
  (self : Simple.SimpleDiarization) (w : World) :
  let file := current_file w in
  let file' := current_file (snd (Simple.__call__ self w)) in
  f_uri file' = f_uri file
  /\ f_duration file' = f_duration file
  /\ (forall k s, f_scores file k = Some s -> f_scores file' k = Some s)
  /\ (forall k, k <> "sad_scores"%string -> k <> "scd_scores"%string ->
                f_scores file' k = f_scores file k).
Proof.
  intros file file'.
  destruct (Simple.__call__ self w) as [r w'] eqn:E.
  destruct (simple_call_caches self _ _ _ E) as [(U & D & S) O].
  unfold file, file'. simpl. repeat split; try assumption.
  intros k N1 N2. apply O. intros [K|[K|[]]]; congruence.
Qed.

(** X2. The same for the frame-level pipeline, with the keys
    "sad_scores" and "ovl_scores": the embeddings are never stored. *)
Theorem discrete_call_only_adds_scores {C : Collaborators}
  (self : Discrete.DiscreteDiarization) (w : World) :
  let file := current_file w in
  let file' := current_file (snd (Discrete.__call__ self w)) in
  f_uri file' = f_uri file
  /\ f_duration file' = f_duration file
  /\ (forall k s, f_scores file k = Some s -> f_scores file' k = Some s)
  /\ (forall k, k <> "sad_scores"%string -> k <> "ovl_scores"%string ->
                f_scores file' k = f_scores file k).
Proof.
  intros file file'.
  destruct (Discrete.__call__ self w) as [r w'] eqn:E.
  destruct (discrete_call_caches self _ _ _ E) as [(U & D & S) O].
  unfold file, file'. simpl. repeat split; try assumption.
  intros k N1 N2. apply O. intros [K|[K|[]]]; congruence.
Qed.

(** X3. Once the segment-level pipeline has found its candidates, the
    file holds both curves: from any later state with the same file,
    such as the one the invocation ends in, the same pipeline finds the
    same candidates, and any pipeline finds its candidates, without a
    call to a detector and without touching the file. *)
Theorem candidates_found_again {C : Collaborators}
  (self : Simple.SimpleDiarization) (w w1 : World) (seg : list Segment) :
  Simple.candidates self w = (Ok seg, w1) ->
  current_file (snd (Simple.__call__ self w)) = current_file w1
  /\ forall w2, current_file w2 = current_file w1 ->
       Simple.candidates self w2 = (Ok seg, w2)
       /\ forall self', exists seg', Simple.candidates self' w2 = (Ok seg', w2).
Proof.
  intro H. split.
  - unfold Simple.__call__, bind. rewrite H.
    destruct (Simple.diarize self seg w1) as [r w'] eqn:E. simpl.
    exact (diarize_keeps_file self seg _ _ _ E).
  - intros w2 F. unfold Simple.candidates, bind in H.
    destruct (Simple.speech_turns self w) as [[tl|e] wa] eqn:E; [|discriminate].
    unfold ret in H. inversion H; subst.
    destruct (speech_turns_result self _ _ _ E) as (s1 & s2 & H1 & H2 & ->).
    rewrite <- F in H1, H2. split.
    + unfold Simple.candidates, bind.
      now rewrite (speech_turns_from_cache self w2 s1 s2 H1 H2).
    + intro self'. eexists. unfold Simple.candidates, bind.
      rewrite (speech_turns_from_cache self' w2 s1 s2 H1 H2). reflexivity.
Qed.

Lemma candidates_found_again_witness :
  let self := Fixture.simple [1; 1; 1; 0; 1; 0; 1; 1; 0; 0] Fixture.no_change 2
                             Fixture.crop_by_start in
  let w2 := snd (Simple.__call__ (C := Fixture.collaborators) self
                                 Fixture.fresh) in
  Simple.candidates (C := Fixture.collaborators) self w2
  = (Ok [mkSegment 0 3; mkSegment 4 5; mkSegment 6 8], w2).
Proof.
  intros self w2.
  pose (r := Simple.candidates (C := Fixture.collaborators) self Fixture.fresh).
  destruct (candidates_found_again (C := Fixture.collaborators) self
              Fixture.fresh (snd r)
              [mkSegment 0 3; mkSegment 4 5; mkSegment 6 8])
    as [F Again].
  - vm_compute. reflexivity.
  - exact (proj1 (Again w2 F)).
Defined.

(** X4. A successful invocation of the segment-level pipeline returns
    exactly one track per candidate segment, on the default track "_":
    the segments of the annotation are the candidates, each once. *)
Theorem every_candidate_labelled_once {C : Collaborators}
  (self : Simple.SimpleDiarization) (w w1 w2 : World) (seg : list Segment)
  (ann : Annotation) :
  Simple.candidates self w = (Ok seg, w1) ->
  Simple.__call__ self w = (Ok ann, w2) ->
  Permutation (map (fun e => fst (fst e)) ann) seg
  /\ length ann = length seg
  /\ forall e, In e ann -> snd (fst e) = LStr "_".
Proof.
  intros Hc H. destruct (candidates_run self w w1 _ Hc) as [_ T].
  specialize (T seg eq_refl).
  unfold Simple.__call__, bind in H. rewrite Hc in H.
  destruct (diarize_segments self seg w1 w2 ann T H) as [P Tr].
  split; [exact P|]. split; [|exact Tr].
  rewrite <- (Permutation_length P). now rewrite length_map.
Qed.

Lemma every_candidate_labelled_once_witness :
  exists ann : Annotation,
    fst (Simple.__call__ (C := Fixture.collaborators)
           (Fixture.simple [1; 1; 1; 0; 1; 0; 1; 1; 0; 0] Fixture.no_change 2
                           Fixture.crop_by_start)
           Fixture.fresh) = Ok ann
    /\ Permutation (map (fun e => fst (fst e)) ann)
                   [mkSegment 0 3; mkSegment 4 5; mkSegment 6 8]
    /\ length ann = 3%nat.
Proof.
  pose (self := Fixture.simple [1; 1; 1; 0; 1; 0; 1; 1; 0; 0]
                               Fixture.no_change 2 Fixture.crop_by_start).
  pose (r := Simple.candidates (C := Fixture.collaborators) self Fixture.fresh).
  pose (q := Simple.__call__ (C := Fixture.collaborators) self Fixture.fresh).
  destruct (every_candidate_labelled_once (C := Fixture.collaborators) self
              Fixture.fresh (snd r) (snd q)
              [mkSegment 0 3; mkSegment 4 5; mkSegment 6 8]
              match fst q with Ok ann => ann | Raise _ => [] end)
    as (P & L & _).
  - vm_compute. reflexivity.
  - vm_compute. reflexivity.
  - eexists. split; [vm_compute; reflexivity|]. split; [exact P | exact L].
Defined.

(** X5. In a successful invocation with two long segments or more,
    whether or not there are short ones, the i-th long segment carries
    exactly one label, the i-th label that [fcluster] gave for the
    embeddings of the long segments. *)
Theorem long_segment_keeps_cluster {C : Collaborators}
  (self : Simple.SimpleDiarization) (w w1 w2 : World) (seg : list Segment)
  (ann : Annotation) :
  Simple.candidates self w = (Ok seg, w1) ->
  (2 <= length (Simple.long_segments self seg))%nat ->
  Simple.__call__ self w = (Ok ann, w2) ->
  exists (emb_long : list Vec) (D : Dendrogram),
    Forall2 (fun s e => embedding self (current_file w1) s = Ok e)
            (Simple.long_segments self seg) emb_long
    /\ pool emb_long = Ok D
    /\ forall i l, nth_error (Simple.long_segments self seg) i = Some l ->
       exists c,
         nth_error (Simple.labels_of (fcluster D (Simple.emb_threshold self))) i
         = Some c
         /\ In (l, LStr "_", LInt c) ann
         /\ forall s' trk lab,
              In (s', trk, lab) ann -> seg_eq s' l -> lab = LInt c.
Proof.
  intros Hc L H. destruct (candidates_run self w w1 _ Hc) as [_ T].
  specialize (T seg eq_refl).
  unfold Simple.__call__, bind in H. rewrite Hc in H.
  destruct (diarize_tracks self seg w1 w2 ann T H)
    as [[E _]|[[E _]|[_ (el & D & lL & lS & FL & P & -> & LL & LS & G)]]];
    [lia | lia |].
  exists el, D. split; [exact FL|]. split; [exact P|].
  intros i l Hl.
  assert (Li : (i < length (Simple.long_segments self seg))%nat)
    by (apply nth_error_Some; congruence).
  assert (TL : is_timeline (Simple.long_segments self seg))
    by now apply filter_is_timeline.
  destruct (nth_error lL i) as [lab|] eqn:Elab;
    [|apply nth_error_None in Elab; lia].
  pose proof (G i Li) as Gi. rewrite Elab in Gi.
  destruct (nth_error (Simple.labels_of (fcluster D (Simple.emb_threshold self))) i)
    as [c|]; [|discriminate].
  simpl in Gi. inversion Gi; subst lab. exists c. split; [reflexivity|]. split.
  - apply in_or_app. left. apply In_tracks_of. now exists i, l, (LInt c).
  - intros s' trk lab Hin Eq. apply in_app_or in Hin. destruct Hin as [Hin|Hin].
    + apply In_tracks_of in Hin.
      destruct Hin as (i' & s'' & lab' & H1 & H2 & H3). inversion H3; subst.
      assert (i' = i).
      { apply (NoDupA_nth_error (Simple.long_segments self seg))
          with (x := s'') (y := l); try assumption.
        apply sorted_NoDupA. now destruct TL. }
      subst i'. congruence.
    + exfalso. apply In_tracks_of_segment in Hin. simpl in Hin.
      apply (long_not_short self seg l s'); [|exact Hin|exact Eq].
      eapply nth_error_In. exact Hl.
Qed.

Lemma long_segment_keeps_cluster_witness :
  exists ann : Annotation,
    fst (Simple.__call__ (C := Fixture.collaborators)
           (Fixture.simple [1; 1; 1; 0; 1; 0; 1; 1; 0; 0] Fixture.no_change 2
                           Fixture.crop_by_start)
           Fixture.fresh) = Ok ann
    /\ In (mkSegment 0 3, LStr "_", LInt 1) ann
    /\ In (mkSegment 6 8, LStr "_", LInt 2) ann.
Proof.
  pose (self := Fixture.simple [1; 1; 1; 0; 1; 0; 1; 1; 0; 0]
                               Fixture.no_change 2 Fixture.crop_by_start).
  pose (r := Simple.candidates (C := Fixture.collaborators) self Fixture.fresh).
  pose (q := Simple.__call__ (C := Fixture.collaborators) self Fixture.fresh).
  destruct (long_segment_keeps_cluster (C := Fixture.collaborators) self
              Fixture.fresh (snd r) (snd q)
              [mkSegment 0 3; mkSegment 4 5; mkSegment 6 8]
              match fst q with Ok ann => ann | Raise _ => [] end)
    as (el & D & FL & P & Each).
  - vm_compute. reflexivity.
  - vm_compute. lia.
  - vm_compute. reflexivity.
  - eexists. split; [vm_compute; reflexivity|].
    destruct (Each 0%nat (mkSegment 0 3) eq_refl) as (c0 & _ & _ & U0).
    destruct (Each 1%nat (mkSegment 6 8) eq_refl) as (c1 & _ & _ & U1).
    split.
    + vm_compute. tauto.
    + vm_compute. tauto.
Defined.

(** X6. Every segment that a successful invocation of the segment-level
    pipeline labels is longer than min(0.1, seg_min_duration) and lies
    within the speech regions, that is within the binarization of the
    speech curve that the file holds afterwards. *)
Theorem labelled_segments_within_speech {C : Collaborators}
  (self : Simple.SimpleDiarization) (w w2 : World) (ann : Annotation) :
  Simple.__call__ self w = (Ok ann, w2) ->
  exists sad_scores,
    f_scores (current_file w2) "sad_scores" = Some sad_scores
    /\ forall e, In e ann ->
         Qmin 0.1 (Simple.seg_min_duration self) < duration (fst (fst e))
         /\ forall t, inside (fst (fst e)) t ->
              covers (Simple.sad_binarize_ self sad_scores
                                           (Simple.sad_speech_index_ self)) t.
Proof.
  intro H. destruct (call_candidates self w w2 ann H) as (seg & w1 & Hc & Hd).
  destruct (candidates_run self w w1 _ Hc) as [_ T]. specialize (T seg eq_refl).
  unfold Simple.candidates, bind in Hc.
  destruct (Simple.speech_turns self w) as [[tl|e] wa] eqn:E; [|discriminate].
  unfold ret in Hc. inversion Hc; subst.
  destruct (speech_turns_result self _ _ _ E) as (s1 & s2 & H1 & _ & ->).
  exists s1. split.
  - now rewrite (diarize_keeps_file self _ _ _ _ Hd).
  - intros e He. destruct (diarize_segments self _ _ _ _ T Hd) as [P _].
    assert (K : In (fst (fst e))
                   (map (fun e0 : Segment * Label * Label => fst (fst e0)) ann))
      by (apply (in_map (fun e0 => fst (fst e0))); exact He).
    apply (Permutation_in _ P) in K. apply filter_In in K.
    destruct K as [K1 K2]. apply Qltb_iff in K2. split; [exact K2|].
    intros t I.
    assert (Cv : covers (crop (Simple.scd_peak_ self s2
                                                (Simple.scd_change_index_ self))
                              (Simple.sad_binarize_ self s1
                                                    (Simple.sad_speech_index_ self)))
                        t) by now exists (fst (fst e)).
    apply covers_crop in Cv. destruct Cv as [_ Cv].
    assert (TS : is_timeline (Simple.sad_binarize_ self s1
                                (Simple.sad_speech_index_ self)))
      by apply Timeline_mk_is_timeline.
    destruct (support_spec _ TS) as [CS _].
    apply CS. exact Cv.
Qed.

Lemma labelled_segments_within_speech_witness :
  exists sad_scores,
    f_scores
      (current_file
         (snd (Simple.__call__ (C := Fixture.collaborators)
                 (Fixture.simple [1; 1; 1; 0; 1; 0; 1; 1; 0; 0]
                                 Fixture.no_change 2 Fixture.crop_by_start)
                 Fixture.fresh)))
      "sad_scores" = Some sad_scores
    /\ covers (Simple.sad_binarize_ (C := Fixture.collaborators)
                 (Fixture.simple [1; 1; 1; 0; 1; 0; 1; 1; 0; 0]
                                 Fixture.no_change 2 Fixture.crop_by_start)
                 sad_scores 0)
              (9 # 2).
Proof.
  pose (self := Fixture.simple [1; 1; 1; 0; 1; 0; 1; 1; 0; 0]
                               Fixture.no_change 2 Fixture.crop_by_start).
  pose (q := Simple.__call__ (C := Fixture.collaborators) self Fixture.fresh).
  destruct (labelled_segments_within_speech (C := Fixture.collaborators) self
              Fixture.fresh (snd q)
              match fst q with Ok ann => ann | Raise _ => [] end)
    as (s & F & Each).
  - vm_compute. reflexivity.
  - exists s. split; [exact F|].
    apply (Each (mkSegment 4 5, LStr "_", LInt 2)).
    + vm_compute. tauto.
    + split; simpl; qfact.
Defined.

(** X7. The segment on which [get_embedding] tries again always lasts
    157 ms.  It lies within the recording when the recording lasts
    157 ms or more, and sticks out of it when the recording is shorter.
    It contains the segment it replaces whenever that one lies within
    the recording and lasts 157 ms at most. *)
Theorem extended_segment_geometry (file : ProtocolFile) (segment : Segment) :
  let ext := Simple.extended_segment file segment in
  let D := f_duration file in
  duration ext == 0.157
  /\ (0.157 <= D -> 0 <= start ext /\ end_ ext <= D)
  /\ (D < 0.157 -> start ext < 0 \/ D < end_ ext)
  /\ (0 <= start segment -> end_ segment <= D -> duration segment <= 0.157 ->
      start ext <= start segment /\ end_ segment <= end_ ext).
Proof.
  intros ext D.
  unfold ext, D, Simple.extended_segment, Simple.MIN_DURATION, duration,
    Segment_bool.
  destruct (Qltb_spec (middle segment - (1 # 2) * (157 # 1000)) 0) as [L|L];
    [|destruct (Qltb_spec (f_duration file)
                 (middle segment + (1 # 2) * (157 # 1000))) as [L'|L']];
    cbn [start end_];
    repeat match goal with
           | |- context [Qltb ?a ?b] => destruct (Qltb_spec a b)
           end;
    unfold middle in *;
    repeat split; intros; try lra; try (left; lra); right; lra.
Qed.

Lemma extended_segment_geometry_witness :
  let ext := Simple.extended_segment Fixture.recording (mkSegment 9.95 10) in
  0 <= start ext /\ end_ ext <= 10
  /\ start ext <= 9.95 /\ 10 <= end_ ext.
Proof.
  intro ext.
  destruct (extended_segment_geometry Fixture.recording (mkSegment 9.95 10))
    as (_ & In_ & _ & Holds).
  destruct In_ as [I1 I2]; [simpl; qfact|].
  destruct Holds as [H1 H2]; [simpl; qfact | simpl; qfact | simpl; qfact |].
  repeat split; assumption.
Defined.

(** X8. When the file holds no speech curve and the speech detector
    raises, the invocation of the segment-level pipeline raises the same
    exception right there: the file is as it was, and neither the
    change detector nor the embedding model has been called. *)
Theorem speech_detector_failure {C : Collaborators}
  (self : Simple.SimpleDiarization) (w : World) (e : exn) :
  f_scores (current_file w) "sad_scores" = None ->
  Simple.sad self (current_file w) = Raise e ->
  Simple.__call__ self w
  = (Raise e, mkWorld (current_file w) (trace w ++ [EvSad])).
Proof.
  intros N F.
  unfold Simple.__call__, Simple.candidates, Simple.speech_turns.
  unfold bind. rewrite cached_scores_run, N, F. reflexivity.
Qed.

Lemma speech_detector_failure_witness :
  Simple.__call__ (C := Fixture.collaborators)
    (Fixture.with_detectors Fixture.detector_fails Fixture.detector_fails
       (Fixture.simple [] [] 2 Fixture.crop157))
    Fixture.fresh
  = (Raise ValueError, mkWorld Fixture.recording [EvSad]).
Proof.
  apply (speech_detector_failure (C := Fixture.collaborators)
           (Fixture.with_detectors Fixture.detector_fails Fixture.detector_fails
              (Fixture.simple [] [] 2 Fixture.crop157))
           Fixture.fresh ValueError); reflexivity.
Defined.

(** X9. When the file holds neither curve, the speech detector answers
    and the change detector raises, the change detector was called on
    the file that already holds the speech curve, the invocation raises
    the same exception, and the speech curve stays in the file. *)
Theorem change_detector_failure {C : Collaborators}
  (self : Simple.SimpleDiarization) (w : World) (raw : Curve) (e : exn) :
  f_scores (current_file w) "sad_scores" = None ->
  f_scores (current_file w) "scd_scores" = None ->
  Simple.sad self (current_file w) = Ok raw ->
  let file' := store "sad_scores" (corrected raw) (current_file w) in
  Simple.scd self file' = Raise e ->
  Simple.__call__ self w
  = (Raise e, mkWorld file' (trace w ++ [EvSad; EvScd]))
  /\ f_scores file' "sad_scores" = Some (corrected raw).
Proof.
  intros N1 N2 F1 file' F2. split; [|reflexivity].
  unfold Simple.__call__, Simple.candidates, Simple.speech_turns.
  unfold bind. rewrite cached_scores_run, N1, F1.
  rewrite cached_scores_run. simpl current_file. simpl trace.
  fold file'.
  assert (K : f_scores file' "scd_scores" = None) by (simpl; exact N2).
  rewrite K, F2. now rewrite <- app_assoc.
Qed.

Lemma change_detector_failure_witness :
  let self := Fixture.with_detectors
                (fun _ => Ok Fixture.log_scores) Fixture.detector_fails
                (Fixture.simple [] [] 2 Fixture.crop157) in
  let r := Simple.__call__ (C := Fixture.collaborators) self Fixture.fresh in
  fst r = Raise ValueError
  /\ f_scores (current_file (snd r)) "sad_scores" = Some [[1 # 2]; [1 # 3]].
Proof.
  intros self r.
  destruct (change_detector_failure (C := Fixture.collaborators) self
              Fixture.fresh Fixture.log_scores ValueError)
    as [Run _]; try reflexivity.
  unfold r. rewrite Run. split; [reflexivity|]. vm_compute. reflexivity.
Defined.

(** X10. What an invocation of the frame-level pipeline calls, in
    order: the embedding model, always and first; then the speech
    detector, once at most and only if the file held no speech curve;
    then the overlap detector, once at most and only if there is one
    and the file held no overlap curve; then [pool], once at most. *)
Theorem frame_level_calls {C : Collaborators}
  (self : Discrete.DiscreteDiarization) (w : World) :
  exists a b c,
    trace (snd (Discrete.__call__ self w)) = trace w ++ EvEmb :: a ++ b ++ c
    /\ (a = [] \/ a = [EvSad]
                  /\ f_scores (current_file w) "sad_scores" = None)
    /\ (b = [] \/ b = [EvOvl]
                  /\ f_scores (current_file w) "ovl_scores" = None
                  /\ Discrete.ovl self <> None)
    /\ (c = [] \/ exists X, c = [EvPool X]).
Proof.
  unfold Discrete.__call__. unfold bind at 1.
  destruct (Discrete.speech_frames self w) as [[fr|x] w1] eqn:E1.
  2:{ destruct (speech_frames_trace self _ _ _ E1) as (a & T & K).
      exists a, [], []. simpl. rewrite !app_nil_r. tauto. }
  destruct (speech_frames_trace self _ _ _ E1) as (a & T & K).
  pose proof (speech_frames_caches_sad self _ _ _ E1) as [Ext _].
  destruct (Nat.eqb (length (Discrete.speech_indices fr)) 0).
  { exists a, [], []. simpl. rewrite !app_nil_r. tauto. }
  unfold bind at 1.
  destruct (Discrete.ovl self) as [m|] eqn:O.
  - unfold bind at 1.
    destruct (Discrete.overlap_block _ _ _ _ _ _ _ w1) as [[o|x] w2] eqn:E2.
    + unfold ret at 1.
      destruct (Discrete.clustering self fr (Some o) w2) as [r w3] eqn:E3.
      destruct (overlap_block_trace self _ _ _ _ _ _ _ _ _ E2) as (b & T2 & K2).
      destruct (clustering_trace self _ _ _ _ _ E3) as (c & T3 & K3).
      exists a, b, c. simpl. rewrite T3, T2, T, <- !app_assoc. simpl.
      split; [reflexivity|]. split; [exact K|]. split.
      * destruct K2 as [->|[-> N]]; [now left|right].
        split; [reflexivity|]. split; [|discriminate].
        destruct (f_scores (current_file w) "ovl_scores") as [s|] eqn:F;
          [|reflexivity].
        destruct Ext as (_ & _ & Ext). rewrite (Ext _ _ F) in N. discriminate.
      * destruct K3 as [->|[X [-> _]]]; [now left | right; now exists X].
    + destruct (overlap_block_trace self _ _ _ _ _ _ _ _ _ E2) as (b & T2 & K2).
      exists a, b, []. simpl. rewrite T2, T, <- !app_assoc, app_nil_r. simpl.
      split; [reflexivity|]. split; [exact K|]. split; [|now left].
      destruct K2 as [->|[-> N]]; [now left|right].
      split; [reflexivity|]. split; [|discriminate].
      destruct (f_scores (current_file w) "ovl_scores") as [s|] eqn:F;
        [|reflexivity].
      destruct Ext as (_ & _ & Ext). rewrite (Ext _ _ F) in N. discriminate.
  - unfold ret at 1.
    destruct (Discrete.clustering self fr None w1) as [r w3] eqn:E3.
    destruct (clustering_trace self _ _ _ _ _ E3) as (c & T3 & K3).
    exists a, [], c. simpl. rewrite T3, T, <- !app_assoc. simpl.
    split; [reflexivity|]. split; [exact K|]. split; [now left|].
    destruct K3 as [->|[X [-> _]]]; [now left | right; now exists X].
Qed.

(** X11. The embeddings are asked for before the cache is looked at:
    when the embedding model raises, the invocation of the frame-level
    pipeline raises the same exception, whatever curves the file holds,
    and neither a detector nor [pool] has been called. *)
Theorem embedding_model_failure {C : Collaborators}
  (self : Discrete.DiscreteDiarization) (w : World) (e : exn) :
  Discrete.emb self (current_file w) = Raise e ->
  Discrete.__call__ self w
  = (Raise e, mkWorld (current_file w) (trace w ++ [EvEmb])).
Proof.
  intro F. unfold Discrete.__call__, Discrete.speech_frames.
  unfold bind, get_file, call. now rewrite F.
Qed.

Lemma embedding_model_failure_witness :
  Discrete.__call__ (C := Fixture.collaborators)
    (Fixture.with_emb Fixture.emb_fails
       (Fixture.discrete [1; 1; 0; 0; 0; 0; 0; 0; 0; 0] None
                         Fixture.three_speakers (1 # 2)))
    Fixture.precomputed
  = (Raise RuntimeError,
     mkWorld (current_file Fixture.precomputed) [EvEmb]).
Proof.
  apply (embedding_model_failure (C := Fixture.collaborators)
           (Fixture.with_emb Fixture.emb_fails
              (Fixture.discrete [1; 1; 0; 0; 0; 0; 0; 0; 0; 0] None
                                Fixture.three_speakers (1 # 2)))
           Fixture.precomputed RuntimeError).
  reflexivity.
Defined.

(** X12. Without a speech frame the frame-level pipeline returns the
    empty annotation; it has called the embedding model and, at most,
    the speech detector; the overlap detector is not consulted and the
    file holds under "ovl_scores" what it held. *)
Theorem no_speech_no_overlap_detection {C : Collaborators}
  (self : Discrete.DiscreteDiarization) (w w1 : World)
  (fr : Discrete.Frames) :
  Discrete.speech_frames self w = (Ok fr, w1) ->
  Discrete.speech_indices fr = [] ->
  Discrete.__call__ self w = (Ok [], w1)
  /\ (trace w1 = trace w ++ [EvEmb] \/ trace w1 = trace w ++ [EvEmb; EvSad])
  /\ f_scores (current_file w1) "ovl_scores"
     = f_scores (current_file w) "ovl_scores".
Proof.
  intros H E. split; [exact (no_speech_frame self w w1 fr H E)|]. split.
  - destruct (speech_frames_trace self _ _ _ H) as (a & T & [->|[-> _]]);
      rewrite T; tauto.
  - destruct (speech_frames_caches_sad self _ _ _ H) as [_ Out].
    apply Out. intros [K|[]]. discriminate.
Qed.

Lemma no_speech_no_overlap_detection_witness :
  let self := Fixture.discrete [0; 0; 0; 0; 0; 0; 0; 0; 0; 0]
                               (Some [1; 1; 0; 0; 0; 0; 0; 0; 0; 0])
                               Fixture.three_speakers (1 # 2) in
  let r := Discrete.__call__ (C := Fixture.collaborators) self Fixture.fresh in
  fst r = Ok []
  /\ f_scores (current_file (snd r)) "ovl_scores" = None.
Proof.
  intros self r.
  pose (q := Discrete.speech_frames (C := Fixture.collaborators) self
                                    Fixture.fresh).
  destruct (no_speech_no_overlap_detection (C := Fixture.collaborators) self
              Fixture.fresh (snd q)
              match fst q with Ok fr => fr | Raise _ => Fixture.no_frames end)
    as (Run & _ & Kept).
  - vm_compute. reflexivity.
  - vm_compute. reflexivity.
  - unfold r. rewrite Run. split; [reflexivity|]. exact Kept.
Defined.

(** X13. The frames that the frame-level pipeline selects all have an
    embedding: the index of every speech frame and, with an overlap
    detector, of every clean and of every noisy speech frame is below
    len(emb).  So [emb[indices]] and [emb[noisy_speech_indices]] do not
    raise IndexError and give one embedding per index. *)
Theorem frames_have_embeddings {C : Collaborators}
  (self : Discrete.DiscreteDiarization) (w w1 : World)
  (fr : Discrete.Frames) :
  Discrete.speech_frames self w = (Ok fr, w1) ->
  (exists X, Np.take (Discrete.data fr) (Discrete.speech_indices fr) = Ok X
             /\ length X = length (Discrete.speech_indices fr))
  /\ forall ovl_model w2 o,
       Discrete.overlap_block self (Discrete.extent fr) (Discrete.window fr)
         (length (Discrete.data fr)) (Discrete.speech fr)
         (Discrete.speech_discrete fr) ovl_model w1 = (Ok o, w2) ->
       (exists X, Np.take (Discrete.data fr) (Discrete.clean_speech_indices o)
                  = Ok X
                  /\ length X = length (Discrete.clean_speech_indices o))
       /\ (exists N, Np.take (Discrete.data fr)
                             (Discrete.noisy_speech_indices o) = Ok N
                     /\ length N = length (Discrete.noisy_speech_indices o)).
Proof.
  intro H. destruct (speech_frames_inv self _ _ _ H) as (a & SD & SI & _).
  assert (B : forall m, Forall (fun i => (i < length (Discrete.data fr))%nat)
                          (Np.where0 (Np.mul (Discrete.speech_discrete fr) m))).
  { intro m. apply Forall_forall. intros i Hi. apply In_where0_mul in Hi.
    rewrite SD in Hi. apply where0_bound in Hi.
    rewrite length_firstn in Hi. lia. }
  split.
  - destruct (take_ok (Discrete.data fr) (Discrete.speech_indices fr))
      as [X HX].
    + rewrite SI, SD. apply where0_firstn_bound.
    + exists X. split; [exact HX | now apply take_length in HX].
  - intros m w2 o Ho.
    destruct (overlap_block_inv self _ _ _ _ _ _ _ _ _ Ho) as (b & E1 & E2).
    split.
    + destruct (take_ok (Discrete.data fr) (Discrete.clean_speech_indices o))
        as [X HX]; [rewrite E1; apply B|].
      exists X. split; [exact HX | now apply take_length in HX].
    + destruct (take_ok (Discrete.data fr) (Discrete.noisy_speech_indices o))
        as [X HX]; [rewrite E2; apply B|].
      exists X. split; [exact HX | now apply take_length in HX].
Qed.

Lemma frames_have_embeddings_witness :
  let self := Fixture.discrete [1; 1; 1; 0; 0; 0; 0; 0; 0; 0] None
                               Fixture.three_speakers (1 # 2) in
  let q := Discrete.speech_frames (C := Fixture.collaborators) self
                                  Fixture.fresh in
  let fr := match fst q with Ok fr => fr | Raise _ => Fixture.no_frames end in
  exists X, Np.take (Discrete.data fr) (Discrete.speech_indices fr) = Ok X
            /\ length X = 3%nat.
Proof.
  intros self q fr.
  destruct (frames_have_embeddings (C := Fixture.collaborators) self
              Fixture.fresh (snd q) fr) as [[X [HX L]] _].
  - vm_compute. reflexivity.
  - exists X. split; [exact HX|]. rewrite L. vm_compute. reflexivity.
Defined.

(** X14. When [one_hot_encoding] gives, for one label, one column of
    zeros and ones whose number of rows depends on the support and the
    window only, the clean and the noisy speech frames of lines 423-424
    split the speech frames: a frame is a speech frame exactly when it
    is a clean or a noisy one, it is never both, and the three arrays
    of indices increase strictly. *)
Theorem speech_frames_split {C : Collaborators}
  (self : Discrete.DiscreteDiarization) (w w1 w2 : World)
  (fr : Discrete.Frames) (ovl_model : ProtocolFile -> Res Curve)
  (o : Discrete.Overlap) :
  (forall a tl win l, mask (one_hot_encoding a tl win [l])) ->
  (forall a a' tl win l l',
      length (one_hot_encoding a tl win l)
      = length (one_hot_encoding a' tl win l')) ->
  Discrete.speech_frames self w = (Ok fr, w1) ->
  Discrete.overlap_block self (Discrete.extent fr) (Discrete.window fr)
    (length (Discrete.data fr)) (Discrete.speech fr)
    (Discrete.speech_discrete fr) ovl_model w1 = (Ok o, w2) ->
  (forall i, In i (Discrete.speech_indices fr)
             <-> In i (Discrete.clean_speech_indices o)
                 \/ In i (Discrete.noisy_speech_indices o))
  /\ (forall i, ~ (In i (Discrete.clean_speech_indices o)
                   /\ In i (Discrete.noisy_speech_indices o)))
  /\ StronglySorted lt (Discrete.speech_indices fr)
  /\ StronglySorted lt (Discrete.clean_speech_indices o)
  /\ StronglySorted lt (Discrete.noisy_speech_indices o).
Proof.
  intros M L H Ho.
  destruct (speech_frames_inv self _ _ _ H) as (a & SD & SI & _).
  destruct (overlap_block_inv self _ _ _ _ _ _ _ _ _ Ho) as (b & E1 & E2).
  cbv zeta in E1, E2.
  set (od := firstn (length (Discrete.data fr))
                    (one_hot_encoding b (Timeline_mk [Discrete.extent fr])
                                      (Discrete.window fr) [LStr "overlap"]))
    in E1, E2.
  set (sd := Discrete.speech_discrete fr) in *.
  assert (Ms : mask sd) by (rewrite SD; apply mask_firstn, M).
  assert (Mo : mask od) by (apply mask_firstn, M).
  assert (Len : length sd = length od).
  { rewrite SD. unfold od. rewrite !length_firstn. f_equal. apply L. }
  rewrite SI, E1, E2.
  split; [|split; [|split; [|split]]].
  - intro i. rewrite (In_where0_mask sd i Ms).
    rewrite (In_where0_mul_mask sd _ i Ms (mask_one_minus _ Mo)).
    rewrite (In_where0_mul_mask sd od i Ms Mo).
    rewrite nth_error_one_minus. split; [|tauto].
    intro Hs. destruct (nth_error od i) as [row|] eqn:E.
    + destruct (mask_row od i row Mo E) as [-> | ->]; simpl; tauto.
    + apply nth_error_None in E.
      assert (K : (i < length sd)%nat) by (apply nth_error_Some; congruence).
      lia.
  - intros i [H1 H2].
    apply (In_where0_mul_mask sd _ i Ms (mask_one_minus _ Mo)) in H1.
    apply (In_where0_mul_mask sd od i Ms Mo) in H2.
    rewrite nth_error_one_minus in H1.
    destruct H1 as [_ H1], H2 as [_ H2]. rewrite H2 in H1. discriminate.
  - now apply where0_mask_sorted.
  - apply where0_mask_sorted. apply mask_mul; [exact Ms|].
    now apply mask_one_minus.
  - apply where0_mask_sorted. now apply mask_mul.
Qed.

Lemma speech_frames_split_witness :
  let ovl_model := fun _ : ProtocolFile =>
    Ok (Fixture.curve [0; 0; 1; 0; 0; 0; 0; 0; 0; 0]) in
  let self := Fixture.discrete [1; 1; 1; 0; 0; 0; 0; 0; 0; 0]
                               (Some [0; 0; 1; 0; 0; 0; 0; 0; 0; 0])
                               Fixture.three_speakers (1 # 2) in
  let q := Discrete.speech_frames (C := Fixture.collaborators) self
                                  Fixture.fresh in
  let fr := match fst q with Ok fr => fr | Raise _ => Fixture.no_frames end in
  let b := Discrete.overlap_block (C := Fixture.collaborators) self
             (Discrete.extent fr) (Discrete.window fr)
             (length (Discrete.data fr)) (Discrete.speech fr)
             (Discrete.speech_discrete fr) ovl_model (snd q) in
  let o := match fst b with Ok o => o | Raise _ => Fixture.no_overlap end in
  In 2%nat (Discrete.speech_indices fr)
  <-> In 2%nat (Discrete.clean_speech_indices o)
      \/ In 2%nat (Discrete.noisy_speech_indices o).
Proof.
  intros ovl_model self q fr b o.
  refine (proj1 (speech_frames_split (C := Fixture.collaborators) self
                   Fixture.fresh (snd q) (snd b) fr ovl_model o _ _ _ _)
                2%nat).
  - intros. apply encode_mask.
  - intros. apply encode_length.
  - vm_compute. reflexivity.
  - vm_compute. reflexivity.
Defined.

(** X15. The array [y] of lines 433-435, for indices below its number
    of rows and [num_clusters] one more than the greatest cluster: its
    entries are zeros and ones, the ones are exactly at the pairs
    (i, k) of zip(indices, cluster), and when the indices are pairwise
    distinct the row of a clustered frame has its only one at the
    column of the cluster of that frame. *)
Theorem clustered_frame_one_cluster (n : nat) (indices cluster : list nat)
  (top : nat) :
  Forall (fun i => (i < n)%nat) indices ->
  Np.max cluster = Ok top ->
  let y := cluster_y n (top + 1) indices cluster in
  (forall i k, entry y i k = 1%Z \/ entry y i k = 0%Z)
  /\ (forall i k, entry y i k = 1%Z <-> In (i, k) (combine indices cluster))
  /\ (NoDup indices ->
      forall p i c, nth_error indices p = Some i ->
                    nth_error cluster p = Some c ->
                    forall k, entry y i k = 1%Z <-> k = c).
Proof.
  intros B M y.
  assert (Iff : forall i k,
             entry y i k = 1%Z <-> In (i, k) (combine indices cluster)).
  { intros i k. unfold y, cluster_y.
    rewrite (proj1 (entry_writes_zeros n (top + 1) _ i k)).
    split; [tauto|]. intro H. split; [exact H|].
    rewrite Forall_forall in B. split.
    - apply B. now apply in_combine_l in H.
    - apply in_combine_r in H. destruct (max_bound _ _ M) as [F _].
      rewrite Forall_forall in F. specialize (F k H). lia. }
  split; [|split; [exact Iff|]].
  - intros i k. apply (entry_writes_zeros n (top + 1)).
  - intros ND p i c Hi Hc k. rewrite Iff, In_combine_nth_error. split.
    + intros [p' [H1 H2]].
      assert (p' = p).
      { apply (proj1 (NoDup_nth_error indices) ND).
        - apply nth_error_Some. congruence.
        - congruence. }
      subst p'. congruence.
    + intros ->. now exists p.
Qed.

Lemma clustered_frame_one_cluster_witness :
  entry (cluster_y 4 2 [0; 2]%nat [1; 0]%nat) 0 1 = 1%Z
  /\ entry (cluster_y 4 2 [0; 2]%nat [1; 0]%nat) 0 0 <> 1%Z.
Proof.
  destruct (clustered_frame_one_cluster 4 [0; 2]%nat [1; 0]%nat 1)
    as (_ & _ & One).
  - apply Forall_forall. simpl. intros i [<-|[<-|[]]]; lia.
  - reflexivity.
  - assert (ND : NoDup [0; 2]%nat).
    { constructor; [simpl; intros [H|[]]; discriminate|].
      constructor; [intros []|constructor]. }
    pose proof (One ND 0%nat 0%nat 1%nat eq_refl eq_refl) as K. split.
    + apply (K 1%nat). reflexivity.
    + intro H. apply (K 0%nat) in H. discriminate.
Defined.

(** X16. Lines 447-464 with three clusters or more: the reassignment
    step succeeds; only noisy frames get a one; every noisy frame gets
    exactly two clusters, they differ, and no other cluster has its
    average embedding nearer to the embedding of the frame (cosine
    distance). *)
Theorem noisy_frame_two_nearest {C : Collaborators}
  (X : list Vec) (cluster : list nat) (num_clusters n : nat)
  (noisy_speech_indices : list nat) (noisy : list Vec) :
  (3 <= num_clusters)%nat ->
  NoDup noisy_speech_indices ->
  Forall (fun i => (i < n)%nat) noisy_speech_indices ->
  exists part,
    Discrete.most_similar_clusters X cluster num_clusters noisy = Ok part
    /\ let y := Discrete.overlap_y n num_clusters noisy_speech_indices part in
       (forall i k, entry y i k = 1%Z -> In i noisy_speech_indices)
       /\ forall p i v,
            nth_error noisy_speech_indices p = Some i ->
            nth_error noisy p = Some v ->
            let d := fun k => cosine (np_mean (Discrete.members X cluster k)) v in
            exists k1 k2,
              k1 <> k2 /\ (k1 < num_clusters)%nat /\ (k2 < num_clusters)%nat
              /\ (forall k, entry y i k = 1%Z <-> k = k1 \/ k = k2)
              /\ forall k, (k < num_clusters)%nat -> k <> k1 -> k <> k2 ->
                   d k1 <= d k /\ d k2 <= d k.
Proof.
  intros N ND B.
  unfold Discrete.most_similar_clusters, Np.argpartition_axis0. cbv zeta.
  replace (Nat.min 2 num_clusters) with 2%nat by lia.
  replace (length (cdist _ noisy)) with num_clusters
    by (unfold cdist; now rewrite !length_map, length_seq).
  replace (Nat.leb num_clusters 2) with false
    by (symmetry; apply Nat.leb_gt; lia).
  rewrite andb_false_r. cbn [res_bind]. eexists. split; [reflexivity|].
  rewrite columns_cdist, !map_map.
  set (cluster_emb := map (fun k => np_mean (Discrete.members X cluster k))
                          (seq 0 num_clusters)).
  set (part := map (fun b => firstn 2 (Np.argsort
                                         (map (fun a => cosine a b) cluster_emb)))
                   noisy).
  split.
  - intros i k H. apply entry_overlap_y in H.
    destruct H as [[ks [H _]] _]. now apply in_combine_l in H.
  - intros p i v Hi Hv.
    set (d := fun k => cosine (np_mean (Discrete.members X cluster k)) v).
    set (col := map (fun a => cosine a v) cluster_emb).
    assert (L : length col = num_clusters)
      by (unfold col, cluster_emb; now rewrite !length_map, length_seq).
    assert (Hp : nth_error part p = Some (firstn 2 (Np.argsort col))).
    { unfold part. rewrite nth_error_map, Hv. reflexivity. }
    assert (Nth : forall k, (k < num_clusters)%nat -> nth k col 0 = d k).
    { intros k Hk. apply nth_error_nth. unfold col, cluster_emb.
      rewrite !nth_error_map.
      rewrite (nth_error_nth' (seq 0 num_clusters) 0%nat)
        by (now rewrite length_seq).
      rewrite seq_nth by exact Hk. reflexivity. }
    destruct (argsort_two_least col) as (k1 & k2 & F & NE & L1 & L2 & Least);
      [lia|].
    rewrite L in L1, L2. exists k1, k2.
    split; [exact NE|]. split; [exact L1|]. split; [exact L2|]. split.
    + intro k. rewrite entry_overlap_y. split.
      * intros [[ks [H K]] _]. apply In_combine_nth_error in H.
        destruct H as [p' [H1 H2]].
        assert (p' = p).
        { apply (proj1 (NoDup_nth_error noisy_speech_indices) ND).
          - apply nth_error_Some. congruence.
          - congruence. }
        subst p'. assert (E : ks = [k1; k2]) by congruence.
        rewrite E in K. simpl in K. intuition congruence.
      * intro K. split; [|split].
        -- exists (firstn 2 (Np.argsort col)). split.
           ++ apply In_combine_nth_error. now exists p.
           ++ rewrite F. simpl. intuition congruence.
        -- rewrite Forall_forall in B. apply B. eapply nth_error_In. exact Hi.
        -- destruct K as [-> | ->]; assumption.
    + intros k Hk N1 N2.
      destruct (Least k) as [A1 A2]; [lia | exact N1 | exact N2 |].
      rewrite !Nth in A1, A2 by assumption. exact (conj A1 A2).
Qed.

Lemma noisy_frame_two_nearest_witness :
  exists part,
    Discrete.most_similar_clusters (C := Fixture.collaborators)
      [(1, 0); (3 # 5, 4 # 5); (0, 1)] [0; 1; 2]%nat 3 [(1, 0)] = Ok part
    /\ forall i k, entry (Discrete.overlap_y 10 3 [3%nat] part) i k = 1%Z ->
                   i = 3%nat.
Proof.
  destruct (noisy_frame_two_nearest (C := Fixture.collaborators)
              [(1, 0); (3 # 5, 4 # 5); (0, 1)] [0; 1; 2]%nat 3 10
              [3%nat] [(1, 0)])
    as (part & Run & Rest).
  - lia.
  - constructor; [intros []|constructor].
  - apply Forall_forall. simpl. intros i [<-|[]]. lia.
  - cbv zeta in Rest. destruct Rest as [Only _].
    exists part. split; [exact Run|]. intros i k H.
    destruct (Only i k H) as [<-|[]]. reflexivity.
Defined.

(** X17. With [crop] and [gaps] of the segment algebra, the timelines
    of lines 408-411 are these: an instant is clean speech exactly when
    it is speech, inside [extent] and outside the overlap regions; it
    is noisy speech exactly when it is speech inside the overlap
    regions.  So inside [extent] every instant of speech is clean or
    noisy, and speech outside [extent] is never clean.  The overlap
    regions are the binarization of the curve that the file holds under
    "ovl_scores" afterwards. *)
Theorem speech_is_clean_or_noisy {C : Collaborators}
  (self : Discrete.DiscreteDiarization) (extent : Segment)
  (window : SlidingWindow) (n : nat) (speech : Timeline)
  (speech_discrete : Np.Matrix Z) (ovl_model : ProtocolFile -> Res Curve)
  (w w' : World) (r : Discrete.Overlap) :
  Discrete.overlap_block self extent window n speech speech_discrete
                         ovl_model w = (Ok r, w') ->
  exists ovl_scores,
    f_scores (current_file w') "ovl_scores" = Some ovl_scores
    /\ let overlap := Discrete.ovl_binarize_ self ovl_scores
                        (Discrete.ovl_overlap_index_ self) in
       forall t,
         (covers (Discrete.clean_speech r) t
          <-> covers speech t /\ inside extent t /\ ~ covers overlap t)
         /\ (covers (Discrete.noisy_speech r) t
             <-> covers speech t /\ covers overlap t)
         /\ (inside extent t ->
             (covers speech t
              <-> covers (Discrete.clean_speech r) t
                  \/ covers (Discrete.noisy_speech r) t)).
Proof.
  intro H. destruct (overlap_block_scores self _ _ _ _ _ _ _ _ _ H)
    as (s & F & Ec & En).
  exists s. split; [exact F|]. intros overlap t.
  fold overlap in Ec, En.
  assert (To : is_timeline overlap) by apply Timeline_mk_is_timeline.
  assert (Tg : is_timeline (gaps overlap extent))
    by apply Timeline_mk_is_timeline.
  assert (Clean : covers (Discrete.clean_speech r) t
                  <-> covers speech t /\ inside extent t /\ ~ covers overlap t).
  { rewrite Ec, covers_crop.
    rewrite (proj1 (support_spec _ Tg) t), gaps_spec. tauto. }
  assert (Noisy : covers (Discrete.noisy_speech r) t
                  <-> covers speech t /\ covers overlap t).
  { rewrite En, covers_crop. rewrite (proj1 (support_spec _ To) t). tauto. }
  split; [exact Clean|]. split; [exact Noisy|].
  intro I. rewrite Clean, Noisy.
  destruct (covers_dec overlap t); tauto.
Qed.

Lemma speech_is_clean_or_noisy_witness :
  let ovl_model := fun _ : ProtocolFile =>
    Ok (Fixture.curve [0; 0; 1; 0; 0; 0; 0; 0; 0; 0]) in
  let self := Fixture.discrete [1; 1; 1; 0; 0; 0; 0; 0; 0; 0]
                               (Some [0; 0; 1; 0; 0; 0; 0; 0; 0; 0])
                               Fixture.three_speakers (1 # 2) in
  let b := Discrete.overlap_block (C := Fixture.collaborators) self
             (mkSegment 0 10) (mkWindow 0 1 1) 10
             [mkSegment 0 1; mkSegment 1 2; mkSegment 2 3] [] ovl_model
             Fixture.fresh in
  let o := match fst b with Ok o => o | Raise _ => Fixture.no_overlap end in
  covers (Discrete.clean_speech o) (1 # 2)
  \/ covers (Discrete.noisy_speech o) (1 # 2).
Proof.
  intros ovl_model self b o.
  destruct (speech_is_clean_or_noisy (C := Fixture.collaborators) self
              (mkSegment 0 10) (mkWindow 0 1 1) 10
              [mkSegment 0 1; mkSegment 1 2; mkSegment 2 3] [] ovl_model
              Fixture.fresh (snd b) o)
    as (s & _ & Each).
  - vm_compute. reflexivity.
  - cbv zeta in Each. destruct (Each (1 # 2)) as (_ & _ & Cov).
    apply Cov.
    + split; simpl; qfact.
    + exists (mkSegment 0 1). split; [now left | split; simpl; qfact].
Defined.

(** X18. Every track of the annotation that a successful invocation of
    the frame-level pipeline returns lies within the speech regions,
    that is within the binarization of the speech curve that the file
    holds afterwards, with or without an overlap detector. *)
Theorem frame_labels_within_speech {C : Collaborators}
  (self : Discrete.DiscreteDiarization) (w w2 : World) (ann : Annotation) :
  Discrete.__call__ self w = (Ok ann, w2) ->
  exists sad_scores,
    f_scores (current_file w2) "sad_scores" = Some sad_scores
    /\ forall e t, In e ann -> inside (fst (fst e)) t ->
         covers (Discrete.sad_binarize_ self sad_scores
                                        (Discrete.sad_speech_index_ self)) t.
Proof.
  unfold Discrete.__call__. unfold bind at 1. intro H.
  destruct (Discrete.speech_frames self w) as [[fr|x] w1] eqn:E1;
    [|discriminate].
  destruct (speech_frames_speech self _ _ _ E1) as (s & F & Es).
  exists s.
  assert (T : is_timeline (Discrete.speech fr))
    by (rewrite Es; apply Timeline_mk_is_timeline).
  destruct (Nat.eqb (length (Discrete.speech_indices fr)) 0).
  { unfold ret in H. inversion H; subst. split; [exact F|].
    intros e t []. }
  unfold bind at 1 in H.
  destruct (Discrete.ovl self) as [m|].
  - unfold bind at 1 in H.
    destruct (Discrete.overlap_block _ _ _ _ _ _ _ w1) as [[o|x] wa] eqn:E2;
      [|discriminate].
    unfold ret at 1 in H.
    destruct (overlap_block_caches self _ _ _ _ _ _ _ _ _ E2)
      as [(_ & _ & Ext) _].
    pose proof (clustering_keeps_file self _ _ _ _ _ H) as K.
    unfold keeps_file in K. split; [rewrite K; now apply Ext|].
    rewrite <- Es. eapply clustering_inside; [exact T | | exact H].
    intros r Er. inversion Er; subst r.
    destruct (overlap_block_run self _ _ _ _ _ _ _ _ _ E2)
      as (ov & Tov & Ec & En).
    split; [rewrite Ec; apply crop_is_timeline|].
    split; [rewrite En; apply crop_is_timeline|].
    intros t [Hc|Hn].
    + rewrite Ec in Hc. now apply covers_crop in Hc.
    + rewrite En in Hn. now apply covers_crop in Hn.
  - unfold ret at 1 in H.
    pose proof (clustering_keeps_file self _ _ _ _ _ H) as K.
    unfold keeps_file in K. split; [now rewrite K|].
    rewrite <- Es. eapply clustering_inside; [exact T | | exact H].
    intros r Er. discriminate.
Qed.

Lemma frame_labels_within_speech_witness :
  let self := Fixture.discrete [1; 1; 0; 0; 0; 0; 0; 0; 0; 0] None
                               Fixture.three_speakers (1 # 2) in
  let r := Discrete.__call__ (C := Fixture.collaborators) self Fixture.fresh in
  let ann := match fst r with Ok ann => ann | Raise _ => [] end in
  ann <> []
  /\ exists sad_scores,
       f_scores (current_file (snd r)) "sad_scores" = Some sad_scores
       /\ forall e t, In e ann -> inside (fst (fst e)) t ->
            covers (Discrete.sad_binarize_ (C := Fixture.collaborators) self
                      sad_scores 0) t.
Proof.
  intros self r ann. split; [vm_compute; discriminate|].
  apply (frame_labels_within_speech (C := Fixture.collaborators) self
           Fixture.fresh (snd r) ann).
  vm_compute. reflexivity.
Defined.

(** X19. The reassignment step of lines 447-459 raises exactly when
    there is a noisy frame and one or two clusters, and then it raises
    ValueError; in every other case (no noisy frame, or three clusters
    or more) it gives, for each noisy frame, min(2, num_clusters)
    clusters. *)
Theorem reassignment_raises_iff {C : Collaborators}
  (X : list Vec) (cluster : list nat) (num_clusters : nat)
  (noisy : list Vec) :
  (Discrete.most_similar_clusters X cluster num_clusters noisy
   = Raise ValueError
   <-> noisy <> [] /\ (1 <= num_clusters <= 2)%nat)
  /\ (forall e, Discrete.most_similar_clusters X cluster num_clusters noisy
                = Raise e -> e = ValueError)
  /\ (forall part,
        Discrete.most_similar_clusters X cluster num_clusters noisy = Ok part ->
        length part = length noisy
        /\ Forall (fun ks => length ks = Nat.min 2 num_clusters) part).
Proof.
  split; [|split].
  - split.
    + intro H. destruct noisy as [|v r].
      * rewrite most_similar_clusters_no_noisy in H. discriminate.
      * split; [discriminate|].
        destruct (Nat.eq_dec num_clusters 0) as [->|N0].
        { unfold Discrete.most_similar_clusters, Np.argpartition_axis0 in H.
          simpl in H. discriminate. }
        destruct (Nat.le_gt_cases 3 num_clusters) as [L|L]; [|lia].
        destruct (most_similar_clusters_two X cluster num_clusters (v :: r) L)
          as (part & E & _).
        rewrite E in H. discriminate.
    + intros [NE N]. now apply most_similar_clusters_raises.
  - intros e H.
    unfold Discrete.most_similar_clusters, Np.argpartition_axis0 in H.
    cbv zeta in H. destruct (negb _ && _); [now inversion H | discriminate].
  - apply most_similar_clusters_ok.
Qed.

(** X20. What an invocation of the segment-level pipeline calls, in
    order: the speech detector, once at most and only if the file held
    no speech curve; the change detector, likewise; then the embedding
    model on segments; then [pool], once at most; then the embedding
    model on segments again, and only if [pool] was called. *)
Theorem segment_level_calls {C : Collaborators}
  (self : Simple.SimpleDiarization) (w : World) :
  exists a b c p d,
    trace (snd (Simple.__call__ self w)) = trace w ++ a ++ b ++ c ++ p ++ d
    /\ (a = [] \/ a = [EvSad]
                  /\ f_scores (current_file w) "sad_scores" = None)
    /\ (b = [] \/ b = [EvScd]
                  /\ f_scores (current_file w) "scd_scores" = None)
    /\ Forall crop_event c
    /\ (p = [] \/ exists X, p = [EvPool X])
    /\ Forall crop_event d
    /\ (p = [] -> d = []).
Proof.
  unfold Simple.__call__, Simple.candidates. unfold bind at 1. unfold bind at 1.
  destruct (Simple.speech_turns self w) as [[tl|e] w1] eqn:E1.
  - destruct (speech_turns_trace self _ _ _ E1) as (a & b & T & Ka & Kb).
    unfold ret at 1.
    destruct (Simple.diarize self _ w1) as [r w2] eqn:E2.
    destruct (diarize_trace self _ _ _ _ E2) as (c & p & d & T2 & Fc & Kp & Fd & Kd).
    exists a, b, c, p, d. simpl. rewrite T2, T, <- !app_assoc.
    split; [reflexivity|]. split; [exact Ka|]. split; [exact Kb|].
    split; [exact Fc|]. split; [exact Kp|]. split; [exact Fd | exact Kd].
  - destruct (speech_turns_trace self _ _ _ E1) as (a & b & T & Ka & Kb).
    exists a, b, [], [], []. simpl. rewrite T, !app_nil_r.
    split; [reflexivity|]. split; [exact Ka|]. split; [exact Kb|].
    split; [constructor|]. split; [now left|].
    split; [constructor | reflexivity].
Qed.

(** X21. With an overlap detector, a successful [clustering] returns
    the merge of line 470: [hypothesis], decoded from the array of the
    hard assignment of the clean speech frames and cropped to
    [clean_speech], updated with [noisy_hypothesis], decoded from the
    array of the reassignment of the noisy speech frames and cropped to
    [noisy_speech].  The update overwrites nothing: every track of
    [hypothesis] is in the result, every track of the result comes from
    one of the two, the former lie within [clean_speech] and the latter
    within [noisy_speech]. *)
Theorem clean_labels_kept {C : Collaborators}
  (self : Discrete.DiscreteDiarization) (fr : Discrete.Frames) (n : nat)
  (speech_discrete : Np.Matrix Z) (ovl_model : ProtocolFile -> Res Curve)
  (w1 w2 w3 w4 : World) (r : Discrete.Overlap) (ann : Annotation) :
  Discrete.overlap_block self (Discrete.extent fr) (Discrete.window fr) n
    (Discrete.speech fr) speech_discrete ovl_model w1 = (Ok r, w2) ->
  Discrete.clustering self fr (Some r) w3 = (Ok ann, w4) ->
  exists X dendrogram top noisy part,
    Np.take (Discrete.data fr) (Discrete.clean_speech_indices r) = Ok X
    /\ pool X = Ok dendrogram
    /\ let cluster :=
         map (fun c => (Pos.to_nat c - 1)%nat)
             (fcluster dendrogram (Discrete.emb_threshold self)) in
       let num_clusters := (top + 1)%nat in
       let hypothesis :=
         Annotation_crop
           (one_hot_decoding
              (cluster_y (length (Discrete.data fr)) num_clusters
                         (Discrete.clean_speech_indices r) cluster)
              (Discrete.window fr) (Discrete.range_labels num_clusters))
           (Discrete.clean_speech r) in
       let noisy_hypothesis :=
         Annotation_crop
           (one_hot_decoding
              (Discrete.overlap_y (length (Discrete.data fr)) num_clusters
                                  (Discrete.noisy_speech_indices r) part)
              (Discrete.window fr) (Discrete.range_labels num_clusters))
           (Discrete.noisy_speech r) in
       Np.max cluster = Ok top
       /\ Np.take (Discrete.data fr) (Discrete.noisy_speech_indices r)
          = Ok noisy
       /\ Discrete.most_similar_clusters X cluster num_clusters noisy
          = Ok part
       /\ ann = Annotation_update hypothesis noisy_hypothesis
       /\ (forall e, In e hypothesis -> In e ann)
       /\ (forall e, In e ann -> In e hypothesis \/ In e noisy_hypothesis)
       /\ (forall e t, In e hypothesis -> inside (fst (fst e)) t ->
                       covers (Discrete.clean_speech r) t)
       /\ (forall e t, In e noisy_hypothesis -> inside (fst (fst e)) t ->
                       covers (Discrete.noisy_speech r) t).
Proof.
  intros Ho Hc.
  destruct (overlap_block_run self _ _ _ _ _ _ _ _ _ Ho) as (ov & Tov & Ec & En).
  destruct (clustering_merges self _ _ _ _ _ Hc)
    as (X & dendrogram & top & noisy & part & E1 & E2 & K).
  cbv zeta in K. destruct K as (E3 & E4 & E5 & ->).
  assert (Tc : is_timeline (Discrete.clean_speech r))
    by (rewrite Ec; apply crop_is_timeline).
  assert (Tn : is_timeline (Discrete.noisy_speech r))
    by (rewrite En; apply crop_is_timeline).
  exists X, dendrogram, top, noisy, part.
  split; [exact E1|]. split; [exact E2|]. cbv zeta.
  split; [exact E3|]. split; [exact E4|]. split; [exact E5|].
  split; [reflexivity|]. split; [|split; [|split]].
  - intros e He. apply Annotation_update_keeps; [exact He|].
    intros e' He' Eq.
    pose proof (Annotation_crop_nonempty _ _ _ He) as B.
    apply Segment_bool_iff in B.
    assert (I : inside (fst (fst e)) (start (fst (fst e)))) by (split; lra).
    assert (I' : inside (fst (fst e')) (start (fst (fst e)))).
    { destruct Eq as [Q1 Q2]. destruct I as [I1 I2]. split; lra. }
    apply (clean_noisy_disjoint (Discrete.speech fr) ov (Discrete.extent fr)
             (start (fst (fst e))) Tov).
    rewrite <- Ec, <- En. split.
    + exact (Annotation_crop_inside _ _ _ _ Tc He I).
    + exact (Annotation_crop_inside _ _ _ _ Tn He' I').
  - intros e He. now apply In_Annotation_update.
  - intros e t He I. exact (Annotation_crop_inside _ _ _ _ Tc He I).
  - intros e t He I. exact (Annotation_crop_inside _ _ _ _ Tn He I).
Qed.

Lemma clean_labels_kept_witness :
  let ovl_model := fun _ : ProtocolFile =>
    Ok (Fixture.curve [0; 0; 0; 1; 0; 0; 0; 0; 0; 0]) in
  let self := Fixture.discrete [1; 1; 1; 1; 0; 0; 0; 0; 0; 0]
                               (Some [0; 0; 0; 1; 0; 0; 0; 0; 0; 0])
                               Fixture.three_speakers (1 # 2) in
  let q := Discrete.speech_frames (C := Fixture.collaborators) self
                                  Fixture.fresh in
  let fr := match fst q with Ok fr => fr | Raise _ => Fixture.no_frames end in
  let b := Discrete.overlap_block (C := Fixture.collaborators) self
             (Discrete.extent fr) (Discrete.window fr)
             (length (Discrete.data fr)) (Discrete.speech fr)
             (Discrete.speech_discrete fr) ovl_model (snd q) in
  let o := match fst b with Ok o => o | Raise _ => Fixture.no_overlap end in
  let c := Discrete.clustering (C := Fixture.collaborators) self fr (Some o)
                               (snd b) in
  let ann := match fst c with Ok ann => ann | Raise _ => [] end in
  let hypothesis :=
    Annotation_crop
      (@one_hot_decoding Fixture.collaborators
         (cluster_y 10 3 [0; 1; 2]%nat [0; 1; 2]%nat)
         (mkWindow 0 1 1) (Discrete.range_labels 3))
      (Discrete.clean_speech o) in
  length ann = 5%nat
  /\ length hypothesis = 3%nat
  /\ forall e, In e hypothesis -> In e ann.
Proof.
  intros ovl_model self q fr b o c ann hypothesis.
  split; [vm_compute; reflexivity|]. split; [vm_compute; reflexivity|].
  destruct (clean_labels_kept (C := Fixture.collaborators) self fr
              (length (Discrete.data fr)) (Discrete.speech_discrete fr)
              ovl_model (snd q) (snd b) (snd b) (snd c) o ann)
    as (X & dendrogram & top & noisy & part & E1 & E2 & K).
  - vm_compute. reflexivity.
  - vm_compute. reflexivity.
  - cbv zeta in K. destruct K as (E3 & _ & _ & _ & Kept & _).
    assert (EX : X = [(1, 0); (3 # 5, 4 # 5); (0, 1)])
      by (vm_compute in E1; congruence).
    subst X.
    assert (ED : dendrogram = 3%nat) by (vm_compute in E2; congruence).
    subst dendrogram.
    assert (ET : top = 2%nat) by (vm_compute in E3; congruence).
    subst top. exact Kept.
Defined.
